(** * Leak-graph construction of [profiler.common.js]

    A shallow embedding of the memory-analysis half of
    [src_logic/common/profiler.common.js]: the memoizing accessor
    [serializeNode], the retainer-graph builder [createForceGraph], the
    expand/collapse toggle [setExpandOff], and the assembly of the search
    list in [memCalculator] / [analyticsP].

    Conventions of the embedding.
    - JS integers (node indices, distances, retained sizes, the three
      configuration limits) are [Z].  The one division of the source and the
      comparison of its result are binary64 operations: an integer is
      converted to the nearest binary64 number and divided by [SFdiv] of
      [SpecFloat], the specification of IEEE 754 arithmetic that Rocq's
      primitive floats are checked against, at precision 53 and maximal
      exponent 1024.
    - Node ids are strings, as in the data model.  All ids have the same
      JS type, so the loose [==] of [setExpandOff] and the strict [===] of
      [findNode] are the same test.
    - Arrays are lists, [push] appends at the end.  Objects that are
      mutated in place (the graph nodes) are threaded through the functions
      as explicit state. *)

From Stdlib Require Import ZArith Lia SpecFloat.
From stdpp Require Import gmap strings list fin_maps sorting.

Local Open Scope string_scope.
Local Open Scope list_scope.
Local Open Scope Z_scope.

(** ** Data model *)

Module Child.
Record t := mk { index : Z; name_or_index : string }.
End Child.

Module NodeDetail.
Record t := mk {
  index : Z;
  id : string;
  name : string;
  distance : Z;
  retainedSize : Z;
  children : list Child.t
}.
End NodeDetail.

Module LeakPoint.
(** A leak point carries an [index]; whatever else the detector attached
    to it is kept as an opaque payload ([{ index: rootIndex }] has none). *)
Record t := mk { index : Z; extra : option string }.
End LeakPoint.

Module GraphNode.
Record t := mk {
  index : Z;
  name : string;
  isMain : option bool;        (* attributes: { isMain } or {} *)
  id : string;
  size : Z;
  category : Z;
  ignore : bool;
  flag : bool;
  label : option string;       (* undefined until post-processing *)
  symbolSize : option Z        (* undefined until post-processing *)
}.

(** [node.ignore = i; node.flag = f] *)
Definition setVisibility (i f : bool) (n : t) : t :=
  mk (index n) (name n) (isMain n) (id n) (size n) (category n) i f
     (label n) (symbolSize n).

(** [node.ignore = i; node.flag = f; node.category = c] *)
Definition setState (i f : bool) (c : Z) (n : t) : t :=
  mk (index n) (name n) (isMain n) (id n) (size n) c i f
     (label n) (symbolSize n).

(** [node.label = node.name; node.symbolSize = node.size] *)
Definition setAliases (n : t) : t :=
  mk (index n) (name n) (isMain n) (id n) (size n) (category n) (ignore n)
     (flag n) (Some (name n)) (Some (size n)).
End GraphNode.

Module GraphLink.
Record t := mk {
  source : string;
  target : string;
  sourceIndex : Z;
  targetIndex : Z;
  name_or_index : string
}.
End GraphLink.

Module ForceGraph.
Record t := mk {
  nodes : list GraphNode.t;
  links : list GraphLink.t;
  index : option Z             (* set once the graph is finished *)
}.

Definition withNodes (ns : list GraphNode.t) (g : t) : t :=
  mk ns (links g) (index g).
End ForceGraph.

(** ** [catchNode] and [findNode] *)

(** [nodes.filter(item => Number(item[key]) === Number(value))[0]], used with
    [key = 'index'] only. *)
Definition catchNode (nodes : list GraphNode.t) (value : Z) : option GraphNode.t :=
  head (filter (fun item => GraphNode.index item = value) nodes).

(** [arraySource.forEach(item => { if (item[type] === value) cb(item) })],
    used with [type = 'id'] only; the callbacks mutate the item. *)
Definition findNode (arraySource : list GraphNode.t) (value : string)
    (cb : GraphNode.t -> GraphNode.t) : list GraphNode.t :=
  map (fun item => if String.eqb (GraphNode.id item) value then cb item else item)
      arraySource.

(** ** [setExpandOff]: the expand / collapse toggle *)

(** Expand branch, first loop: the targets of the links leaving [dataId]. *)
Definition expandTargets (linksOption : list GraphLink.t) (dataId : string)
    : list string :=
  fold_left
    (fun linksNodes l =>
       if String.eqb (GraphLink.source l) dataId
       then linksNodes ++ [GraphLink.target l] else linksNodes)
    linksOption [].

(** Collapse branch, body of the loop over the links.  The inner
    [for (let n in linksNodes)] enumerates the keys that exist when it
    starts (entries pushed by the loop itself are not visited, as in V8), so
    the target is pushed once per matching entry of the list as it stands
    after the first [if]. *)
Definition collapseStep (dataId : string) (linksNodes : list string)
    (l : GraphLink.t) : list string :=
  let linksNodes1 :=
    if String.eqb (GraphLink.source l) dataId
    then linksNodes ++ [GraphLink.target l] else linksNodes in
  fold_left
    (fun acc n =>
       if String.eqb (GraphLink.source l) n
          && negb (String.eqb (GraphLink.target l) dataId)
       then acc ++ [GraphLink.target l] else acc)
    linksNodes1 linksNodes1.

Definition collapseTargets (linksOption : list GraphLink.t) (dataId : string)
    : list string :=
  fold_left (collapseStep dataId) linksOption [].

(** [for (let p in linksNodes) findNode(nodesOption, 'id', linksNodes[p], cb)] *)
Definition forEachTarget (cb : GraphNode.t -> GraphNode.t)
    (linksNodes : list string) (nodesOption : list GraphNode.t)
    : list GraphNode.t :=
  fold_left (fun ns p => findNode ns p cb) linksNodes nodesOption.

(** [data] is an element of [forceGraph.nodes] in every call of the source;
    the function reads [data.flag] once, before any mutation, and
    [data.id], which is never written, so passing the node by value gives
    the same graph. *)
Definition setExpandOff (forceGraph : ForceGraph.t) (data : GraphNode.t)
    : ForceGraph.t :=
  let nodesOption := ForceGraph.nodes forceGraph in
  let linksOption := ForceGraph.links forceGraph in
  if GraphNode.flag data then
    let linksNodes := expandTargets linksOption (GraphNode.id data) in
    let nodes1 :=
      forEachTarget (GraphNode.setVisibility false true) linksNodes nodesOption in
    ForceGraph.withNodes
      (findNode nodes1 (GraphNode.id data) (GraphNode.setState false false 0))
      forceGraph
  else
    let linksNodes := collapseTargets linksOption (GraphNode.id data) in
    let nodes1 :=
      forEachTarget (GraphNode.setVisibility true true) linksNodes nodesOption in
    ForceGraph.withNodes
      (findNode nodes1 (GraphNode.id data) (GraphNode.setState true true 1))
      forceGraph.

(** ** [serializeNode]: the memoizing accessor *)

Module NodeCache.
(** The closure state of one accessor: the private [_cache] object, and
    a log of the indices that were handed to [analysisLib.serialize]
    (oldest first), so that "the primitive is invoked" can be stated. *)
Record t := mk {
  cache : gmap Z NodeDetail.t;
  calls : list Z
}.

(** [const _cache = {}] *)
Definition empty : t := mk ∅ [].
End NodeCache.

Section SerializeNode.
(** [analysisLib.serialize(jsHeapSnapShot, index, limit)] belongs to the
    external library; it is a function of the snapshot, the index and the
    limit, and returns a node-detail object (never a falsy value, so the
    test [if (cache)] is the test "the key is present"). *)
Variable Snapshot : Type.
Variable analysisSerialize : Snapshot -> Z -> Z -> NodeDetail.t.

(** The function returned by [serializeNode(jsHeapSnapShot, limit)], as a
    state transformer on its closure state. *)
Definition serializeNode (jsHeapSnapShot : Snapshot) (limit : Z)
    (index : Z) (st : NodeCache.t) : NodeDetail.t * NodeCache.t :=
  match NodeCache.cache st !! index with
  | Some cache => (cache, st)
  | None =>
      let cache := analysisSerialize jsHeapSnapShot index limit in
      (cache,
       NodeCache.mk (<[index := cache]> (NodeCache.cache st))
                    (NodeCache.calls st ++ [index]))
  end.

(** A sequence of accessor calls, threading the closure state. *)
Definition serializeAll (jsHeapSnapShot : Snapshot) (limit : Z)
    (indices : list Z) (st : NodeCache.t) : NodeCache.t :=
  fold_left (fun s i => snd (serializeNode jsHeapSnapShot limit i s)) indices st.
End SerializeNode.

(** ** JS numbers for the relative-size test *)

(** A JS number is a binary64 number: precision 53, maximal exponent 1024. *)
Abbreviation jsnum := spec_float.

(** The number an integer denotes: the integer itself when it has at most
    53 significant bits, the nearest binary64 number (ties to even)
    otherwise. *)
Definition number (z : Z) : jsnum := binary_normalize 53 1024 z 0 false.

(** [a / b] on two numbers that hold integers: the quotient rounded to the
    nearest binary64 number, ties to even; an infinity when a non-zero [a]
    is divided by zero, and NaN for [0 / 0]. *)
Definition js_div (a b : Z) : jsnum := SFdiv 53 1024 (number a) (number b).

(** [x > y], false when either side is NaN. *)
Definition js_gt (x y : jsnum) : bool := SFltb y x.

(** ** Plain JS objects used as tables *)

(** Property names every [{}] inherits from [Object.prototype]; reading one
    of them from an object that does not define it yields a function (or
    the prototype), which is truthy. *)
Definition objectPrototypeKeys : list string :=
  [ "constructor"; "__proto__"; "hasOwnProperty"; "isPrototypeOf";
    "propertyIsEnumerable"; "toLocaleString"; "toString"; "valueOf";
    "__defineGetter__"; "__defineSetter__"; "__lookupGetter__";
    "__lookupSetter__" ].

(** [isRecorded[id]] as a condition: the id was recorded, or it names an
    inherited property. *)
Definition isRecordedGet (isRecorded : gset string) (id : string) : bool :=
  existsb (String.eqb id) objectPrototypeKeys || bool_decide (id ∈ isRecorded).

Module Biggest.
(** An entry of [biggestList]; the seed entry of the leak point has
    [source: null] and neither [sourceId] nor [distance]. *)
Record t := mk {
  id : string;
  source : option Z;
  sourceId : option string;
  distance : option Z;
  retainedSize : Z
}.
End Biggest.

(** [biggestList] is keyed by node index; it is kept in creation order
    because [Object.keys] depends on it. *)
Fixpoint bl_get (bl : list (Z * Biggest.t)) (k : Z) : option Biggest.t :=
  match bl with
  | [] => None
  | (k', v) :: rest => if k' =? k then Some v else bl_get rest k
  end.

(** [biggestList[k] = v]: an existing key keeps its place. *)
Fixpoint bl_set (k : Z) (v : Biggest.t) (bl : list (Z * Biggest.t))
    : list (Z * Biggest.t) :=
  match bl with
  | [] => [(k, v)]
  | (k', v') :: rest =>
      if k' =? k then (k, v) :: rest else (k', v') :: bl_set k v rest
  end.

(** [Object.keys], in the order V8 gives: array-index keys
    ([0 <= k < 2^32 - 1]) ascending, then the other keys in creation
    order. *)
Definition isArrayIndex (k : Z) : bool := (0 <=? k) && (k <? 4294967295).

Definition objectKeys (bl : list (Z * Biggest.t)) : list Z :=
  merge_sort Z.le (filter (fun k => isArrayIndex k = true) (map fst bl))
  ++ filter (fun k => isArrayIndex k = false) (map fst bl).

(** ** [createForceGraph] *)

Module Config.
(** [config.profiler.mem.optional] *)
Record t := mk { distance_limit : Z; node_limit : Z; leak_limit : Z }.
End Config.

Module Traversal.
(** What the [while] loop of one leak point reads and writes. *)
Record t := mk {
  nodes : list GraphNode.t;
  links : list GraphLink.t;
  biggestList : list (Z * Biggest.t);
  isRecorded : gset string;
  tmpIndexArr : list Z
}.
End Traversal.

Section CreateForceGraph.
Variable config : Config.t.
(** The accessor handed to [createForceGraph].  It is the memoizing
    accessor of one snapshot, whose value at an index never changes
    (lemma [serializeNode_value] below), so it is read here as a function. *)
Variable serialize : Z -> NodeDetail.t.

Let distanceLimit := Config.distance_limit config.
Let childrenLimit := Config.node_limit config.
Let leakDistanceLimit := Config.leak_limit config.

(** [children.filter(item => serialize(item.index).distance ===
    1 + nodeDetail.distance)] *)
Definition retainedChildren (nodeDetail : NodeDetail.t) : list Child.t :=
  filter
    (fun item =>
       NodeDetail.distance (serialize (Child.index item))
       = 1 + NodeDetail.distance nodeDetail)
    (NodeDetail.children nodeDetail).

(** The condition of the [if] that writes [biggestList[cIndex]]. *)
Definition isBiggest (rootDistance : Z) (biggestList : list (Z * Biggest.t))
    (nodeDetail childDetail : NodeDetail.t) : bool :=
  (Z.abs (rootDistance - NodeDetail.distance childDetail) <? leakDistanceLimit)
  && match bl_get biggestList (NodeDetail.index nodeDetail) with
     | Some parent =>
         js_gt (js_div (NodeDetail.retainedSize childDetail)
                       (Biggest.retainedSize parent))
               (js_div 1 childrenLimit)
     | None => false
     end.

Definition parentNode (leak : LeakPoint.t) (nodeDetail : NodeDetail.t)
    : GraphNode.t :=
  let isMain := bool_decide (LeakPoint.index leak = NodeDetail.index nodeDetail) in
  GraphNode.mk (NodeDetail.index nodeDetail) (NodeDetail.id nodeDetail)
    (Some isMain) (NodeDetail.id nodeDetail)
    (if isMain then 40 else 30) (if isMain then 0 else 1)
    (if isMain then false else true) true None None.

Definition boundaryNode (distanceDisplay : Z) (childDetail : NodeDetail.t)
    : GraphNode.t :=
  GraphNode.mk (NodeDetail.index childDetail) (NodeDetail.id childDetail)
    None (NodeDetail.id childDetail) 30 1
    (if distanceDisplay =? 2 then false else true) true None None.

Definition makeLink (nodeDetail childDetail : NodeDetail.t) (child : Child.t)
    : GraphLink.t :=
  GraphLink.mk (NodeDetail.id nodeDetail) (NodeDetail.id childDetail)
    (NodeDetail.index nodeDetail) (NodeDetail.index childDetail)
    (Child.name_or_index child).

(** Body of [children.forEach((child, index) => ...)]. *)
Definition childStep (rootDistance distanceDisplay : Z)
    (nodeDetail : NodeDetail.t) (st : Traversal.t) (child : Child.t)
    : Traversal.t :=
  let cIndex := Child.index child in
  let childDetail := serialize cIndex in
  let recorded := isRecordedGet (Traversal.isRecorded st) (NodeDetail.id childDetail) in
  let tmpIndexArr :=
    if recorded then Traversal.tmpIndexArr st
    else Traversal.tmpIndexArr st ++ [cIndex] in
  let biggestList :=
    if isBiggest rootDistance (Traversal.biggestList st) nodeDetail childDetail
    then bl_set cIndex
           (Biggest.mk (NodeDetail.id childDetail)
              (Some (NodeDetail.index nodeDetail))
              (Some (NodeDetail.id nodeDetail))
              (Some (NodeDetail.distance childDetail))
              (NodeDetail.retainedSize childDetail))
           (Traversal.biggestList st)
    else Traversal.biggestList st in
  let link := makeLink nodeDetail childDetail child in
  if distanceDisplay =? distanceLimit then
    if recorded then
      (* [return] before the link is pushed *)
      Traversal.mk (Traversal.nodes st) (Traversal.links st) biggestList
        (Traversal.isRecorded st) tmpIndexArr
    else
      Traversal.mk
        (Traversal.nodes st ++ [boundaryNode distanceDisplay childDetail])
        (Traversal.links st ++ [link]) biggestList
        ({[NodeDetail.id childDetail]} ∪ Traversal.isRecorded st) tmpIndexArr
  else
    Traversal.mk (Traversal.nodes st) (Traversal.links st ++ [link])
      biggestList (Traversal.isRecorded st) tmpIndexArr.

(** Body of [leakIndexList.forEach(index => ...)]. *)
Definition parentStep (leak : LeakPoint.t) (rootDistance distanceDisplay : Z)
    (st : Traversal.t) (index : Z) : Traversal.t :=
  let nodeDetail := serialize index in
  let children := retainedChildren nodeDetail in
  if isRecordedGet (Traversal.isRecorded st) (NodeDetail.id nodeDetail) then st
  else
    fold_left (childStep rootDistance distanceDisplay nodeDetail) children
      (Traversal.mk
         (Traversal.nodes st ++ [parentNode leak nodeDetail])
         (Traversal.links st) (Traversal.biggestList st)
         ({[NodeDetail.id nodeDetail]} ∪ Traversal.isRecorded st)
         (Traversal.tmpIndexArr st)).

(** One iteration of the [while] loop: a fresh [tmpIndexArr], then the
    [forEach] over the frontier. *)
Definition hopStep (leak : LeakPoint.t) (rootDistance distanceDisplay : Z)
    (leakIndexList : list Z) (st : Traversal.t) : Traversal.t :=
  fold_left (parentStep leak rootDistance distanceDisplay) leakIndexList
    (Traversal.mk (Traversal.nodes st) (Traversal.links st)
       (Traversal.biggestList st) (Traversal.isRecorded st) []).

(** [while (leakIndexList.length !== 0 && distanceDisplay <= distanceLimit)].
    The loop is run on a bound on the number of its iterations;
    [whileLoop_fuel] shows that [hops] iterations always suffice. *)
Fixpoint whileLoop (fuel : nat) (leak : LeakPoint.t)
    (rootDistance distanceDisplay : Z) (leakIndexList : list Z)
    (st : Traversal.t) : Traversal.t :=
  match fuel with
  | O => st
  | S fuel' =>
      if negb (Nat.eqb (length leakIndexList) 0)
         && (distanceDisplay <=? distanceLimit)
      then
        let st' := hopStep leak rootDistance distanceDisplay leakIndexList st in
        whileLoop fuel' leak rootDistance (distanceDisplay + 1)
          (Traversal.tmpIndexArr st') st'
      else st
  end.

Definition hops : nat := Z.to_nat distanceLimit.

(** The state of one leak point when its [while] loop has ended. *)
Definition traverse (leak : LeakPoint.t) : Traversal.t :=
  let leakDetail := serialize (LeakPoint.index leak) in
  let rootDistance := NodeDetail.distance leakDetail in
  whileLoop hops leak rootDistance 1 [LeakPoint.index leak]
    (Traversal.mk [] []
       [(LeakPoint.index leak,
         Biggest.mk (NodeDetail.id leakDetail) None None None
           (NodeDetail.retainedSize leakDetail))]
       ∅ []).

(** [Object.keys(biggestList).forEach(index => { let data = catchNode(...);
    if (data) setExpandOff(forceGraph, data) })] *)
Definition preExpand (biggestList : list (Z * Biggest.t))
    (forceGraph : ForceGraph.t) : ForceGraph.t :=
  fold_left
    (fun g index =>
       match catchNode (ForceGraph.nodes g) index with
       | Some data => setExpandOff g data
       | None => g
       end)
    (objectKeys biggestList) forceGraph.

(** The finished graph of one leak point. *)
Definition leakGraph (leak : LeakPoint.t) : ForceGraph.t :=
  let st := traverse leak in
  let g := preExpand (Traversal.biggestList st)
             (ForceGraph.mk (Traversal.nodes st) (Traversal.links st) None) in
  ForceGraph.mk (map GraphNode.setAliases (ForceGraph.nodes g))
    (ForceGraph.links g) (Some (LeakPoint.index leak)).

(** [`${leakDetailTmp.name}::${leakDetailTmp.id}`] *)
Definition leakKey (leak : LeakPoint.t) : string :=
  let leakDetailTmp := serialize (LeakPoint.index leak) in
  String.append (NodeDetail.name leakDetailTmp)
    (String.append "::" (NodeDetail.id leakDetailTmp)).

(** [forceGraph.nodes.forEach(item => heapUsed[item.index] = serialize(item.index))] *)
Definition recordHeapUsed (nodes : list GraphNode.t)
    (heapUsed : gmap Z NodeDetail.t) : gmap Z NodeDetail.t :=
  fold_left
    (fun h item => <[GraphNode.index item := serialize (GraphNode.index item)]> h)
    nodes heapUsed.

(** [createForceGraph(heapUsed, serialize, leakPoint)]: the returned
    table, together with the [heapUsed] object it has written to. *)
Definition createForceGraph (heapUsed : gmap Z NodeDetail.t)
    (leakPoint : list LeakPoint.t)
    : gmap Z NodeDetail.t * gmap string ForceGraph.t :=
  fold_left
    (fun '(heapUsed, forceGraphAll) leak =>
       (recordHeapUsed (Traversal.nodes (traverse leak)) heapUsed,
        <[leakKey leak := leakGraph leak]> forceGraphAll))
    leakPoint (heapUsed, ∅).

(** ** [memCalculator] *)

(** [[{ index: rootIndex }].concat(leakPoint)] *)
Definition memCalculator (heapUsed : gmap Z NodeDetail.t)
    (leakPoint : list LeakPoint.t) (rootIndex : Z)
    : gmap Z NodeDetail.t * gmap string ForceGraph.t * list LeakPoint.t :=
  let '(heapUsed', forceGraph) := createForceGraph heapUsed leakPoint in
  let searchList := [LeakPoint.mk rootIndex None] ++ leakPoint in
  (heapUsed', forceGraph, searchList).
End CreateForceGraph.

(** ** [analyticsP], memory branch *)

Section AnalyticsP.
Variables Snapshot Statistics Aggregates : Type.
Variable analysisSerialize : Snapshot -> Z -> Z -> NodeDetail.t.
(** [jsHeapSnapShot._statistics] and [jsHeapSnapShot._aggregates.allObjects] *)
Variable statisticsOf : Snapshot -> Statistics.
Variable allObjectsOf : Snapshot -> Aggregates.
Variable config : Config.t.

(** What [analysisLib.memAnalyticsP(profiler)] resolves to. *)
Record MemAnalytics := mkMemAnalytics {
  ma_leakPoint : list LeakPoint.t;
  ma_rootIndex : Z;
  ma_jsHeapSnapShot : Snapshot
}.

Record MemResult := mkMemResult {
  heapUsed : gmap Z NodeDetail.t;
  leakPoint : list LeakPoint.t;
  statistics : Statistics;
  rootIndex : Z;
  aggregates : Aggregates;
  forceGraph : gmap string ForceGraph.t;
  searchList : list Z
}.

(** The [type === 'mem'] branch of [_analysysG], from the resolved
    [memAnalytics] on. *)
Definition analyticsMem (memAnalytics : MemAnalytics) : MemResult :=
  let leakPoint := ma_leakPoint memAnalytics in
  let rootIndex := ma_rootIndex memAnalytics in
  let jsHeapSnapShot := ma_jsHeapSnapShot memAnalytics in
  let statistics := statisticsOf jsHeapSnapShot in
  let aggregates := allObjectsOf jsHeapSnapShot in
  let serialize :=
    fun index => analysisSerialize jsHeapSnapShot index (Config.node_limit config) in
  let heapUsed :=
    fold_left
      (fun pre next => <[LeakPoint.index next := serialize (LeakPoint.index next)]> pre)
      leakPoint ∅ in
  let heapUsed := <[rootIndex := serialize rootIndex]> heapUsed in
  let '(heapUsed, forceGraph, searchList) :=
    memCalculator config serialize heapUsed leakPoint rootIndex in
  let searchList := map LeakPoint.index searchList in
  mkMemResult heapUsed leakPoint statistics rootIndex aggregates forceGraph
    searchList.
End AnalyticsP.

Arguments MemAnalytics Snapshot : clear implicits.
Arguments ma_leakPoint {Snapshot} _.
Arguments ma_rootIndex {Snapshot} _.
Arguments ma_jsHeapSnapShot {Snapshot} _.
Arguments searchList {Statistics Aggregates} _.
Arguments heapUsed {Statistics Aggregates} _.
Arguments forceGraph {Statistics Aggregates} _.
Arguments analyticsMem {Snapshot Statistics Aggregates} _ _ _ _ _.
Arguments serializeNode {Snapshot} _ _ _ _ _.
Arguments serializeAll {Snapshot} _ _ _ _ _.

(** * Sample inputs *)

Module Sample.
(** Leak point 5 (distance 0) retains node 6 (distance 1), which retains
    node 7 (distance 2). *)
Definition chain (size5 size6 size7 : Z) (index : Z) : NodeDetail.t :=
  if index =? 5 then
    NodeDetail.mk 5 "@5" "Leak" 0 size5 [Child.mk 6 "a"]
  else if index =? 6 then
    NodeDetail.mk 6 "@6" "Mid" 1 size6 [Child.mk 7 "b"]
  else
    NodeDetail.mk index "@7" "Leaf" 2 size7 [].

Definition leak5 : LeakPoint.t := LeakPoint.mk 5 None.

(** Two hops, a relative-size threshold of 1/10, a leak window of 5. *)
Definition config2 : Config.t := Config.mk 2 10 5.

(** One hop only. *)
Definition config1 : Config.t := Config.mk 1 10 5.

Definition heap : Z -> NodeDetail.t := chain 100 50 1.

(** A heap in which node 6 is small next to its parent 5, and node 7 is
    as large as its parent 6. *)
Definition smallMiddle : Z -> NodeDetail.t := chain 100 1 1.

(** A node and a link of a hand-made graph; only the id and the visibility
    fields matter to the toggle. *)
Definition node (id : string) (ignore flag : bool) (category : Z) : GraphNode.t :=
  GraphNode.mk 0 id None id 30 category ignore flag None None.

Definition link (source target : string) : GraphLink.t :=
  GraphLink.mk source target 0 0 "".

(** Nodes [a], [b], [c], all shown and expanded (flag cleared). *)
Definition abcNodes : list GraphNode.t :=
  [node "a" false false 0; node "b" false false 0; node "c" false false 0].

(** [a -> b -> c], the links in the order a traversal emits them. *)
Definition chainGraph : ForceGraph.t :=
  ForceGraph.mk abcNodes [link "a" "b"; link "b" "c"] None.

(** The same links, listed the other way round. *)
Definition reversedGraph : ForceGraph.t :=
  ForceGraph.mk abcNodes [link "b" "c"; link "a" "b"] None.

(** A cycle between [a] and [b], and a link from [b] on to [c]. *)
Definition cycleGraph : ForceGraph.t :=
  ForceGraph.mk abcNodes [link "a" "b"; link "b" "a"; link "b" "c"] None.

(** One collapsed node that links to itself. *)
Definition selfLinkGraph : ForceGraph.t :=
  ForceGraph.mk [node "a" true true 1] [link "a" "a"] None.

(** A collapsed leaf and an unrelated link. *)
Definition leafGraph : ForceGraph.t :=
  ForceGraph.mk [node "a" true true 1; node "b" false false 0]
    [link "b" "c"] None.
End Sample.

(** * Vocabulary of the statements *)

(** [x] occurs in [l], as a boolean. *)
Definition inb (x : string) (l : list string) : bool :=
  existsb (String.eqb x) l.

(** The ids reachable from [root] along the links: the target of a link
    leaving [root], or the target of a link that leaves a reachable id and
    does not point back at [root]. *)
Inductive reach (links : list GraphLink.t) (root : string) : string -> Prop :=
  | reach_direct l :
      l ∈ links -> GraphLink.source l = root ->
      reach links root (GraphLink.target l)
  | reach_chain l :
      l ∈ links -> reach links root (GraphLink.source l) ->
      GraphLink.target l <> root ->
      reach links root (GraphLink.target l).

(** The ids reachable from [root] by a chain of links that the array lists
    in the order of the chain: the target of a link leaving [root], or the
    target of a link that does not point back at [root] and whose source is
    reached by such a chain among the links listed before it. *)
Inductive chainReach (root : string) : list GraphLink.t -> string -> Prop :=
  | chain_direct pre l post :
      GraphLink.source l = root ->
      chainReach root (pre ++ l :: post) (GraphLink.target l)
  | chain_step pre l post :
      chainReach root pre (GraphLink.source l) ->
      GraphLink.target l <> root ->
      chainReach root (pre ++ l :: post) (GraphLink.target l).

(** Every link into an id is listed before every link out of it: the order
    in which a breadth-first traversal emits the links of a retainer
    tree. *)
Definition forwardOrdered (links : list GraphLink.t) : Prop :=
  forall pre l post l',
    links = pre ++ l :: post ->
    l' ∈ links -> GraphLink.target l' = GraphLink.source l -> l' ∈ pre.

(** The two states of the toggle, and the value a toggle leaves in a node. *)
Definition expanded (n : GraphNode.t) : GraphNode.t :=
  GraphNode.setState false false 0 n.

Definition collapsed (n : GraphNode.t) : GraphNode.t :=
  GraphNode.setState true true 1 n.

Definition revealed (n : GraphNode.t) : GraphNode.t :=
  GraphNode.setVisibility false true n.

Definition hidden (n : GraphNode.t) : GraphNode.t :=
  GraphNode.setVisibility true true n.

(** Two nodes that differ in the visibility fields only. *)
Definition sameIdentity (n n' : GraphNode.t) : Prop :=
  GraphNode.index n' = GraphNode.index n
  /\ GraphNode.name n' = GraphNode.name n
  /\ GraphNode.id n' = GraphNode.id n
  /\ GraphNode.isMain n' = GraphNode.isMain n
  /\ GraphNode.size n' = GraphNode.size n
  /\ GraphNode.label n' = GraphNode.label n
  /\ GraphNode.symbolSize n' = GraphNode.symbolSize n.

(** A link made from a materialized parent and one of its children, one
    step further from the root. *)
Definition retainerLink (serialize : Z -> NodeDetail.t) (l : GraphLink.t) : Prop :=
  exists parent child,
    GraphLink.source l = NodeDetail.id (serialize parent)
    /\ GraphLink.sourceIndex l = NodeDetail.index (serialize parent)
    /\ GraphLink.target l = NodeDetail.id (serialize child)
    /\ GraphLink.targetIndex l = NodeDetail.index (serialize child)
    /\ NodeDetail.distance (serialize child)
       = NodeDetail.distance (serialize parent) + 1.

(** A node that carries the id of a materialized detail, as its name too. *)
Definition namedById (serialize : Z -> NodeDetail.t) (n : GraphNode.t) : Prop :=
  GraphNode.name n = GraphNode.id n
  /\ exists index,
       GraphNode.id n = NodeDetail.id (serialize index)
       /\ GraphNode.index n = NodeDetail.index (serialize index).

(** The test a visited child has to pass to be written to [biggestList]:
    it lies within the leak window, its parent is in the table, and its
    retained size over the retained size recorded for the parent exceeds
    [1 / childrenLimit]. *)
Definition biggestRule (config : Config.t) (rootDistance : Z)
    (biggestList : list (Z * Biggest.t)) (nodeDetail childDetail : NodeDetail.t)
    : Prop :=
  Z.abs (rootDistance - NodeDetail.distance childDetail) < Config.leak_limit config
  /\ exists parent,
       bl_get biggestList (NodeDetail.index nodeDetail) = Some parent
       /\ js_gt (js_div (NodeDetail.retainedSize childDetail)
                        (Biggest.retainedSize parent))
                (js_div 1 (Config.node_limit config)) = true.

(** The key [k] got into the table as a retained child of a materialized
    parent that is in the table [biggestList], by the test above taken on
    the materialized retained sizes. *)
Definition justified (config : Config.t) (serialize : Z -> NodeDetail.t)
    (rootDistance : Z) (biggestList : list (Z * Biggest.t)) (k : Z) : Prop :=
  exists parent child,
    child ∈ retainedChildren serialize (serialize parent)
    /\ Child.index child = k
    /\ Z.abs (rootDistance - NodeDetail.distance (serialize k))
       < Config.leak_limit config
    /\ is_Some (bl_get biggestList (NodeDetail.index (serialize parent)))
    /\ js_gt (js_div (NodeDetail.retainedSize (serialize k))
                     (NodeDetail.retainedSize
                        (serialize (NodeDetail.index (serialize parent)))))
             (js_div 1 (Config.node_limit config)) = true.

(** The link [l] joins a materialized parent at distance [d] to a
    materialized child at distance [d + 1]. *)
Definition linkLevel (serialize : Z -> NodeDetail.t) (l : GraphLink.t) (d : Z)
    : Prop :=
  exists parent child,
    GraphLink.source l = NodeDetail.id (serialize parent)
    /\ GraphLink.target l = NodeDetail.id (serialize child)
    /\ NodeDetail.distance (serialize parent) = d
    /\ NodeDetail.distance (serialize child) = d + 1.

(** A list of links whose levels never decrease and stay below a bound:
    what a breadth-first traversal has pushed when it works at the
    distance [bound]. *)
Inductive levelled (serialize : Z -> NodeDetail.t)
    : list GraphLink.t -> Z -> Prop :=
  | levelled_nil bound : levelled serialize [] bound
  | levelled_snoc links l d bound :
      levelled serialize links d -> linkLevel serialize l d -> d <= bound ->
      levelled serialize (links ++ [l]) bound.

(** An id that is not the name of an inherited property. *)
Definition plainId (id : string) : Prop :=
  existsb (String.eqb id) objectPrototypeKeys = false.

(** A state the toggle can leave a node in: the category is 0 or 1, and a
    node whose flag is cleared is shown and of category 0. *)
Definition toggleState (n : GraphNode.t) : Prop :=
  (GraphNode.category n = 0 \/ GraphNode.category n = 1)
  /\ (GraphNode.flag n = false ->
      GraphNode.ignore n = false /\ GraphNode.category n = 0).

(** Some node of the list has the id. *)
Definition hasNode (nodes : list GraphNode.t) (id : string) : Prop :=
  exists n, n ∈ nodes /\ GraphNode.id n = id.

(** The id is that of the detail at one of the indices. *)
Definition pendingIn (serialize : Z -> NodeDetail.t) (indices : list Z)
    (id : string) : Prop :=
  exists i, i ∈ indices /\ NodeDetail.id (serialize i) = id.

(** The links of a traversal state are anchored, at hop [distanceDisplay]
    with the frontier [frontier] and the next frontier [next]: every link
    leaves a node; and when no id is an inherited property name, every
    recorded id has a node and every link points at a node, or at a detail
    that is still to be visited in this hop or, before the last hop, in the
    next. *)
Definition anchored (config : Config.t) (serialize : Z -> NodeDetail.t)
    (distanceDisplay : Z) (frontier next : list Z) (st : Traversal.t) : Prop :=
  (forall l, l ∈ Traversal.links st ->
             hasNode (Traversal.nodes st) (GraphLink.source l))
  /\ ((forall i, plainId (NodeDetail.id (serialize i))) ->
      (forall x, x ∈ Traversal.isRecorded st -> hasNode (Traversal.nodes st) x)
      /\ forall l, l ∈ Traversal.links st ->
           hasNode (Traversal.nodes st) (GraphLink.target l)
           \/ (distanceDisplay <= Config.distance_limit config
               /\ pendingIn serialize frontier (GraphLink.target l))
           \/ (distanceDisplay < Config.distance_limit config
               /\ pendingIn serialize next (GraphLink.target l))).

(** The nodes of a traversal state lie within the distance limit of the
    leak point, and the frontier lies at the distance of the hop. *)
Definition withinLimit (config : Config.t) (serialize : Z -> NodeDetail.t)
    (rootDistance distanceDisplay : Z) (frontier : list Z) (st : Traversal.t)
    : Prop :=
  1 <= distanceDisplay
  /\ (forall i, i ∈ frontier ->
                NodeDetail.distance (serialize i)
                = rootDistance + distanceDisplay - 1)
  /\ forall n, n ∈ Traversal.nodes st ->
       exists i,
         GraphNode.id n = NodeDetail.id (serialize i)
         /\ GraphNode.index n = NodeDetail.index (serialize i)
         /\ rootDistance <= NodeDetail.distance (serialize i)
            <= rootDistance + Config.distance_limit config.

(** One round of the loop over the keys of [biggestList] in [preExpand]. *)
Definition preExpandStep (g : ForceGraph.t) (index : Z) : ForceGraph.t :=
  match catchNode (ForceGraph.nodes g) index with
  | Some data => setExpandOff g data
  | None => g
  end.

(** The remainder [R] of a division by [D] lies where the location says:
    it is zero, below the half of [D], at the half, or above it. *)
Definition locates (l : location) (R D : Z) : Prop :=
  match l with
  | loc_Exact => R = 0
  | loc_Inexact Lt => 0 < R /\ 2 * R < D
  | loc_Inexact Eq => 0 < R /\ 2 * R = D
  | loc_Inexact Gt => D < 2 * R
  end.

(** The mantissa [M] of 53 bits is the quotient [Y / X] rounded to the
    nearest, a tie going to the even mantissa; under the mantissa [2^52]
    the next smaller number is only half as far away. *)
Definition nearest (Y X M : Z) : Prop :=
  4503599627370496 <= M < 9007199254740992
  /\ 2 * Y <= (2 * M + 1) * X
  /\ (2 * Y = (2 * M + 1) * X -> Z.even M = true)
  /\ (M = 4503599627370496 -> (4 * M - 1) * X <= 4 * Y)
  /\ (M <> 4503599627370496 ->
      (2 * M - 1) * X <= 2 * Y /\ (2 * Y = (2 * M - 1) * X -> Z.even M = true)).

(** The second half of [binary_round_aux]: a rounded mantissa that has
    grown to 54 bits loses its last bit. *)
Definition renormalize (s : bool) (M e : Z) : spec_float :=
  let '(mrs, e') := shr_fexp 53 1024 M e loc_Exact in
  match shr_m mrs with
  | Z0 => S754_zero s
  | Zpos m => if e' <=? 1024 - 53 then S754_finite s m e' else S754_infinity s
  | _ => S754_nan
  end.

(** * The toggle [setExpandOff] *)

Section ListFacts.
Context {A B : Type}.

Lemma elem_of_map (f : A -> B) (l : list A) y :
  y ∈ map f l <-> exists x, y = f x /\ x ∈ l.
Proof.
  rewrite list_elem_of_In, in_map_iff. split.
  - intros [x [Hx Hin]]. exists x. by rewrite list_elem_of_In.
  - intros [x [Hx Hin]]. exists x. by rewrite <- list_elem_of_In.
Qed.

Lemma lookup_map (f : A -> B) (l : list A) (i : nat) :
  map f l !! i = f <$> l !! i.
Proof. revert i. induction l as [|x l IH]; intros [|i]; simpl; auto. Qed.

(** Pushing a constant [t] once per element that passes a test. *)
Lemma elem_of_push_matching (c : A -> bool) (t : B) (l : list A) (acc : list B) x :
  x ∈ fold_left (fun acc n => if c n then acc ++ [t] else acc) l acc
  <-> x ∈ acc \/ (x = t /\ exists n, n ∈ l /\ c n = true).
Proof.
  revert acc. induction l as [|n l IH]; intros acc; simpl.
  - split; [auto|]. intros [H|[_ [n [H _]]]]; [done|]. by apply elem_of_nil in H.
  - rewrite IH. destruct (c n) eqn:Hc.
    + rewrite elem_of_app, list_elem_of_singleton. split.
      * intros [[H|H]|[H [m [Hm Hcm]]]]; eauto.
        -- right. split; [done|]. exists n. split; [left|done].
        -- right. split; [done|]. exists m. split; [by right|done].
      * intros [H|[H [m [Hm Hcm]]]]; [by left; left|].
        left. by right.
    + split.
      * intros [H|[H [m [Hm Hcm]]]]; [by left|].
        right. split; [done|]. exists m. split; [by right|done].
      * intros [H|[H [m [Hm Hcm]]]]; [by left|].
        apply elem_of_cons in Hm as [->|Hm]; [congruence|].
        right. split; [done|]. by exists m.
Qed.
End ListFacts.

Lemma inb_elem_of x l : inb x l = true <-> x ∈ l.
Proof.
  unfold inb. rewrite existsb_exists. split.
  - intros [y [Hy Heq]]. apply String.eqb_eq in Heq. subst.
    by apply list_elem_of_In.
  - intros H. exists x. split; [by apply list_elem_of_In|apply String.eqb_refl].
Qed.

Lemma inb_not_elem_of x l : inb x l = false <-> x ∉ l.
Proof.
  rewrite <- inb_elem_of. destruct (inb x l); split; intros; congruence.
Qed.

(** The loop over [linksNodes] applies [cb] to the nodes whose id is in the
    list; applying it more than once changes nothing. *)
Lemma forEachTarget_map cb linksNodes nodesOption :
  (forall n, GraphNode.id (cb n) = GraphNode.id n) ->
  (forall n, cb (cb n) = cb n) ->
  forEachTarget cb linksNodes nodesOption
  = map (fun n => if inb (GraphNode.id n) linksNodes then cb n else n) nodesOption.
Proof.
  intros Hid Hidem. unfold forEachTarget. revert nodesOption.
  induction linksNodes as [|p ln IH]; intros ns; simpl.
  - by rewrite map_id.
  - rewrite IH. unfold findNode. rewrite map_map. apply map_ext. intros n.
    destruct (String.eqb (GraphNode.id n) p) eqn:Hp; simpl.
    + rewrite Hid. destruct (inb (GraphNode.id n) ln); by rewrite ?Hidem.
    + done.
Qed.

Lemma expandTargets_elem_of links dataId x :
  x ∈ expandTargets links dataId
  <-> exists l, l ∈ links /\ GraphLink.source l = dataId /\ GraphLink.target l = x.
Proof.
  unfold expandTargets.
  assert (forall acc,
    x ∈ fold_left
          (fun linksNodes l =>
             if String.eqb (GraphLink.source l) dataId
             then linksNodes ++ [GraphLink.target l] else linksNodes) links acc
    <-> x ∈ acc \/ exists l, l ∈ links /\ GraphLink.source l = dataId
                             /\ GraphLink.target l = x) as Hgen.
  { induction links as [|l links IH]; intros acc; simpl.
    - split; [auto|]. intros [H|[l [H _]]]; [done|]. by apply elem_of_nil in H.
    - rewrite IH. destruct (String.eqb_spec (GraphLink.source l) dataId) as [Hs|Hs].
      + rewrite elem_of_app, list_elem_of_singleton. split.
        * intros [[H|H]|[m [Hm Hrest]]]; [by left| |].
          -- right. exists l. split; [left|done].
          -- right. exists m. split; [by right|done].
        * intros [H|[m [Hm [Hsm Htm]]]]; [by left; left|].
          apply elem_of_cons in Hm as [->|Hm]; [by left; right|].
          right. by exists m.
      + split.
        * intros [H|[m [Hm Hrest]]]; [by left|].
          right. exists m. split; [by right|done].
        * intros [H|[m [Hm [Hsm Htm]]]]; [by left|].
          apply elem_of_cons in Hm as [->|Hm]; [done|].
          right. by exists m. }
  rewrite Hgen. split; [|auto]. intros [H|H]; [|done]. by apply elem_of_nil in H.
Qed.

(** The expand branch, node by node. *)
Lemma setExpandOff_expand g data :
  GraphNode.flag data = true ->
  setExpandOff g data
  = ForceGraph.withNodes
      (map (fun n =>
              if String.eqb (GraphNode.id n) (GraphNode.id data) then expanded n
              else if inb (GraphNode.id n)
                        (expandTargets (ForceGraph.links g) (GraphNode.id data))
                   then revealed n else n)
           (ForceGraph.nodes g)) g.
Proof.
  intros Hflag. unfold setExpandOff. rewrite Hflag.
  rewrite forEachTarget_map by (by intros []).
  unfold findNode. rewrite map_map. f_equal. apply map_ext. intros n.
  destruct (inb _ _); simpl; destruct (String.eqb _ _); by destruct n.
Qed.

(** The collapse branch, node by node. *)
Lemma setExpandOff_collapse g data :
  GraphNode.flag data = false ->
  setExpandOff g data
  = ForceGraph.withNodes
      (map (fun n =>
              if String.eqb (GraphNode.id n) (GraphNode.id data) then collapsed n
              else if inb (GraphNode.id n)
                        (collapseTargets (ForceGraph.links g) (GraphNode.id data))
                   then hidden n else n)
           (ForceGraph.nodes g)) g.
Proof.
  intros Hflag. unfold setExpandOff. rewrite Hflag.
  rewrite forEachTarget_map by (by intros []).
  unfold findNode. rewrite map_map. f_equal. apply map_ext. intros n.
  destruct (inb _ _); simpl; destruct (String.eqb _ _); by destruct n.
Qed.

(** ** The ids collected by the collapse branch *)

Lemma collapseStep_elem_of root linksNodes l x :
  x ∈ collapseStep root linksNodes l
  <-> x ∈ linksNodes
      \/ (x = GraphLink.target l
          /\ (GraphLink.source l = root
              \/ (GraphLink.source l ∈ linksNodes /\ GraphLink.target l <> root))).
Proof.
  unfold collapseStep. rewrite elem_of_push_matching.
  destruct (String.eqb_spec (GraphLink.source l) root) as [Hs|Hs].
  - rewrite elem_of_app, list_elem_of_singleton. split.
    + intros [[H|H]|[H _]]; [by left|right..]; auto.
    + intros [H|[H _]]; left; auto.
  - split.
    + intros [H|[H [n [Hn Hc]]]]; [by left|].
      apply andb_true_iff in Hc as [Hc1 Hc2].
      apply String.eqb_eq in Hc1. apply negb_true_iff, String.eqb_neq in Hc2.
      right. split; [done|]. right. by subst n.
    + intros [H|[H [?|[Hin Hne]]]]; [by left|done|].
      right. split; [done|]. exists (GraphLink.source l). split; [done|].
      apply andb_true_iff. split; [apply String.eqb_refl|].
      by apply negb_true_iff, String.eqb_neq.
Qed.

Lemma collapse_fold_mono root ls acc x :
  x ∈ acc -> x ∈ fold_left (collapseStep root) ls acc.
Proof.
  revert acc. induction ls as [|l ls IH]; intros acc H; simpl; [done|].
  apply IH, collapseStep_elem_of. by left.
Qed.

(** Whatever the order of the links, only reachable ids are collected. *)
Lemma collapse_fold_sound links root ls acc :
  (forall l, l ∈ ls -> l ∈ links) ->
  (forall x, x ∈ acc -> reach links root x) ->
  forall x, x ∈ fold_left (collapseStep root) ls acc -> reach links root x.
Proof.
  revert acc. induction ls as [|l ls IH]; intros acc Hsub Hacc x; simpl; [auto|].
  apply IH.
  - intros m Hm. apply Hsub. by right.
  - intros y Hy. apply collapseStep_elem_of in Hy as [Hy|[-> [Hs|[Hin Hne]]]].
    + auto.
    + apply reach_direct; [apply Hsub; left|done].
    + apply reach_chain; [apply Hsub; left|auto|done].
Qed.

Lemma collapseTargets_sound links root x :
  x ∈ collapseTargets links root -> reach links root x.
Proof.
  apply collapse_fold_sound; [auto|]. intros y Hy. by apply elem_of_nil in Hy.
Qed.

(** A link leaving [root] always contributes its target. *)
Lemma collapse_fold_direct root ls acc l :
  l ∈ ls -> GraphLink.source l = root ->
  GraphLink.target l ∈ fold_left (collapseStep root) ls acc.
Proof.
  intros Hl Hs. apply list_elem_of_split in Hl as [pre [post ->]].
  rewrite fold_left_app. simpl. apply collapse_fold_mono, collapseStep_elem_of.
  right. split; [done|by left].
Qed.

(** A link contributes its target when its source was collected before the
    pass reaches it. *)
Lemma collapse_fold_chain root pre l post acc :
  GraphLink.source l ∈ fold_left (collapseStep root) pre acc ->
  GraphLink.target l <> root ->
  GraphLink.target l ∈ fold_left (collapseStep root) (pre ++ l :: post) acc.
Proof.
  intros Hs Hne. rewrite fold_left_app. simpl.
  apply collapse_fold_mono, collapseStep_elem_of.
  right. split; [done|by right].
Qed.

(** With the links in forward order, a reachable id has been collected by
    the time the pass reaches any link that leaves it. *)
Lemma collapse_collected_before links root :
  forwardOrdered links ->
  forall x, reach links root x ->
  forall pre l post,
    links = pre ++ l :: post -> GraphLink.source l = x ->
    x ∈ fold_left (collapseStep root) pre [].
Proof.
  intros Hord x Hx. induction Hx as [l0 Hl0 Hs0|l0 Hl0 Hreach IH Hne];
    intros pre l post Hsplit Hsrc.
  - assert (l0 ∈ pre) as Hpre by (eapply Hord; eauto).
    by apply collapse_fold_direct.
  - assert (l0 ∈ pre) as Hpre by (eapply Hord; eauto).
    apply list_elem_of_split in Hpre as [pre0 [post0 ->]].
    apply collapse_fold_chain; [|done].
    apply (IH pre0 l0 (post0 ++ l :: post)); [|done].
    by rewrite Hsplit, <- app_assoc.
Qed.

Lemma collapseTargets_complete links root x :
  forwardOrdered links -> reach links root x -> x ∈ collapseTargets links root.
Proof.
  intros Hord Hx. unfold collapseTargets. destruct Hx as [l Hl Hs|l Hl Hreach Hne].
  - by apply collapse_fold_direct.
  - apply list_elem_of_split in Hl as [pre [post Hsplit]]. rewrite Hsplit.
    apply collapse_fold_chain; [|done].
    by eapply collapse_collected_before.
Qed.

Lemma chainGraph_forwardOrdered :
  forwardOrdered (ForceGraph.links Sample.chainGraph).
Proof.
  intros pre l post l' Hsplit Hl' Htgt. simpl in *.
  destruct pre as [|p0 [|p1 pre]].
  - simpl in Hsplit. injection Hsplit as <- _.
    repeat (apply elem_of_cons in Hl' as [->|Hl']); try discriminate.
    by apply elem_of_nil in Hl'.
  - simpl in Hsplit. injection Hsplit as <- <- _.
    repeat (apply elem_of_cons in Hl' as [->|Hl']); try discriminate.
    + left.
    + by apply elem_of_nil in Hl'.
  - simpl in Hsplit. injection Hsplit as _ _ Hnil. by destruct pre.
Qed.

(** ** Collapse *)

(** A chain that the array lists in order is still listed in order when
    links are appended. *)
Lemma chainReach_app root links more x :
  chainReach root links x -> chainReach root (links ++ more) x.
Proof.
  intros [pre l post Hs|pre l post Hsrc Hne]; rewrite <- app_assoc; simpl.
  - by apply chain_direct.
  - by apply chain_step.
Qed.

(** The one pass over the link array collects exactly the ids that a chain
    listed in order reaches. *)
Lemma collapseTargets_chainReach links root x :
  x ∈ collapseTargets links root <-> chainReach root links x.
Proof.
  unfold collapseTargets. split.
  - revert x. induction links as [|l links IH] using rev_ind; intros x.
    + simpl. intros H. by apply elem_of_nil in H.
    + rewrite fold_left_app. simpl. rewrite collapseStep_elem_of.
      intros [Hx|[-> [Hs|[Hin Hne]]]].
      * by apply chainReach_app, IH.
      * by apply chain_direct.
      * apply chain_step; [by apply IH|done].
  - induction 1 as [pre l post Hs|pre l post Hsrc IH Hne].
    + apply collapse_fold_direct; [|done].
      apply elem_of_app. right. left.
    + by apply collapse_fold_chain.
Qed.

(** A chain listed in order is a chain: the ids it reaches are reachable. *)
Lemma chainReach_reach root links x :
  chainReach root links x -> reach links root x.
Proof.
  intros H. by apply collapseTargets_sound, collapseTargets_chainReach.
Qed.

(** C1, as the code has it.  Toggling a node whose flag is false leaves the
    links alone, puts the toggled node in the state [ignore=true, flag=true,
    category=1], sets [ignore=true, flag=true] on every other node whose id
    is reached from the toggled node by a chain of links that the link
    array lists in the order of the chain (links after the first not
    pointing back at the toggled node), and changes no other node.  Every
    id so reached is reachable along the links; an id that only chains out
    of array order reach is left as it was. *)
Theorem collapse_hides_chain g data :
  GraphNode.flag data = false ->
  ForceGraph.links (setExpandOff g data) = ForceGraph.links g
  /\ (forall x,
        chainReach (GraphNode.id data) (ForceGraph.links g) x ->
        reach (ForceGraph.links g) (GraphNode.id data) x)
  /\ forall i n,
       ForceGraph.nodes g !! i = Some n ->
       exists n',
         ForceGraph.nodes (setExpandOff g data) !! i = Some n'
         /\ (GraphNode.id n = GraphNode.id data -> n' = collapsed n)
         /\ (GraphNode.id n <> GraphNode.id data ->
             chainReach (GraphNode.id data) (ForceGraph.links g) (GraphNode.id n) ->
             n' = hidden n)
         /\ (GraphNode.id n <> GraphNode.id data ->
             ~ chainReach (GraphNode.id data) (ForceGraph.links g) (GraphNode.id n) ->
             n' = n).
Proof.
  intros Hflag. rewrite setExpandOff_collapse by done. split; [done|].
  split; [intros x; apply chainReach_reach|].
  intros i n Hn. simpl. rewrite lookup_map, Hn. simpl. eexists. split; [done|].
  destruct (String.eqb_spec (GraphNode.id n) (GraphNode.id data)) as [Heq|Hne].
  - split; [done|]. split; intros; contradiction.
  - split; [intros; contradiction|].
    destruct (inb _ _) eqn:Hin.
    + apply inb_elem_of, collapseTargets_chainReach in Hin. split; [done|].
      intros _ Hnot. by destruct Hnot.
    + apply inb_not_elem_of in Hin. rewrite collapseTargets_chainReach in Hin.
      split; [|done]. intros _ Hreach. by destruct Hin.
Qed.

Lemma collapse_hides_chain_witness :
  GraphNode.flag (Sample.node "a" false false 0) = false
  /\ ForceGraph.nodes (setExpandOff Sample.cycleGraph (Sample.node "a" false false 0))
     = [Sample.node "a" true true 1; Sample.node "b" true true 0;
        Sample.node "c" true true 0]
  /\ forall i n,
       ForceGraph.nodes Sample.cycleGraph !! i = Some n ->
       exists n',
         ForceGraph.nodes
           (setExpandOff Sample.cycleGraph (Sample.node "a" false false 0)) !! i
         = Some n'
         /\ (GraphNode.id n = "a" -> n' = collapsed n)
         /\ (GraphNode.id n <> "a" ->
             chainReach "a" (ForceGraph.links Sample.cycleGraph) (GraphNode.id n) ->
             n' = hidden n)
         /\ (GraphNode.id n <> "a" ->
             ~ chainReach "a" (ForceGraph.links Sample.cycleGraph) (GraphNode.id n) ->
             n' = n).
Proof.
  split; [reflexivity|]. split; [reflexivity|].
  apply (collapse_hides_chain Sample.cycleGraph (Sample.node "a" false false 0)).
  reflexivity.
Defined.

(** X20.  When the links are listed in forward order (every link into an id
    before every link out of it), toggling a node whose flag is false
    leaves the links alone, puts the toggled node in the state
    [ignore=true, flag=true, category=1], sets [ignore=true, flag=true] on
    every other node whose id is reachable from it along the links, and
    changes no other node. *)
Theorem collapse_hides_reachable g data :
  GraphNode.flag data = false ->
  forwardOrdered (ForceGraph.links g) ->
  ForceGraph.links (setExpandOff g data) = ForceGraph.links g
  /\ forall i n,
       ForceGraph.nodes g !! i = Some n ->
       exists n',
         ForceGraph.nodes (setExpandOff g data) !! i = Some n'
         /\ (GraphNode.id n = GraphNode.id data -> n' = collapsed n)
         /\ (GraphNode.id n <> GraphNode.id data ->
             reach (ForceGraph.links g) (GraphNode.id data) (GraphNode.id n) ->
             n' = hidden n)
         /\ (GraphNode.id n <> GraphNode.id data ->
             ~ reach (ForceGraph.links g) (GraphNode.id data) (GraphNode.id n) ->
             n' = n).
Proof.
  intros Hflag Hord. rewrite setExpandOff_collapse by done. split; [done|].
  intros i n Hn. simpl. rewrite lookup_map, Hn. simpl. eexists. split; [done|].
  destruct (String.eqb_spec (GraphNode.id n) (GraphNode.id data)) as [Heq|Hne].
  - split; [done|]. split; intros; contradiction.
  - split; [intros; contradiction|].
    destruct (inb _ _) eqn:Hin.
    + apply inb_elem_of in Hin. split; [done|].
      intros _ Hnot. destruct Hnot. by apply collapseTargets_sound.
    + apply inb_not_elem_of in Hin. split; [|done].
      intros _ Hreach. destruct Hin. by apply collapseTargets_complete.
Qed.

Lemma collapse_hides_reachable_witness :
  GraphNode.flag (Sample.node "a" false false 0) = false
  /\ ForceGraph.nodes (setExpandOff Sample.chainGraph (Sample.node "a" false false 0))
     = [Sample.node "a" true true 1; Sample.node "b" true true 0;
        Sample.node "c" true true 0]
  /\ forall i n,
       ForceGraph.nodes Sample.chainGraph !! i = Some n ->
       exists n',
         ForceGraph.nodes
           (setExpandOff Sample.chainGraph (Sample.node "a" false false 0)) !! i
         = Some n'
         /\ (GraphNode.id n = "a" -> n' = collapsed n)
         /\ (GraphNode.id n <> "a" ->
             reach (ForceGraph.links Sample.chainGraph) "a" (GraphNode.id n) ->
             n' = hidden n)
         /\ (GraphNode.id n <> "a" ->
             ~ reach (ForceGraph.links Sample.chainGraph) "a" (GraphNode.id n) ->
             n' = n).
Proof.
  split; [reflexivity|]. split; [reflexivity|].
  apply (collapse_hides_reachable Sample.chainGraph (Sample.node "a" false false 0)).
  - reflexivity.
  - apply chainGraph_forwardOrdered.
Defined.

(** C1 as stated fails: in [b -> c; a -> b] the id [c] is reachable from
    [a], and collapsing [a] leaves the node [c] visible. *)
Lemma collapse_reversed_counterexample :
  GraphNode.flag (Sample.node "a" false false 0) = false
  /\ reach (ForceGraph.links Sample.reversedGraph) "a" "c"
  /\ ForceGraph.nodes
       (setExpandOff Sample.reversedGraph (Sample.node "a" false false 0))
     = [Sample.node "a" true true 1; Sample.node "b" true true 0;
        Sample.node "c" false false 0].
Proof.
  split; [reflexivity|]. split; [|reflexivity].
  apply (reach_chain _ _ (Sample.link "b" "c")).
  - left.
  - apply (reach_direct _ _ (Sample.link "a" "b")); [right; left|reflexivity].
  - discriminate.
Qed.

(** ** Expand *)

(** C2, as the code has it.  Toggling a node whose flag is true leaves the
    links alone, puts the toggled node in the state [ignore=false,
    flag=false, category=0], sets [ignore=false, flag=true] on every other
    node whose id is the target of a link leaving the toggled node, and
    changes no other node. *)
Theorem expand_reveals_children g data :
  GraphNode.flag data = true ->
  ForceGraph.links (setExpandOff g data) = ForceGraph.links g
  /\ forall i n,
       ForceGraph.nodes g !! i = Some n ->
       exists n',
         ForceGraph.nodes (setExpandOff g data) !! i = Some n'
         /\ (GraphNode.id n = GraphNode.id data -> n' = expanded n)
         /\ (GraphNode.id n <> GraphNode.id data ->
             (exists l, l ∈ ForceGraph.links g
                        /\ GraphLink.source l = GraphNode.id data
                        /\ GraphLink.target l = GraphNode.id n) ->
             n' = revealed n)
         /\ (GraphNode.id n <> GraphNode.id data ->
             ~ (exists l, l ∈ ForceGraph.links g
                          /\ GraphLink.source l = GraphNode.id data
                          /\ GraphLink.target l = GraphNode.id n) ->
             n' = n).
Proof.
  intros Hflag. rewrite setExpandOff_expand by done. split; [done|].
  intros i n Hn. simpl. rewrite lookup_map, Hn. simpl. eexists. split; [done|].
  destruct (String.eqb_spec (GraphNode.id n) (GraphNode.id data)) as [Heq|Hne].
  - split; [done|]. split; intros; contradiction.
  - split; [intros; contradiction|].
    destruct (inb _ _) eqn:Hin.
    + apply inb_elem_of, expandTargets_elem_of in Hin. split; [done|].
      intros _ Hnot. by destruct Hnot.
    + apply inb_not_elem_of in Hin. split; [|done].
      intros _ Hl. destruct Hin. by apply expandTargets_elem_of.
Qed.

Lemma expand_reveals_children_witness :
  GraphNode.flag (Sample.node "a" false true 1) = true
  /\ ForceGraph.nodes (setExpandOff Sample.chainGraph (Sample.node "a" false true 1))
     = [Sample.node "a" false false 0; Sample.node "b" false true 0;
        Sample.node "c" false false 0]
  /\ ForceGraph.links (setExpandOff Sample.chainGraph (Sample.node "a" false true 1))
     = ForceGraph.links Sample.chainGraph.
Proof.
  split; [reflexivity|]. split; [reflexivity|].
  apply (expand_reveals_children Sample.chainGraph (Sample.node "a" false true 1)).
  reflexivity.
Defined.

(** C2 as stated fails on a node that links to itself: the node is the
    target of a link leaving the toggled node, and ends with [flag=false]. *)
Lemma expand_self_link_counterexample :
  GraphNode.flag (Sample.node "a" true true 1) = true
  /\ Sample.link "a" "a" ∈ ForceGraph.links Sample.selfLinkGraph
  /\ ForceGraph.nodes
       (setExpandOff Sample.selfLinkGraph (Sample.node "a" true true 1))
     = [Sample.node "a" false false 0]
  /\ ~ (forall n',
          n' ∈ ForceGraph.nodes
                 (setExpandOff Sample.selfLinkGraph (Sample.node "a" true true 1)) ->
          (exists l, l ∈ ForceGraph.links Sample.selfLinkGraph
                     /\ GraphLink.source l = "a"
                     /\ GraphLink.target l = GraphNode.id n') ->
          GraphNode.ignore n' = false /\ GraphNode.flag n' = true).
Proof.
  split; [reflexivity|]. split; [left|]. split; [reflexivity|].
  intros H. specialize (H (Sample.node "a" false false 0)).
  destruct H as [_ H]; [left| |discriminate].
  exists (Sample.link "a" "a"). split; [left|]. by split.
Qed.

(** ** Toggling a node without outgoing links *)

(** C8, as the code has it.  When no link leaves the toggled node, the
    toggle changes neither a link nor any node with another id; the
    toggled node itself still takes the expanded state (flag was true) or
    the collapsed state (flag was false). *)
Theorem toggle_without_links g data :
  (forall l, l ∈ ForceGraph.links g -> GraphLink.source l <> GraphNode.id data) ->
  ForceGraph.links (setExpandOff g data) = ForceGraph.links g
  /\ ForceGraph.index (setExpandOff g data) = ForceGraph.index g
  /\ forall i n,
       ForceGraph.nodes g !! i = Some n ->
       ForceGraph.nodes (setExpandOff g data) !! i
       = Some (if String.eqb (GraphNode.id n) (GraphNode.id data)
               then (if GraphNode.flag data then expanded n else collapsed n)
               else n).
Proof.
  intros Hleaf. destruct (GraphNode.flag data) eqn:Hflag.
  - rewrite setExpandOff_expand by done. do 2 (split; [done|]).
    intros i n Hn. simpl. rewrite lookup_map, Hn. simpl.
    destruct (String.eqb _ _); [done|].
    destruct (inb _ _) eqn:Hin; [|done].
    apply inb_elem_of, expandTargets_elem_of in Hin as [l [Hl [Hs _]]].
    by destruct (Hleaf l Hl).
  - rewrite setExpandOff_collapse by done. do 2 (split; [done|]).
    intros i n Hn. simpl. rewrite lookup_map, Hn. simpl.
    destruct (String.eqb _ _); [done|].
    destruct (inb _ _) eqn:Hin; [|done].
    apply inb_elem_of, collapseTargets_sound in Hin.
    assert (forall x, reach (ForceGraph.links g) (GraphNode.id data) x -> False)
      as Hnone.
    { intros x Hx. induction Hx as [l Hl Hs|l Hl _ IH _]; [|done].
      by destruct (Hleaf l Hl). }
    by destruct (Hnone _ Hin).
Qed.

Lemma leafGraph_no_links l :
  l ∈ ForceGraph.links Sample.leafGraph -> GraphLink.source l <> "a".
Proof.
  intros Hl. simpl in Hl. apply elem_of_cons in Hl as [->|Hl]; [discriminate|].
  by apply elem_of_nil in Hl.
Qed.

Lemma toggle_without_links_witness :
  ForceGraph.links (setExpandOff Sample.leafGraph (Sample.node "a" true true 1))
  = ForceGraph.links Sample.leafGraph
  /\ ForceGraph.index (setExpandOff Sample.leafGraph (Sample.node "a" true true 1))
     = ForceGraph.index Sample.leafGraph
  /\ forall i n,
       ForceGraph.nodes Sample.leafGraph !! i = Some n ->
       ForceGraph.nodes
         (setExpandOff Sample.leafGraph (Sample.node "a" true true 1)) !! i
       = Some (if String.eqb (GraphNode.id n) "a" then expanded n else n).
Proof.
  apply (toggle_without_links Sample.leafGraph (Sample.node "a" true true 1)).
  apply leafGraph_no_links.
Defined.

(** C8 as stated fails: the collapsed leaf [a] has no outgoing link, and
    toggling it changes the graph (the leaf becomes expanded). *)
Lemma toggle_leaf_counterexample :
  (forall l, l ∈ ForceGraph.links Sample.leafGraph -> GraphLink.source l <> "a")
  /\ ForceGraph.nodes (setExpandOff Sample.leafGraph (Sample.node "a" true true 1))
     = [Sample.node "a" false false 0; Sample.node "b" false false 0]
  /\ setExpandOff Sample.leafGraph (Sample.node "a" true true 1) <> Sample.leafGraph.
Proof.
  split; [apply leafGraph_no_links|]. split; [reflexivity|discriminate].
Qed.

(** * The memoizing accessor *)

Section SerializeNodeFacts.
Context {Snapshot : Type}.
Variable analysisSerialize : Snapshot -> Z -> Z -> NodeDetail.t.
Variable jsHeapSnapShot : Snapshot.
Variable limit : Z.

Abbreviation accessor := (serializeNode analysisSerialize jsHeapSnapShot limit).
Abbreviation run := (serializeAll analysisSerialize jsHeapSnapShot limit).

Lemma serializeNode_keeps index st i v :
  NodeCache.cache st !! i = Some v ->
  NodeCache.cache (snd (accessor index st)) !! i = Some v.
Proof.
  intros Hi. unfold serializeNode.
  destruct (NodeCache.cache st !! index) eqn:Hc; simpl; [done|].
  rewrite lookup_insert_ne; [done|]. intros ->. congruence.
Qed.

Lemma serializeAll_keeps indices st i v :
  NodeCache.cache st !! i = Some v ->
  NodeCache.cache (run indices st) !! i = Some v.
Proof.
  revert st. induction indices as [|j indices IH]; intros st Hi; simpl; [done|].
  by apply IH, serializeNode_keeps.
Qed.

Lemma serializeAll_fresh indices st i :
  NodeCache.cache st !! i = None -> i ∉ indices ->
  NodeCache.cache (run indices st) !! i = None.
Proof.
  revert st. induction indices as [|j indices IH]; intros st Hi Hnot; simpl; [done|].
  apply not_elem_of_cons in Hnot as [Hne Hnot]. apply IH; [|done].
  unfold serializeNode. destruct (NodeCache.cache st !! j); simpl; [done|].
  by rewrite lookup_insert_ne.
Qed.

(** A hit returns the stored value and leaves the closure state alone. *)
Lemma serializeNode_hit index st v :
  NodeCache.cache st !! index = Some v -> accessor index st = (v, st).
Proof. intros H. unfold serializeNode. by rewrite H. Qed.

(** Every stored value is the primitive's value at its index ... *)
Lemma serializeAll_sound indices i v :
  NodeCache.cache (run indices NodeCache.empty) !! i = Some v ->
  v = analysisSerialize jsHeapSnapShot i limit.
Proof.
  assert (forall st,
    (forall i v, NodeCache.cache st !! i = Some v ->
                 v = analysisSerialize jsHeapSnapShot i limit) ->
    forall i v, NodeCache.cache (run indices st) !! i = Some v ->
                v = analysisSerialize jsHeapSnapShot i limit) as Hgen.
  { induction indices as [|j indices IH]; intros st Hst; simpl; [done|].
    apply IH. intros k w. unfold serializeNode.
    destruct (NodeCache.cache st !! j) eqn:Hj; simpl; [apply Hst|].
    destruct (decide (j = k)) as [->|Hne].
    - rewrite lookup_insert_eq. congruence.
    - rewrite lookup_insert_ne by done. apply Hst. }
  apply Hgen. intros k w. simpl. by rewrite lookup_empty.
Qed.

(** ... so the accessor computes the same function as the primitive,
    whatever was asked of it before. *)
Lemma serializeNode_value indices index :
  fst (accessor index (run indices NodeCache.empty))
  = analysisSerialize jsHeapSnapShot index limit.
Proof.
  unfold serializeNode.
  destruct (NodeCache.cache (run indices NodeCache.empty) !! index) eqn:Hc; simpl;
    [|done].
  by apply serializeAll_sound in Hc.
Qed.

(** C7.  In an accessor returned by [serializeNode], the first call for
    an index invokes the primitive (it is logged) and stores its result;
    a later call for that index, whatever was asked in between, returns
    the stored value and invokes nothing: the closure state, log
    included, is the same after the call as before it. *)
Theorem serializeNode_memoizes (before between : list Z) (index : Z) :
  index ∉ before ->
  let st := run before NodeCache.empty in
  let first := accessor index st in
  let st2 := run between (snd first) in
  let second := accessor index st2 in
  fst first = analysisSerialize jsHeapSnapShot index limit
  /\ NodeCache.calls (snd first) = NodeCache.calls st ++ [index]
  /\ NodeCache.cache (snd first) !! index = Some (fst first)
  /\ fst second = fst first
  /\ snd second = st2.
Proof.
  intros Hfresh st first st2 second.
  assert (NodeCache.cache st !! index = None) as Hnone
    by (by apply serializeAll_fresh).
  assert (first = (analysisSerialize jsHeapSnapShot index limit,
                   NodeCache.mk
                     (<[index := analysisSerialize jsHeapSnapShot index limit]>
                        (NodeCache.cache st))
                     (NodeCache.calls st ++ [index]))) as Hfirst.
  { unfold first, serializeNode. by rewrite Hnone. }
  assert (NodeCache.cache st2 !! index = Some (fst first)) as Hstored.
  { apply serializeAll_keeps. rewrite Hfirst. simpl. apply lookup_insert_eq. }
  unfold second. rewrite (serializeNode_hit _ _ _ Hstored).
  rewrite Hfirst. simpl. by rewrite lookup_insert_eq.
Qed.
End SerializeNodeFacts.

Lemma serializeNode_memoizes_witness :
  let prim := fun (_ : unit) (index _ : Z) => Sample.chain 100 50 1 index in
  let first := serializeNode prim tt 10 6 (serializeAll prim tt 10 [5] NodeCache.empty) in
  let st2 := serializeAll prim tt 10 [7; 5] (snd first) in
  let second := serializeNode prim tt 10 6 st2 in
  (6 ∉ [5])
  /\ fst second = fst first
  /\ snd second = st2
  /\ NodeCache.calls st2 = [5; 6; 7].
Proof.
  intros prim first st2 second.
  assert (6 ∉ [5]) as Hfresh.
  { intros H. apply elem_of_cons in H as [H|H]; [discriminate|].
    by apply elem_of_nil in H. }
  split; [done|].
  destruct (serializeNode_memoizes prim tt 10 [5] [7; 5] 6 Hfresh)
    as (_ & _ & _ & Hsame & Hstate).
  split; [exact Hsame|]. split; [exact Hstate|]. reflexivity.
Defined.

(** * The search list *)

(** C9.  The [searchList] of the memory result is the root index followed
    by the indices of the leak points, in their given order. *)
Theorem searchList_root_then_leaks
    (Snapshot Statistics Aggregates : Type)
    (analysisSerialize : Snapshot -> Z -> Z -> NodeDetail.t)
    (statisticsOf : Snapshot -> Statistics) (allObjectsOf : Snapshot -> Aggregates)
    (config : Config.t) (memAnalytics : MemAnalytics Snapshot) :
  searchList
    (analyticsMem analysisSerialize statisticsOf allObjectsOf config memAnalytics)
  = ma_rootIndex memAnalytics
    :: map LeakPoint.index (ma_leakPoint memAnalytics).
Proof.
  unfold analyticsMem, memCalculator.
  destruct (createForceGraph _ _ _ _) as [heapUsed' forceGraph']. reflexivity.
Qed.

(** * The graph builder *)

Lemma fold_left_invariant {A B : Type} (P : A -> Prop) (f : A -> B -> A) l a :
  P a -> (forall a x, x ∈ l -> P a -> P (f a x)) -> P (fold_left f l a).
Proof.
  revert a. induction l as [|x l IH]; intros a Ha Hstep; simpl; [done|].
  apply IH.
  - apply Hstep; [left|done].
  - intros b y Hy. apply Hstep. by right.
Qed.

(** A toggle rewrites the visibility fields of the nodes in place and
    nothing else. *)
Lemma setExpandOff_shape g data :
  exists f,
    ForceGraph.nodes (setExpandOff g data) = map f (ForceGraph.nodes g)
    /\ (forall n, sameIdentity n (f n))
    /\ ForceGraph.links (setExpandOff g data) = ForceGraph.links g.
Proof.
  destruct (GraphNode.flag data) eqn:Hflag.
  - rewrite setExpandOff_expand by done. eexists. split; [reflexivity|].
    split; [|done]. intros n. destruct (String.eqb _ _); [by repeat split|].
    destruct (inb _ _); by repeat split.
  - rewrite setExpandOff_collapse by done. eexists. split; [reflexivity|].
    split; [|done]. intros n. destruct (String.eqb _ _); [by repeat split|].
    destruct (inb _ _); by repeat split.
Qed.

Lemma sameIdentity_trans n1 n2 n3 :
  sameIdentity n1 n2 -> sameIdentity n2 n3 -> sameIdentity n1 n3.
Proof.
  unfold sameIdentity. intros (?&?&?&?&?&?&?) (?&?&?&?&?&?&?).
  repeat split; congruence.
Qed.

Section BuilderFacts.
Variable config : Config.t.
Variable serialize : Z -> NodeDetail.t.

Lemma preExpand_shape biggestList g :
  exists f,
    ForceGraph.nodes (preExpand biggestList g) = map f (ForceGraph.nodes g)
    /\ (forall n, sameIdentity n (f n))
    /\ ForceGraph.links (preExpand biggestList g) = ForceGraph.links g.
Proof.
  unfold preExpand. generalize (objectKeys biggestList) as keys. intros keys.
  revert g. induction keys as [|k keys IH]; intros g; simpl.
  - exists (fun n => n). split; [by rewrite map_id|]. split; [|done].
    intros n. by repeat split.
  - destruct (catchNode (ForceGraph.nodes g) k) as [data|]; [|apply IH].
    destruct (setExpandOff_shape g data) as (f1 & Hn1 & Hid1 & Hl1).
    destruct (IH (setExpandOff g data)) as (f2 & Hn2 & Hid2 & Hl2).
    exists (fun n => f2 (f1 n)). split; [by rewrite Hn2, Hn1, map_map|].
    split; [|congruence].
    intros n. eapply sameIdentity_trans; [apply Hid1|apply Hid2].
Qed.

(** The finished graph has the nodes of the traversal, in the same
    order and with the same identity, and exactly its links. *)
Lemma leakGraph_shape leak :
  exists f,
    ForceGraph.nodes (leakGraph config serialize leak)
    = map f (Traversal.nodes (traverse config serialize leak))
    /\ (forall n, GraphNode.index (f n) = GraphNode.index n
                  /\ GraphNode.name (f n) = GraphNode.name n
                  /\ GraphNode.id (f n) = GraphNode.id n
                  /\ GraphNode.label (f n) = Some (GraphNode.name n))
    /\ ForceGraph.links (leakGraph config serialize leak)
       = Traversal.links (traverse config serialize leak).
Proof.
  unfold leakGraph.
  destruct (preExpand_shape
              (Traversal.biggestList (traverse config serialize leak))
              (ForceGraph.mk (Traversal.nodes (traverse config serialize leak))
                 (Traversal.links (traverse config serialize leak)) None))
    as (f & Hn & Hid & Hl).
  exists (fun n => GraphNode.setAliases (f n)). simpl.
  split; [by rewrite Hn, map_map|]. split; [|done].
  intros n. destruct (Hid n) as (?&?&?&_). simpl. repeat split; congruence.
Qed.

(** Every graph of the returned table is the finished graph of one of
    the leak points. *)
Lemma createForceGraph_graphs heapUsed leakPoint key g :
  snd (createForceGraph config serialize heapUsed leakPoint) !! key = Some g ->
  exists leak, leak ∈ leakPoint /\ g = leakGraph config serialize leak.
Proof.
  unfold createForceGraph.
  apply (fold_left_invariant
           (fun acc : gmap Z NodeDetail.t * gmap string ForceGraph.t =>
              snd acc !! key = Some g ->
              exists leak, leak ∈ leakPoint /\ g = leakGraph config serialize leak)).
  - simpl. by rewrite lookup_empty.
  - intros [h m] leak Hleak IH. simpl in *.
    destruct (decide (leakKey serialize leak = key)) as [<-|Hne].
    + rewrite lookup_insert_eq. intros [= <-]. by exists leak.
    + by rewrite lookup_insert_ne.
Qed.

(** Induction over the loop of one leak point: a property of the
    traversal state that survives the reset of [tmpIndexArr], the push of
    a parent node whose id is not yet recorded, and the processing of a
    retained child, holds when the loop ends. *)
Lemma whileLoop_invariant (P : Traversal.t -> Prop) leak rootDistance :
  (forall st, P st ->
     P (Traversal.mk (Traversal.nodes st) (Traversal.links st)
          (Traversal.biggestList st) (Traversal.isRecorded st) [])) ->
  (forall st index, P st ->
     isRecordedGet (Traversal.isRecorded st)
       (NodeDetail.id (serialize index)) = false ->
     P (Traversal.mk
          (Traversal.nodes st ++ [parentNode leak (serialize index)])
          (Traversal.links st) (Traversal.biggestList st)
          ({[NodeDetail.id (serialize index)]} ∪ Traversal.isRecorded st)
          (Traversal.tmpIndexArr st))) ->
  (forall distanceDisplay index st child,
     child ∈ retainedChildren serialize (serialize index) -> P st ->
     P (childStep config serialize rootDistance distanceDisplay
          (serialize index) st child)) ->
  forall fuel distanceDisplay leakIndexList st,
    P st ->
    P (whileLoop config serialize fuel leak rootDistance distanceDisplay
         leakIndexList st).
Proof.
  intros Hreset Hparent Hchild.
  induction fuel as [|fuel IH]; intros dd frontier st Hst; simpl; [done|].
  destruct (_ && _); [|done]. apply IH. unfold hopStep.
  apply fold_left_invariant; [by apply Hreset|].
  intros st1 index _ Hst1. unfold parentStep.
  destruct (isRecordedGet _ _) eqn:Hrec; [done|].
  apply fold_left_invariant; [by apply Hparent|].
  intros st2 child Hchild2 Hst2. by apply Hchild.
Qed.

(** The bound [hops] on the iterations of the loop is never the reason
    why it stops: more fuel gives the same state. *)
Lemma whileLoop_fuel leak rootDistance fuel extra distanceDisplay leakIndexList st :
  (Z.to_nat (Config.distance_limit config + 1 - distanceDisplay) <= fuel)%nat ->
  whileLoop config serialize (fuel + extra) leak rootDistance distanceDisplay
    leakIndexList st
  = whileLoop config serialize fuel leak rootDistance distanceDisplay
      leakIndexList st.
Proof.
  revert distanceDisplay leakIndexList st.
  induction fuel as [|fuel IH]; intros dd frontier st Hfuel.
  - destruct extra as [|extra]; simpl; [done|].
    replace (dd <=? Config.distance_limit config) with false
      by (symmetry; apply Z.leb_gt; lia).
    by rewrite andb_false_r.
  - simpl. destruct (_ && _); [|done]. apply IH. lia.
Qed.

Lemma traverse_fuel leak extra :
  whileLoop config serialize (hops config + extra) leak
    (NodeDetail.distance (serialize (LeakPoint.index leak))) 1
    [LeakPoint.index leak]
    (Traversal.mk [] []
       [(LeakPoint.index leak,
         Biggest.mk (NodeDetail.id (serialize (LeakPoint.index leak)))
           None None None
           (NodeDetail.retainedSize (serialize (LeakPoint.index leak))))]
       ∅ [])
  = traverse config serialize leak.
Proof. unfold traverse. apply whileLoop_fuel. unfold hops. lia. Qed.
End BuilderFacts.

(** ** Invariants of the built graphs *)

Section GraphInvariants.
Variable config : Config.t.
Variable serialize : Z -> NodeDetail.t.

Abbreviation traversal := (traverse config serialize).

Lemma retainedChildren_elem_of nodeDetail child :
  child ∈ retainedChildren serialize nodeDetail ->
  NodeDetail.distance (serialize (Child.index child))
  = 1 + NodeDetail.distance nodeDetail
  /\ child ∈ NodeDetail.children nodeDetail.
Proof. unfold retainedChildren. by rewrite list_elem_of_filter. Qed.

Lemma traverse_links leak l :
  l ∈ Traversal.links (traversal leak) -> retainerLink serialize l.
Proof.
  revert l. unfold traverse.
  apply (whileLoop_invariant config serialize
           (fun st => forall l, l ∈ Traversal.links st -> retainerLink serialize l)).
  - done.
  - done.
  - intros dd index st child Hchild Hst l.
    apply retainedChildren_elem_of in Hchild as [Hdist _].
    assert (retainerLink serialize
              (makeLink (serialize index) (serialize (Child.index child)) child))
      as Hnew.
    { exists index, (Child.index child). simpl. repeat split; lia. }
    unfold childStep.
    destruct (_ =? _); [destruct (isRecordedGet _ _)|]; simpl;
      rewrite ?elem_of_app, ?list_elem_of_singleton;
      try (intros [Hl| ->]); auto.
  - simpl. intros l Hl. by apply elem_of_nil in Hl.
Qed.

Lemma isRecordedGet_false isRecorded id :
  isRecordedGet isRecorded id = false -> id ∉ isRecorded.
Proof.
  unfold isRecordedGet. intros H. apply orb_false_iff in H as [_ H].
  by apply bool_decide_eq_false in H.
Qed.

Lemma NoDup_ids_snoc (nodes : list GraphNode.t) (isRecorded : gset string) n :
  NoDup (map GraphNode.id nodes) ->
  (forall m, m ∈ nodes -> GraphNode.id m ∈ isRecorded) ->
  GraphNode.id n ∉ isRecorded ->
  NoDup (map GraphNode.id (nodes ++ [n]))
  /\ forall m, m ∈ nodes ++ [n] ->
               GraphNode.id m ∈ ({[GraphNode.id n]} ∪ isRecorded : gset string).
Proof.
  intros Hnodup Hrec Hfresh. split.
  - rewrite map_app. apply NoDup_app. split; [done|]. split.
    + intros x Hx Hx'. simpl in Hx'. apply list_elem_of_singleton in Hx'.
      apply elem_of_map in Hx as [m [-> Hm]].
      apply Hfresh. rewrite <- Hx'. by apply Hrec.
    + simpl. apply NoDup_singleton.
  - intros m Hm. apply elem_of_app in Hm as [Hm|Hm].
    + apply elem_of_union_r. by apply Hrec.
    + apply list_elem_of_singleton in Hm as ->. apply elem_of_union_l.
      by apply elem_of_singleton.
Qed.

Lemma traverse_ids leak :
  NoDup (map GraphNode.id (Traversal.nodes (traversal leak))).
Proof.
  unfold traverse.
  apply (whileLoop_invariant config serialize
           (fun st =>
              NoDup (map GraphNode.id (Traversal.nodes st))
              /\ forall m, m ∈ Traversal.nodes st ->
                           GraphNode.id m ∈ Traversal.isRecorded st)).
  - done.
  - intros st index [Hnodup Hrec] Hfresh. simpl.
    apply (NoDup_ids_snoc _ _ (parentNode leak (serialize index))); [done..|].
    by apply isRecordedGet_false.
  - intros dd index st child _ [Hnodup Hrec]. unfold childStep.
    destruct (_ =? _); [destruct (isRecordedGet _ _) eqn:Hfresh|]; simpl;
      [done| |done].
    apply (NoDup_ids_snoc _ _
             (boundaryNode dd (serialize (Child.index child)))); [done..|].
    by apply isRecordedGet_false.
  - simpl. split; [apply NoDup_nil_2|]. intros m Hm. by apply elem_of_nil in Hm.
Qed.

Lemma traverse_names leak n :
  n ∈ Traversal.nodes (traversal leak) -> namedById serialize n.
Proof.
  revert n. unfold traverse.
  apply (whileLoop_invariant config serialize
           (fun st => forall n, n ∈ Traversal.nodes st -> namedById serialize n)).
  - done.
  - intros st index Hst _ n. simpl.
    rewrite elem_of_app, list_elem_of_singleton. intros [Hn| ->]; [auto|].
    split; [done|]. by exists index.
  - intros dd index st child _ Hst n. unfold childStep.
    destruct (_ =? _); [destruct (isRecordedGet _ _)|]; simpl; auto.
    rewrite elem_of_app, list_elem_of_singleton. intros [Hn| ->]; [auto|].
    split; [done|]. by exists (Child.index child).
  - simpl. intros n Hn. by apply elem_of_nil in Hn.
Qed.
End GraphInvariants.

Lemma sample_heap_index i : NodeDetail.index (Sample.heap i) = i.
Proof.
  unfold Sample.heap, Sample.chain.
  destruct (Z.eqb_spec i 5) as [->|_]; [done|].
  by destruct (Z.eqb_spec i 6) as [->|_].
Qed.

Lemma sample_graph_built :
  snd (createForceGraph Sample.config2 Sample.heap ∅ [Sample.leak5]) !! "Leak::@5"
  = Some (leakGraph Sample.config2 Sample.heap Sample.leak5).
Proof. vm_compute. reflexivity. Qed.

(** C3.  Every link of every graph returned by [createForceGraph] joins a
    materialized parent to a materialized child whose distance is the
    parent's plus 1; when the accessor returns at each index the detail of
    that index, these are the details at the link's own [sourceIndex] and
    [targetIndex]. *)
Theorem links_are_retainer_edges config serialize heapUsed leakPoint key g l :
  snd (createForceGraph config serialize heapUsed leakPoint) !! key = Some g ->
  l ∈ ForceGraph.links g ->
  retainerLink serialize l
  /\ ((forall i, NodeDetail.index (serialize i) = i) ->
      NodeDetail.distance (serialize (GraphLink.targetIndex l))
      = NodeDetail.distance (serialize (GraphLink.sourceIndex l)) + 1).
Proof.
  intros Hg Hl. apply createForceGraph_graphs in Hg as (leak & _ & ->).
  destruct (leakGraph_shape config serialize leak) as (f & _ & _ & Hlinks).
  rewrite Hlinks in Hl. apply traverse_links in Hl. split; [done|].
  intros Hindex. destruct Hl as (parent & child & _ & Hsi & _ & Hti & Hdist).
  by rewrite Hsi, Hti, !Hindex.
Qed.

Lemma links_are_retainer_edges_witness :
  GraphLink.mk "@6" "@7" 6 7 "b"
    ∈ ForceGraph.links (leakGraph Sample.config2 Sample.heap Sample.leak5)
  /\ NodeDetail.distance (Sample.heap 7) = NodeDetail.distance (Sample.heap 6) + 1.
Proof.
  assert (GraphLink.mk "@6" "@7" 6 7 "b"
            ∈ ForceGraph.links (leakGraph Sample.config2 Sample.heap Sample.leak5))
    as Hl by (vm_compute; right; left).
  split; [exact Hl|].
  apply (links_are_retainer_edges Sample.config2 Sample.heap ∅ [Sample.leak5]
           "Leak::@5" _ _ sample_graph_built Hl).
  apply sample_heap_index.
Defined.

(** C4.  In every graph returned by [createForceGraph], no two nodes have
    the same id. *)
Theorem node_ids_unique config serialize heapUsed leakPoint key g :
  snd (createForceGraph config serialize heapUsed leakPoint) !! key = Some g ->
  NoDup (map GraphNode.id (ForceGraph.nodes g)).
Proof.
  intros Hg. apply createForceGraph_graphs in Hg as (leak & _ & ->).
  destruct (leakGraph_shape config serialize leak) as (f & Hnodes & Hid & _).
  rewrite Hnodes, map_map.
  rewrite (map_ext _ GraphNode.id) by (intros n; apply Hid).
  apply traverse_ids.
Qed.

Lemma node_ids_unique_witness :
  map GraphNode.id
    (ForceGraph.nodes (leakGraph Sample.config2 Sample.heap Sample.leak5))
  = ["@5"; "@6"; "@7"]
  /\ NoDup (map GraphNode.id
              (ForceGraph.nodes (leakGraph Sample.config2 Sample.heap Sample.leak5))).
Proof.
  split; [vm_compute; reflexivity|].
  apply (node_ids_unique Sample.config2 Sample.heap ∅ [Sample.leak5] "Leak::@5").
  apply sample_graph_built.
Defined.

(** C10.  Every node of every graph returned by [createForceGraph] has as
    its [name] its own [id], which is the id of a materialized detail (not
    that detail's name), and its [label] is that id as well. *)
Theorem node_name_is_id config serialize heapUsed leakPoint key g n :
  snd (createForceGraph config serialize heapUsed leakPoint) !! key = Some g ->
  n ∈ ForceGraph.nodes g ->
  GraphNode.name n = GraphNode.id n
  /\ GraphNode.label n = Some (GraphNode.id n)
  /\ exists index,
       GraphNode.id n = NodeDetail.id (serialize index)
       /\ GraphNode.index n = NodeDetail.index (serialize index).
Proof.
  intros Hg Hn. apply createForceGraph_graphs in Hg as (leak & _ & ->).
  destruct (leakGraph_shape config serialize leak) as (f & Hnodes & Hid & _).
  rewrite Hnodes in Hn. apply elem_of_map in Hn as (m & -> & Hm).
  destruct (Hid m) as (Hi & Hname & Hident & Hlabel).
  apply traverse_names in Hm as [Hnm (index & Hmid & Hmidx)].
  split; [congruence|]. split; [congruence|].
  exists index. split; congruence.
Qed.

Lemma node_name_is_id_witness :
  let n := GraphNode.mk 6 "@6" (Some false) "@6" 30 0 false false
             (Some "@6") (Some 30) in
  n ∈ ForceGraph.nodes (leakGraph Sample.config2 Sample.heap Sample.leak5)
  /\ GraphNode.name n = GraphNode.id n
  /\ GraphNode.label n = Some (GraphNode.id n).
Proof.
  intros n.
  assert (n ∈ ForceGraph.nodes (leakGraph Sample.config2 Sample.heap Sample.leak5))
    as Hn by (vm_compute; right; left).
  split; [exact Hn|].
  destruct (node_name_is_id Sample.config2 Sample.heap ∅ [Sample.leak5]
              "Leak::@5" _ n sample_graph_built Hn) as (Hname & Hlabel & _).
  by split.
Defined.

(** * Binary64 arithmetic of the size test *)

(** ** The mantissa of an integer *)

Lemma pow2_pos_double d : 2 ^ Z.pos d = 2 * 2 ^ (Z.pos d - 1).
Proof.
  replace (Z.pos d) with (Z.succ (Z.pos d - 1)) at 1 by lia.
  apply Z.pow_succ_r. lia.
Qed.

Lemma digits2_pos_bounds p :
  2 ^ (Z.pos (digits2_pos p) - 1) <= Z.pos p < 2 ^ Z.pos (digits2_pos p).
Proof.
  induction p as [p IH|p IH|]; simpl digits2_pos.
  - rewrite (pow2_pos_double (Pos.succ _)).
    replace (Z.pos (Pos.succ (digits2_pos p)) - 1) with (Z.pos (digits2_pos p)) by lia.
    rewrite (pow2_pos_double (digits2_pos p)) in *. lia.
  - rewrite (pow2_pos_double (Pos.succ _)).
    replace (Z.pos (Pos.succ (digits2_pos p)) - 1) with (Z.pos (digits2_pos p)) by lia.
    rewrite (pow2_pos_double (digits2_pos p)) in *. lia.
  - simpl. lia.
Qed.

Lemma digits2_pos_unique p d :
  2 ^ (d - 1) <= Z.pos p < 2 ^ d -> Z.pos (digits2_pos p) = d.
Proof.
  intros [Hlo Hhi]. pose proof (digits2_pos_bounds p) as [Hlo' Hhi'].
  assert (0 < d) as Hd.
  { destruct (Z.lt_ge_cases 0 d) as [?|Hle]; [assumption|].
    assert (2 ^ d <= 2 ^ 0) by (apply Z.pow_le_mono_r; lia). simpl in *. lia. }
  destruct (Z.lt_trichotomy (Z.pos (digits2_pos p)) d) as [Hlt|[?|Hgt]]; [|assumption|].
  - assert (2 ^ Z.pos (digits2_pos p) <= 2 ^ (d - 1)) by (apply Z.pow_le_mono_r; lia). lia.
  - assert (2 ^ d <= 2 ^ (Z.pos (digits2_pos p) - 1)) by (apply Z.pow_le_mono_r; lia). lia.
Qed.

Lemma iter_xO_value m d : Z.pos (Pos.iter xO m d) = Z.pos m * 2 ^ Z.pos d.
Proof.
  revert m. induction d as [|d IH] using Pos.peano_ind; intros m.
  - simpl. lia.
  - rewrite Pos.iter_succ, Pos2Z.inj_succ, Z.pow_succ_r by lia.
    rewrite Pos2Z.inj_xO, IH. lia.
Qed.

Lemma shr_fexp_fits m e l :
  Z.pos (digits2_pos m) = 53 -> -1074 <= e ->
  shr_fexp 53 1024 (Z.pos m) e l = (shr_record_of_loc (Z.pos m) l, e).
Proof.
  intros Hd He. unfold shr_fexp, fexp, emin.
  change (Zdigits2 (Z.pos m)) with (Z.pos (digits2_pos m)). rewrite Hd.
  replace (Z.max (53 + e - 53) (3 - 1024 - 53) - e) with 0 by lia.
  reflexivity.
Qed.

(** A mantissa of 53 bits at an exponent in range is a number as it stands. *)
Lemma binary_round_aux_fits s m e :
  Z.pos (digits2_pos m) = 53 -> -1074 <= e <= 971 ->
  binary_round_aux 53 1024 s (Z.pos m) e loc_Exact = S754_finite s m e.
Proof.
  intros Hd He. unfold binary_round_aux.
  rewrite shr_fexp_fits by lia.
  cbn [shr_record_of_loc shr_m loc_of_shr_record round_nearest_even].
  rewrite shr_fexp_fits by lia. cbn [shr_record_of_loc shr_m].
  replace (e <=? 1024 - 53) with true by (symmetry; apply Z.leb_le; lia).
  reflexivity.
Qed.

Lemma number_normal a :
  0 < a < 2 ^ 53 ->
  exists m n,
    number a = S754_finite false m (- n)
    /\ Z.pos (digits2_pos m) = 53 /\ 0 <= n <= 52 /\ Z.pos m = a * 2 ^ n.
Proof.
  intros [Hpos Hlt]. destruct a as [|p|p]; try lia.
  unfold number, binary_normalize, binary_round.
  pose proof (digits2_pos_bounds p) as [Hlo Hhi].
  assert (Z.pos (digits2_pos p) <= 53) as Hd.
  { destruct (Z.le_gt_cases (Z.pos (digits2_pos p)) 53) as [?|Hgt]; [assumption|].
    assert (2 ^ 53 <= 2 ^ (Z.pos (digits2_pos p) - 1)) by (apply Z.pow_le_mono_r; lia). lia. }
  unfold fexp, emin, shl_align.
  replace (Z.max (Z.pos (digits2_pos p) + 0 - 53) (3 - 1024 - 53)) with (Z.pos (digits2_pos p) - 53) by lia.
  destruct (Z.pos (digits2_pos p) - 53 - 0) as [|k|k] eqn:Hk; try lia.
  - exists p, 0. rewrite binary_round_aux_fits by lia.
    replace (Z.pos (digits2_pos p) - 53) with (- 0) by lia.
    repeat split; lia.
  - exists (Pos.iter xO p k), (Z.pos k).
    assert (Z.pos (digits2_pos (Pos.iter xO p k)) = 53) as Hd'.
    { apply digits2_pos_unique. rewrite iter_xO_value.
      assert (2 ^ (53 - 1) = 2 ^ (Z.pos (digits2_pos p) - 1) * 2 ^ Z.pos k) as ->.
      { rewrite <- Z.pow_add_r by lia. f_equal. lia. }
      assert (2 ^ 53 = 2 ^ Z.pos (digits2_pos p) * 2 ^ Z.pos k) as ->.
      { rewrite <- Z.pow_add_r by lia. f_equal. lia. }
      assert (0 < 2 ^ Z.pos k) by (apply Z.pow_pos_nonneg; lia).
      split; [apply Z.mul_le_mono_nonneg_r; lia|apply Z.mul_lt_mono_pos_r; lia]. }
    rewrite binary_round_aux_fits by lia.
    replace (Z.pos (digits2_pos p) - 53) with (- Z.pos k) by lia.
    repeat split; try lia. apply iter_xO_value.
Qed.

(** ** Rounding a quotient *)

Lemma new_location_locates D R :
  0 < D -> 0 <= R < D -> locates (new_location D R) R D.
Proof.
  intros HD HR. unfold new_location.
  destruct (Z.even D) eqn:Heven.
  - unfold new_location_even. destruct (Z.eqb_spec R 0) as [->|Hne]; [reflexivity|].
    destruct (Z.compare_spec (2 * R) D); cbn [locates]; lia.
  - unfold new_location_odd. destruct (Z.eqb_spec R 0) as [->|Hne]; [reflexivity|].
    assert (Z.odd D = true) as Hodd by (rewrite <- Z.negb_even, Heven; reflexivity).
    apply Z.odd_spec in Hodd as [k Hk].
    destruct (Z.compare_spec (2 * R + 1) D); cbn [locates]; lia.
Qed.

Lemma loc_of_shr_record_of_loc m l :
  loc_of_shr_record (shr_record_of_loc m l) = l.
Proof. destruct l as [|[]]; reflexivity. Qed.

Lemma shr_m_of_loc m l : shr_m (shr_record_of_loc m l) = m.
Proof. destruct l as [|[]]; reflexivity. Qed.

(** Rounding a quotient to the nearest integer, ties to even. *)
Lemma round_nearest_even_spec Q R D Y l :
  Y = Q * D + R -> 0 < D -> 0 <= R < D -> locates l R D ->
  let M := round_nearest_even Q l in
  (M = Q \/ M = Q + 1)
  /\ 2 * Y <= (2 * M + 1) * D
  /\ (2 * Y = (2 * M + 1) * D -> Z.even M = true)
  /\ (M = Q -> M * D <= Y)
  /\ (M = Q + 1 ->
      (2 * M - 1) * D <= 2 * Y /\ (2 * Y = (2 * M - 1) * D -> Z.even M = true)).
Proof.
  intros -> HD HR Hloc M. subst M. destruct l as [|[]]; cbn [locates round_nearest_even] in *.
  - subst R. repeat split; try lia.
  - destruct (Z.even Q) eqn:Heven.
    + repeat split; try lia; auto.
    + assert (Z.even (Q + 1) = true) as Heven'.
      { rewrite Z.even_add, Heven. reflexivity. }
      repeat split; try lia; auto.
  - repeat split; try lia; auto.
  - repeat split; try lia; auto.
Qed.

Lemma renormalize_spec s M e :
  4503599627370496 <= M <= 9007199254740992 -> -1074 <= e <= 900 ->
  exists m t,
    renormalize s M e = S754_finite s m (e + t)
    /\ ((M < 9007199254740992 /\ Z.pos m = M /\ t = 0)
        \/ (M = 9007199254740992 /\ Z.pos m = 4503599627370496 /\ t = 1)).
Proof.
  intros HM He. destruct M as [|p|p]; try lia.
  destruct (Z.eq_dec (Z.pos p) 9007199254740992) as [Heq|Hne].
  - injection Heq as ->. exists 4503599627370496%positive, 1.
    split; [|right; repeat split; reflexivity].
    unfold renormalize, shr_fexp, fexp, emin.
    change (Zdigits2 9007199254740992) with 54.
    replace (Z.max (54 + e - 53) (3 - 1024 - 53) - e) with 1 by lia.
    cbn [shr SpecFloat.iter_pos shr_record_of_loc shr_1 shr_m orb].
    replace (e + 1 <=? 1024 - 53) with true by (symmetry; apply Z.leb_le; lia).
    reflexivity.
  - exists p, 0. split; [|left; repeat split; lia].
    unfold renormalize. rewrite shr_fexp_fits.
    + cbn [shr_record_of_loc shr_m].
      replace (e <=? 1024 - 53) with true by (symmetry; apply Z.leb_le; lia).
      f_equal. lia.
    + apply digits2_pos_unique. change (2 ^ (53 - 1)) with 4503599627370496.
      change (2 ^ 53) with 9007199254740992. lia.
    + lia.
Qed.

Lemma round_tail_spec s Q R D Y l e :
  Y = Q * D + R -> 0 < D -> 0 <= R < D -> locates l R D ->
  4503599627370496 <= Q < 9007199254740992 -> -1074 <= e <= 900 ->
  exists m t,
    renormalize s (round_nearest_even Q l) e = S754_finite s m (e + t)
    /\ 0 <= t <= 1 /\ nearest Y (2 ^ t * D) (Z.pos m).
Proof.
  intros HY HD HR Hloc HQ He.
  destruct (round_nearest_even_spec Q R D Y l HY HD HR Hloc)
    as (HM & Hup & Hupe & Hlo & Hlo').
  set (M := round_nearest_even Q l) in *. clearbody M.
  destruct (renormalize_spec s M e) as (m & t & -> & Hcase); [lia|lia|].
  exists m, t. split; [reflexivity|].
  destruct Hcase as [(Hlt & -> & ->)|(-> & Hm & ->)].
  - split; [lia|]. change (2 ^ 0) with 1. rewrite Z.mul_1_l.
    unfold nearest. split; [lia|]. split; [exact Hup|]. split; [exact Hupe|].
    split.
    + intros HM52. assert (M = Q) as HMQ by lia. specialize (Hlo HMQ). lia.
    + intros HM52. destruct HM as [HMQ|HMQ].
      * specialize (Hlo HMQ). split; lia.
      * apply Hlo', HMQ.
  - split; [lia|]. change (2 ^ 1) with 2. rewrite Hm.
    assert (9007199254740992 = Q + 1) as HMQ by lia.
    destruct (Hlo' HMQ) as [Hlow _].
    unfold nearest. split; [lia|]. split; [lia|]. split; [reflexivity|].
    split; [lia|]. intros Hne. exfalso. apply Hne. reflexivity.
Qed.

(** The rounding of a quotient of 53 or 54 bits. *)
Lemma binary_round_aux_quotient Q R D Y l e :
  Y = Q * D + R -> 0 < D -> 0 <= R < D -> locates l R D ->
  4503599627370496 <= Q < 18014398509481984 -> -1074 <= e <= 800 ->
  exists m t,
    binary_round_aux 53 1024 false Q e l = S754_finite false m (e + t)
    /\ 0 <= t <= 2 /\ nearest Y (2 ^ t * D) (Z.pos m).
Proof.
  intros HY HD HR Hloc HQ He.
  destruct (Z_lt_le_dec Q 9007199254740992) as [Hsmall|Hbig].
  - destruct (round_tail_spec false Q R D Y l e HY HD HR Hloc) as (m & t & Heq & Ht & Hn);
      [lia|lia|].
    exists m, t. split; [|split; [lia|exact Hn]].
    rewrite <- Heq. destruct Q as [|q|q]; try lia.
    unfold binary_round_aux, renormalize. rewrite shr_fexp_fits.
    + rewrite shr_m_of_loc, loc_of_shr_record_of_loc. reflexivity.
    + apply digits2_pos_unique. change (2 ^ (53 - 1)) with 4503599627370496.
      change (2 ^ 53) with 9007199254740992. lia.
    + lia.
  - destruct Q as [|q|q]; try lia.
    assert (Z.pos (digits2_pos q) = 54) as Hd.
    { apply digits2_pos_unique. change (2 ^ (54 - 1)) with 9007199254740992.
      change (2 ^ 54) with 18014398509481984. lia. }
    assert (forall Q' b l',
      Z.pos q = 2 * Q' + b -> 0 <= b <= 1 ->
      shr_1 (shr_record_of_loc (Z.pos q) l) = shr_record_of_loc Q' l' ->
      locates l' (b * D + R) (2 * D) ->
      exists m t,
        binary_round_aux 53 1024 false (Z.pos q) e l = S754_finite false m (e + t)
        /\ 0 <= t <= 2 /\ nearest Y (2 ^ t * D) (Z.pos m)) as Hhalf.
    { intros Q' b l' HQ' Hb Hshr Hloc'.
      destruct (round_tail_spec false Q' (b * D + R) (2 * D) Y l' (e + 1))
        as (m & t & Heq & Ht & Hn); [nia|lia|nia|exact Hloc'|lia|lia|].
      exists m, (1 + t). split; [|split; [lia|]].
      - replace (e + (1 + t)) with (e + 1 + t) by lia. rewrite <- Heq.
        unfold binary_round_aux, renormalize, shr_fexp at 1, fexp, emin.
        change (Zdigits2 (Z.pos q)) with (Z.pos (digits2_pos q)). rewrite Hd.
        replace (Z.max (54 + e - 53) (3 - 1024 - 53) - e) with 1 by lia.
        cbn [shr SpecFloat.iter_pos]. rewrite Hshr.
        rewrite shr_m_of_loc, loc_of_shr_record_of_loc. reflexivity.
      - rewrite Z.pow_add_r by lia. change (2 ^ 1) with 2.
        replace (2 * 2 ^ t * D) with (2 ^ t * (2 * D)) by ring. exact Hn. }
    destruct q as [q'|q'|]; [| |lia].
    + destruct l as [|[]]; cbn [locates] in Hloc.
      * apply (Hhalf (Z.pos q') 1 (loc_Inexact Eq)); [lia|lia|reflexivity|cbn [locates]; lia].
      * apply (Hhalf (Z.pos q') 1 (loc_Inexact Gt)); [lia|lia|reflexivity|cbn [locates]; lia].
      * apply (Hhalf (Z.pos q') 1 (loc_Inexact Gt)); [lia|lia|reflexivity|cbn [locates]; lia].
      * apply (Hhalf (Z.pos q') 1 (loc_Inexact Gt)); [lia|lia|reflexivity|cbn [locates]; lia].
    + destruct l as [|[]]; cbn [locates] in Hloc.
      * apply (Hhalf (Z.pos q') 0 loc_Exact); [lia|lia|reflexivity|cbn [locates]; lia].
      * apply (Hhalf (Z.pos q') 0 (loc_Inexact Lt)); [lia|lia|reflexivity|cbn [locates]; lia].
      * apply (Hhalf (Z.pos q') 0 (loc_Inexact Lt)); [lia|lia|reflexivity|cbn [locates]; lia].
      * apply (Hhalf (Z.pos q') 0 (loc_Inexact Lt)); [lia|lia|reflexivity|cbn [locates]; lia].
Qed.

(** ** Division *)

Lemma digits2_pos_53 m :
  Z.pos (digits2_pos m) = 53 -> 4503599627370496 <= Z.pos m < 9007199254740992.
Proof. intros Hd. pose proof (digits2_pos_bounds m) as H. rewrite Hd in H. exact H. Qed.

Lemma SFdiv_normal m1 n1 m2 n2 :
  Z.pos (digits2_pos m1) = 53 -> Z.pos (digits2_pos m2) = 53 ->
  0 <= n1 <= 52 -> 0 <= n2 <= 52 ->
  exists m t,
    SFdiv 53 1024 (S754_finite false m1 (- n1)) (S754_finite false m2 (- n2))
    = S754_finite false m (n2 - n1 - 53 + t)
    /\ 0 <= t <= 2
    /\ nearest (Z.pos m1 * 9007199254740992) (2 ^ t * Z.pos m2) (Z.pos m).
Proof.
  intros Hd1 Hd2 Hn1 Hn2.
  pose proof (digits2_pos_53 m1 Hd1) as Hm1.
  pose proof (digits2_pos_53 m2 Hd2) as Hm2.
  unfold SFdiv, SFdiv_core_binary, fexp, emin.
  change (Zdigits2 (Z.pos m1)) with (Z.pos (digits2_pos m1)).
  change (Zdigits2 (Z.pos m2)) with (Z.pos (digits2_pos m2)).
  rewrite Hd1, Hd2.
  replace (Z.min (Z.max (53 + - n1 - (53 + - n2) - 53) (3 - 1024 - 53)) (- n1 - - n2))
    with (n2 - n1 - 53) by lia.
  replace (- n1 - - n2 - (n2 - n1 - 53)) with 53 by lia.
  rewrite Z.shiftl_mul_pow2 by lia. change (2 ^ 53) with 9007199254740992.
  pose proof (Z_div_mod (Z.pos m1 * 9007199254740992) (Z.pos m2) eq_refl) as Hdiv.
  destruct (Z.div_eucl (Z.pos m1 * 9007199254740992) (Z.pos m2)) as [Q R].
  destruct Hdiv as [HY HR]. cbn [xorb].
  apply (binary_round_aux_quotient Q R (Z.pos m2)); [lia|lia|lia| |nia|lia].
  apply new_location_locates; lia.
Qed.

Lemma nearest_scale Y X M c :
  nearest Y X M -> 0 < c -> nearest (Y * c) (X * c) M.
Proof.
  intros (HM & Hup & Hupe & Hlo & Hlo') Hc. unfold nearest.
  split; [exact HM|]. split; [nia|]. split; [intros Heq; apply Hupe; nia|].
  split; [intros HM52; specialize (Hlo HM52); nia|].
  intros HM52. destruct (Hlo' HM52) as [Hlow Hlowe].
  split; [nia|]. intros Heq. apply Hlowe. nia.
Qed.

(** The quotient of two positive integers below [2^53], as binary64
    division returns it: a normal number whose mantissa is the nearest to
    the exact quotient. *)
Lemma js_div_normal a b :
  0 < a < 2 ^ 53 -> 0 < b < 2 ^ 53 ->
  exists m E,
    js_div a b = S754_finite false m E /\ -200 <= E
    /\ nearest (a * 2 ^ 200) (2 ^ (E + 200) * b) (Z.pos m).
Proof.
  intros Ha Hb.
  destruct (number_normal a Ha) as (m1 & n1 & Hna & Hd1 & Hn1 & Hm1).
  destruct (number_normal b Hb) as (m2 & n2 & Hnb & Hd2 & Hn2 & Hm2).
  destruct (SFdiv_normal m1 n1 m2 n2 Hd1 Hd2 Hn1 Hn2) as (m & t & Hdiv & Ht & Hn).
  exists m, (n2 - n1 - 53 + t). unfold js_div. rewrite Hna, Hnb.
  split; [exact Hdiv|]. split; [lia|].
  apply (nearest_scale _ _ _ (2 ^ (147 - n1))) in Hn; [|apply Z.pow_pos_nonneg; lia].
  replace (a * 2 ^ 200) with (Z.pos m1 * 9007199254740992 * 2 ^ (147 - n1)).
  - replace (2 ^ (n2 - n1 - 53 + t + 200) * b) with (2 ^ t * Z.pos m2 * 2 ^ (147 - n1));
      [exact Hn|].
    rewrite Hm2.
    replace (n2 - n1 - 53 + t + 200) with (t + n2 + (147 - n1)) by lia.
    rewrite !Z.pow_add_r by lia. ring.
  - rewrite Hm1. change 9007199254740992 with (2 ^ 53).
    replace 200 with (n1 + 53 + (147 - n1)) at 1 by lia.
    rewrite !Z.pow_add_r by lia. ring.
Qed.

(** Rounding is monotone: of two quotients the smaller does not round to the
    larger number. *)
Lemma nearest_same_exponent A1 X1 M1 A2 X2 M2 b1 b2 :
  nearest A1 X1 M1 -> nearest A2 X2 M2 ->
  0 < b1 -> 0 < b2 -> 0 < X1 -> 0 < X2 ->
  A1 * b2 <= A2 * b1 -> X1 * b2 = X2 * b1 ->
  M1 <= M2.
Proof.
  intros (HM1 & _ & _ & _ & Hlo1) (HM2 & Hup2 & Hupe2 & _ & _) Hb1 Hb2 HX1 HX2 HA HX.
  destruct (Z_le_gt_dec M1 M2) as [?|Hgt]; [assumption|exfalso].
  destruct Hlo1 as [Hlow1 Hlowe1]; [lia|].
  set (Z := X1 * b2) in *.
  assert (0 < Z) as HZ by (unfold Z; apply Z.mul_pos_pos; assumption).
  assert ((2 * M1 - 1) * Z <= 2 * A1 * b2) as H1.
  { unfold Z. replace ((2 * M1 - 1) * (X1 * b2)) with ((2 * M1 - 1) * X1 * b2) by ring.
    apply Z.mul_le_mono_nonneg_r; lia. }
  assert (2 * A2 * b1 <= (2 * M2 + 1) * Z) as H2.
  { rewrite HX. replace ((2 * M2 + 1) * (X2 * b1)) with ((2 * M2 + 1) * X2 * b1) by ring.
    apply Z.mul_le_mono_nonneg_r; lia. }
  assert ((2 * M1 - 1) * Z <= (2 * M2 + 1) * Z) as H3 by lia.
  apply Z.mul_le_mono_pos_r in H3; [|exact HZ].
  assert (M1 = M2 + 1) as HM by lia.
  assert (2 * A1 = (2 * M1 - 1) * X1) as He1.
  { apply (Z.mul_reg_r _ _ b2); [lia|].
    replace ((2 * M1 - 1) * X1 * b2) with ((2 * M1 - 1) * Z) by (unfold Z; ring).
    subst M1. replace (2 * (M2 + 1) - 1) with (2 * M2 + 1) in * by lia. lia. }
  assert (2 * A2 = (2 * M2 + 1) * X2) as He2.
  { apply (Z.mul_reg_r _ _ b1); [lia|].
    replace ((2 * M2 + 1) * X2 * b1) with ((2 * M2 + 1) * Z) by (rewrite HX; ring).
    subst M1. replace (2 * (M2 + 1) - 1) with (2 * M2 + 1) in * by lia. lia. }
  specialize (Hlowe1 He1). specialize (Hupe2 He2).
  subst M1. rewrite Z.even_add in Hlowe1. rewrite Hupe2 in Hlowe1. discriminate.
Qed.

Lemma nearest_exponent A1 X1 M1 A2 X2 M2 b1 b2 :
  nearest A1 X1 M1 -> nearest A2 X2 M2 ->
  0 < b1 -> 0 < b2 -> 0 < X1 -> 0 < X2 ->
  A1 * b2 <= A2 * b1 -> 2 * (X2 * b1) <= X1 * b2 ->
  False.
Proof.
  intros (HM1 & _ & _ & Hlo1 & Hlo1') (HM2 & Hup2 & Hupe2 & _ & _) Hb1 Hb2 HX1 HX2 HA HX.
  assert (18014398509481983 * X1 <= 4 * A1) as H1.
  { destruct (Z.eq_dec M1 4503599627370496) as [Heq|Hne].
    - specialize (Hlo1 Heq). subst M1. lia.
    - destruct (Hlo1' Hne) as [Hlow _]. nia. }
  assert (2 * A2 < 18014398509481983 * X2) as H2.
  { destruct (Z.eq_dec M2 9007199254740991) as [Heq|Hne].
    - subst M2. destruct (Z.eq_dec (2 * A2) ((2 * 9007199254740991 + 1) * X2)) as [He|Hn].
      + specialize (Hupe2 He). discriminate.
      + lia.
    - nia. }
  assert (18014398509481983 * (X1 * b2) <= 4 * A1 * b2) as H3 by nia.
  assert (4 * A2 * b1 < 2 * 18014398509481983 * (X2 * b1)) as H4 by nia.
  nia.
Qed.

(** The size test of the source in exact arithmetic: on integers below
    [2^53] it passes only if the child's size times the limit exceeds the
    size recorded for the parent. *)
Lemma js_ratio_exceeds c p L :
  0 <= c < 2 ^ 53 -> 0 <= p < 2 ^ 53 -> 0 < L < 2 ^ 53 ->
  js_gt (js_div c p) (js_div 1 L) = true -> p < c * L.
Proof.
  intros Hc Hp HL Hgt.
  destruct (Z.eq_dec c 0) as [->|Hc0].
  { exfalso. destruct (js_div_normal 1 L) as (m2 & E2 & H2 & _); [lia|lia|].
    rewrite H2 in Hgt. destruct (Z.eq_dec p 0) as [->|Hp0]; [discriminate|].
    destruct (number_normal p) as (mp & np & Hnp & _); [lia|].
    unfold js_div in Hgt. rewrite Hnp in Hgt. discriminate. }
  destruct (Z.eq_dec p 0) as [->|Hp0]; [nia|].
  destruct (Z_lt_le_dec p (c * L)) as [?|Hle]; [assumption|exfalso].
  destruct (js_div_normal c p) as (m1 & E1 & H1 & HE1 & Hn1); [lia|lia|].
  destruct (js_div_normal 1 L) as (m2 & E2 & H2 & HE2 & Hn2); [lia|lia|].
  rewrite H1, H2 in Hgt. unfold js_gt, SFltb, SFcompare in Hgt.
  assert (0 < 2 ^ 200) as HT by (apply Z.pow_pos_nonneg; lia).
  assert (0 < 2 ^ (E1 + 200)) as HW1 by (apply Z.pow_pos_nonneg; lia).
  assert (0 < 2 ^ (E2 + 200)) as HW2 by (apply Z.pow_pos_nonneg; lia).
  assert (c * 2 ^ 200 * L <= 1 * 2 ^ 200 * p) as HA by nia.
  destruct (Z.compare_spec E2 E1) as [Heq|Hlt|Hgt'].
  - subst E2.
    assert (Z.pos m1 <= Z.pos m2) as Hle'.
    { apply (nearest_same_exponent _ _ _ _ _ _ p L Hn1 Hn2); try lia; try nia; ring. }
    rewrite Pos.compare_cont_spec in Hgt. simpl in Hgt.
    destruct (Pos.compare_spec m2 m1); try discriminate. lia.
  - apply (nearest_exponent _ _ _ _ _ _ p L Hn1 Hn2); try lia; try nia.
    assert (E1 + 200 = E2 + 200 + (E1 - E2)) as -> by (clear; lia).
    rewrite (Z.pow_add_r 2 (E2 + 200) (E1 - E2)) by lia.
    assert (2 <= 2 ^ (E1 - E2)) as Hstep.
    { change 2 with (2 ^ 1) at 1. apply Z.pow_le_mono_r; clear - Hlt; lia. }
    clear - Hstep HW2 HL Hp Hp0. nia.
  - discriminate.
Qed.

(** A quotient that is larger by the factor [1 + 2^-51] rounds to a larger
    number. *)
Lemma nearest_clear_same A1 X1 M1 A2 X2 M2 b1 b2 :
  nearest A1 X1 M1 -> nearest A2 X2 M2 ->
  0 < b1 -> 0 < b2 -> 0 < X1 -> 0 < X2 ->
  A2 * b1 * 2251799813685249 <= A1 * b2 * 2251799813685248 ->
  X1 * b2 = X2 * b1 ->
  M2 < M1.
Proof.
  intros (HM1 & Hup1 & _ & _ & _) (HM2 & _ & _ & Hlo2 & Hlo2') Hb1 Hb2 HX1 HX2 HA HX.
  destruct (Z_lt_le_dec M2 M1) as [?|Hle]; [assumption|exfalso].
  assert ((2 * M2 - 1) * X2 <= 2 * A2) as Hlow.
  { destruct (Z.eq_dec M2 4503599627370496) as [Heq|Hne].
    - specialize (Hlo2 Heq). subst M2. lia.
    - apply Hlo2', Hne. }
  set (Z := X1 * b2) in *.
  assert (0 < Z) as HZ by (unfold Z; apply Z.mul_pos_pos; assumption).
  assert (2 * A1 * b2 <= (2 * M2 + 1) * Z) as H1.
  { unfold Z. transitivity ((2 * M1 + 1) * X1 * b2).
    - apply Z.mul_le_mono_nonneg_r; lia.
    - replace ((2 * M2 + 1) * (X1 * b2)) with ((2 * M2 + 1) * X1 * b2) by ring.
      apply Z.mul_le_mono_nonneg_r; [lia|].
      apply Z.mul_le_mono_nonneg_r; lia. }
  assert ((2 * M2 - 1) * Z <= 2 * A2 * b1) as H2.
  { rewrite HX. replace ((2 * M2 - 1) * (X2 * b1)) with ((2 * M2 - 1) * X2 * b1) by ring.
    apply Z.mul_le_mono_nonneg_r; lia. }
  assert ((2 * M2 - 1) * 2251799813685249 * Z <= (2 * M2 + 1) * 2251799813685248 * Z)
    as H3 by lia.
  apply Z.mul_le_mono_pos_r in H3; [|exact HZ]. lia.
Qed.

Lemma nearest_clear_exponent A1 X1 M1 A2 X2 M2 b1 b2 :
  nearest A1 X1 M1 -> nearest A2 X2 M2 ->
  0 < b1 -> 0 < b2 -> 0 < X1 -> 0 < X2 ->
  A2 * b1 * 2251799813685249 <= A1 * b2 * 2251799813685248 ->
  2 * (X1 * b2) <= X2 * b1 ->
  False.
Proof.
  intros (HM1 & Hup1 & _ & _ & _) (HM2 & _ & _ & Hlo2 & Hlo2') Hb1 Hb2 HX1 HX2 HA HX.
  assert (9007199254740991 * X2 <= 2 * A2) as Hlow.
  { destruct (Z.eq_dec M2 4503599627370496) as [Heq|Hne].
    - specialize (Hlo2 Heq). subst M2. lia.
    - destruct (Hlo2' Hne) as [Hlow _]. nia. }
  assert (2 * A1 <= 18014398509481983 * X1) as Hhigh by nia.
  set (Z := X1 * b2) in *.
  assert (0 < Z) as HZ by (unfold Z; apply Z.mul_pos_pos; assumption).
  assert (2 * A1 * b2 <= 18014398509481983 * Z) as H1.
  { unfold Z. replace (18014398509481983 * (X1 * b2)) with (18014398509481983 * X1 * b2) by ring.
    apply Z.mul_le_mono_nonneg_r; lia. }
  assert (9007199254740991 * (X2 * b1) <= 2 * A2 * b1) as H2.
  { replace (9007199254740991 * (X2 * b1)) with (9007199254740991 * X2 * b1) by ring.
    apply Z.mul_le_mono_nonneg_r; lia. }
  lia.
Qed.

(** The size test passes whenever the child's size times the limit exceeds
    the size recorded for the parent by the factor [1 + 2^-51]. *)
Lemma js_ratio_clear c p L :
  0 < c < 2 ^ 53 -> 0 <= p < 2 ^ 53 -> 0 < L < 2 ^ 53 ->
  p * (2 ^ 51 + 1) <= c * L * 2 ^ 51 ->
  js_gt (js_div c p) (js_div 1 L) = true.
Proof.
  intros Hc Hp HL Hclear.
  destruct (js_div_normal 1 L) as (m2 & E2 & H2 & HE2 & Hn2); [lia|lia|].
  rewrite H2.
  destruct (Z.eq_dec p 0) as [->|Hp0].
  { destruct (number_normal c Hc) as (mc & nc & Hnc & _).
    unfold js_div. rewrite Hnc. reflexivity. }
  destruct (js_div_normal c p) as (m1 & E1 & H1 & HE1 & Hn1); [lia|lia|].
  rewrite H1. unfold js_gt, SFltb, SFcompare.
  assert (0 < 2 ^ 200) as HT by (apply Z.pow_pos_nonneg; lia).
  assert (0 < 2 ^ (E1 + 200)) as HW1 by (apply Z.pow_pos_nonneg; lia).
  assert (0 < 2 ^ (E2 + 200)) as HW2 by (apply Z.pow_pos_nonneg; lia).
  change (2 ^ 51) with 2251799813685248 in Hclear.
  assert (1 * 2 ^ 200 * p * 2251799813685249 <= c * 2 ^ 200 * L * 2251799813685248) as HA.
  { clear - Hclear HT. nia. }
  destruct (Z.compare_spec E2 E1) as [Heq|Hlt|Hgt'].
  - subst E2.
    assert (Z.pos m2 < Z.pos m1) as Hlt.
    { apply (nearest_clear_same _ _ _ _ _ _ p L Hn1 Hn2); try lia; try nia; ring. }
    rewrite Pos.compare_cont_spec. simpl.
    destruct (Pos.compare_spec m2 m1); try reflexivity; lia.
  - reflexivity.
  - exfalso. apply (nearest_clear_exponent _ _ _ _ _ _ p L Hn1 Hn2); try lia; try nia.
    assert (E2 + 200 = E1 + 200 + (E2 - E1)) as -> by (clear; lia).
    rewrite (Z.pow_add_r 2 (E1 + 200) (E2 - E1)) by lia.
    assert (2 <= 2 ^ (E2 - E1)) as Hstep.
    { change 2 with (2 ^ 1) at 1. apply Z.pow_le_mono_r; clear - Hgt'; lia. }
    clear - Hstep HW1 HL Hp Hp0. nia.
Qed.

(** The converse of [js_ratio_exceeds] fails: the quotient is rounded before
    it is compared.  Of these two sizes the child's times ten exceeds the
    parent's, and the quotient rounds to the number that [1 / 10] rounds
    to. *)
Lemma js_ratio_rounds :
  8499999999999999 < 850000000000000 * 10
  /\ js_gt (js_div 850000000000000 8499999999999999) (js_div 1 10) = false.
Proof. split; [lia|]. vm_compute. reflexivity. Qed.

(** ** The table of biggest retainers *)

Lemma bl_get_set k v bl k' :
  bl_get (bl_set k v bl) k' = if k =? k' then Some v else bl_get bl k'.
Proof.
  induction bl as [|[k0 v0] bl IH]; simpl; [done|].
  destruct (Z.eqb_spec k0 k) as [->|Hne]; simpl.
  - by destruct (Z.eqb_spec k k').
  - rewrite IH. destruct (Z.eqb_spec k0 k') as [->|Hne'];
      destruct (Z.eqb_spec k k') as [->|Hne'']; congruence.
Qed.

Lemma bl_get_elem_of bl k : is_Some (bl_get bl k) <-> k ∈ map fst bl.
Proof.
  induction bl as [|[k0 v0] bl IH]; simpl.
  - split; [by intros [? ?]|]. intros H. by apply elem_of_nil in H.
  - rewrite elem_of_cons. destruct (Z.eqb_spec k0 k) as [->|Hne].
    + split; [by left|by eexists].
    + rewrite IH. split; [by right|]. by intros [?|?].
Qed.

(** [Object.keys] lists the keys of the table, each of them. *)
Lemma objectKeys_elem_of bl k : k ∈ objectKeys bl <-> is_Some (bl_get bl k).
Proof.
  unfold objectKeys. rewrite elem_of_app, merge_sort_Permutation.
  rewrite !list_elem_of_filter, bl_get_elem_of.
  destruct (isArrayIndex k); split; intros; intuition congruence.
Qed.

Lemma isBiggest_rule config rootDistance biggestList nodeDetail childDetail :
  isBiggest config rootDistance biggestList nodeDetail childDetail = true
  <-> biggestRule config rootDistance biggestList nodeDetail childDetail.
Proof.
  unfold isBiggest, biggestRule.
  rewrite andb_true_iff, Z.ltb_lt.
  destruct (bl_get biggestList (NodeDetail.index nodeDetail)) as [parent|].
  - split; intros [Hd Hr]; (split; [done|]).
    + by exists parent.
    + by destruct Hr as (p & [= <-] & Hr).
  - split; intros [Hd Hr]; [done|]. by destruct Hr as (p & Hp & _).
Qed.

Section BiggestFacts.
Variable config : Config.t.
Variable serialize : Z -> NodeDetail.t.

(** What one visit of a child does to the table. *)
Lemma childStep_biggestList rootDistance distanceDisplay nodeDetail st child :
  Traversal.biggestList
    (childStep config serialize rootDistance distanceDisplay nodeDetail st child)
  = if isBiggest config rootDistance (Traversal.biggestList st) nodeDetail
         (serialize (Child.index child))
    then bl_set (Child.index child)
           (Biggest.mk (NodeDetail.id (serialize (Child.index child)))
              (Some (NodeDetail.index nodeDetail))
              (Some (NodeDetail.id nodeDetail))
              (Some (NodeDetail.distance (serialize (Child.index child))))
              (NodeDetail.retainedSize (serialize (Child.index child))))
           (Traversal.biggestList st)
    else Traversal.biggestList st.
Proof.
  unfold childStep.
  by destruct (_ =? _); [destruct (isRecordedGet _ _)|].
Qed.

Lemma justified_mono rootDistance bl bl' k :
  (forall p, is_Some (bl_get bl p) -> is_Some (bl_get bl' p)) ->
  justified config serialize rootDistance bl k ->
  justified config serialize rootDistance bl' k.
Proof.
  intros Hmono (parent & child & Hc & Hk & Hd & Hp & Hr).
  exists parent, child. repeat split; auto.
Qed.

(** Every entry of the table holds the materialized retained size of its
    key, and every key but the leak point passed the test. *)
Lemma traverse_biggestList leak k e :
  let rootDistance := NodeDetail.distance (serialize (LeakPoint.index leak)) in
  let final := Traversal.biggestList (traverse config serialize leak) in
  bl_get final k = Some e ->
  Biggest.retainedSize e = NodeDetail.retainedSize (serialize k)
  /\ (k = LeakPoint.index leak
      \/ justified config serialize rootDistance final k).
Proof.
  intros rootDistance final. subst final. revert k e. unfold traverse.
  apply (whileLoop_invariant config serialize
           (fun st =>
              forall k e,
                bl_get (Traversal.biggestList st) k = Some e ->
                Biggest.retainedSize e = NodeDetail.retainedSize (serialize k)
                /\ (k = LeakPoint.index leak
                    \/ justified config serialize rootDistance
                         (Traversal.biggestList st) k))).
  - done.
  - done.
  - intros dd index st child Hchild Hst k e.
    rewrite childStep_biggestList.
    destruct (isBiggest _ _ _ _ _) eqn:Hbig; [|apply Hst].
    apply isBiggest_rule in Hbig as [Hdist (pe & Hpe & Hratio)].
    assert (forall p, is_Some (bl_get (Traversal.biggestList st) p) ->
                      is_Some (bl_get
                                 (bl_set (Child.index child)
                                    (Biggest.mk
                                       (NodeDetail.id (serialize (Child.index child)))
                                       (Some (NodeDetail.index (serialize index)))
                                       (Some (NodeDetail.id (serialize index)))
                                       (Some (NodeDetail.distance
                                                (serialize (Child.index child))))
                                       (NodeDetail.retainedSize
                                          (serialize (Child.index child))))
                                    (Traversal.biggestList st)) p)) as Hmono.
    { intros p Hp. rewrite bl_get_set. by destruct (_ =? _). }
    rewrite bl_get_set. destruct (Z.eqb_spec (Child.index child) k) as [<-|Hne].
    + intros [= <-]. simpl. split; [done|]. right.
      exists index, child. split; [done|]. split; [done|]. split; [done|].
      split; [apply Hmono; by eexists|].
      destruct (Hst _ _ Hpe) as [<- _]. done.
    + intros Hk. destruct (Hst _ _ Hk) as [Hsize Hjust]. split; [done|].
      destruct Hjust as [?|Hjust]; [by left|right].
      by eapply justified_mono.
  - intros k e. simpl. destruct (Z.eqb_spec (LeakPoint.index leak) k) as [<-|Hne];
      [|done].
    intros [= <-]. simpl. split; [done|by left].
Qed.
End BiggestFacts.

(** ** What the pre-expansion leaves alone *)

Lemma catchNode_Some nodes value data :
  catchNode nodes value = Some data ->
  data ∈ nodes /\ GraphNode.index data = value.
Proof.
  unfold catchNode. induction nodes as [|n nodes IH]; [done|].
  destruct (decide (GraphNode.index n = value)) as [Hn|Hn].
  - rewrite filter_cons_True by done. intros [= <-]. split; [left|done].
  - rewrite filter_cons_False by done. intros H.
    destruct (IH H) as [Hin Hi]. split; [by right|done].
Qed.

Lemma NoDup_ids_inj (nodes : list GraphNode.t) n m :
  NoDup (map GraphNode.id nodes) -> n ∈ nodes -> m ∈ nodes ->
  GraphNode.id n = GraphNode.id m -> n = m.
Proof.
  induction nodes as [|x nodes IH]; intros Hnodup Hn Hm Hid.
  - by apply elem_of_nil in Hn.
  - simpl in Hnodup. apply NoDup_cons in Hnodup as [Hx Hnodup].
    apply elem_of_cons in Hn as [->|Hn]; apply elem_of_cons in Hm as [->|Hm].
    + done.
    + destruct Hx. rewrite Hid. apply elem_of_map. by exists m.
    + destruct Hx. rewrite <- Hid. apply elem_of_map. by exists n.
    + by apply IH.
Qed.

(** A toggle keeps the ids, and a node that is not the toggled one and waits
    to be expanded ([flag=true], [category=1]) still does afterwards. *)
Lemma setExpandOff_waiting g data :
  NoDup (map GraphNode.id (ForceGraph.nodes g)) ->
  data ∈ ForceGraph.nodes g ->
  NoDup (map GraphNode.id (ForceGraph.nodes (setExpandOff g data)))
  /\ forall n',
       n' ∈ ForceGraph.nodes (setExpandOff g data) ->
       exists n,
         n ∈ ForceGraph.nodes g
         /\ GraphNode.index n' = GraphNode.index n
         /\ (GraphNode.index n <> GraphNode.index data ->
             GraphNode.flag n = true /\ GraphNode.category n = 1 ->
             GraphNode.flag n' = true /\ GraphNode.category n' = 1).
Proof.
  intros Hnodup Hdata.
  assert (forall f : GraphNode.t -> GraphNode.t,
    (forall n, GraphNode.id (f n) = GraphNode.id n) ->
    (forall n, GraphNode.index (f n) = GraphNode.index n) ->
    (forall n, GraphNode.id n <> GraphNode.id data ->
               GraphNode.flag n = true /\ GraphNode.category n = 1 ->
               GraphNode.flag (f n) = true /\ GraphNode.category (f n) = 1) ->
    NoDup (map GraphNode.id (map f (ForceGraph.nodes g)))
    /\ forall n',
         n' ∈ map f (ForceGraph.nodes g) ->
         exists n,
           n ∈ ForceGraph.nodes g
           /\ GraphNode.index n' = GraphNode.index n
           /\ (GraphNode.index n <> GraphNode.index data ->
               GraphNode.flag n = true /\ GraphNode.category n = 1 ->
               GraphNode.flag n' = true /\ GraphNode.category n' = 1)) as Hmap.
  { intros f Hid Hindex Hkeep. split.
    - rewrite map_map. by rewrite (map_ext _ GraphNode.id Hid).
    - intros n' Hn'. apply elem_of_map in Hn' as (n & -> & Hn).
      exists n. split; [done|]. split; [apply Hindex|].
      intros Hne. apply Hkeep. intros Heq. apply Hne.
      by rewrite (NoDup_ids_inj _ n data Hnodup Hn Hdata Heq). }
  destruct (GraphNode.flag data) eqn:Hflag.
  - rewrite setExpandOff_expand by done. apply Hmap.
    + intros n. destruct (String.eqb _ _); [done|]. by destruct (inb _ _).
    + intros n. destruct (String.eqb _ _); [done|]. by destruct (inb _ _).
    + intros n Hne Hn. destruct (String.eqb_spec (GraphNode.id n) (GraphNode.id data));
        [done|].
      destruct (inb _ _); [|done]. simpl. by destruct Hn.
  - rewrite setExpandOff_collapse by done. apply Hmap.
    + intros n. destruct (String.eqb _ _); [done|]. by destruct (inb _ _).
    + intros n. destruct (String.eqb _ _); [done|]. by destruct (inb _ _).
    + intros n Hne Hn. destruct (String.eqb_spec (GraphNode.id n) (GraphNode.id data));
        [done|].
      destruct (inb _ _); [|done]. simpl. by destruct Hn.
Qed.

(** The pre-expansion toggles nodes whose index is a key of the table, and
    no other node: a node whose index is not a key and that waits to be
    expanded still does when the loop over the keys has ended. *)
Lemma preExpand_waiting biggestList g :
  NoDup (map GraphNode.id (ForceGraph.nodes g)) ->
  (forall n, n ∈ ForceGraph.nodes g ->
             bl_get biggestList (GraphNode.index n) = None ->
             GraphNode.flag n = true /\ GraphNode.category n = 1) ->
  forall n, n ∈ ForceGraph.nodes (preExpand biggestList g) ->
            bl_get biggestList (GraphNode.index n) = None ->
            GraphNode.flag n = true /\ GraphNode.category n = 1.
Proof.
  intros Hnodup Hwait.
  assert (NoDup (map GraphNode.id (ForceGraph.nodes (preExpand biggestList g)))
          /\ forall n, n ∈ ForceGraph.nodes (preExpand biggestList g) ->
                       bl_get biggestList (GraphNode.index n) = None ->
                       GraphNode.flag n = true /\ GraphNode.category n = 1)
    as [_ H]; [|exact H].
  unfold preExpand.
  apply (fold_left_invariant
           (fun g' =>
              NoDup (map GraphNode.id (ForceGraph.nodes g'))
              /\ forall n, n ∈ ForceGraph.nodes g' ->
                           bl_get biggestList (GraphNode.index n) = None ->
                           GraphNode.flag n = true /\ GraphNode.category n = 1));
    [done|].
  intros g' k Hk [Hnodup' Hwait'].
  destruct (catchNode (ForceGraph.nodes g') k) as [data|] eqn:Hcatch; [|done].
  apply catchNode_Some in Hcatch as [Hdata Hindex].
  destruct (setExpandOff_waiting g' data Hnodup' Hdata) as [Hnodup'' Hnodes].
  split; [done|]. intros n' Hn' Hnone.
  destruct (Hnodes n' Hn') as (n & Hn & Hi & Hkeep).
  rewrite Hi in Hnone. apply Hkeep; [|by apply Hwait'].
  intros Heq. apply objectKeys_elem_of in Hk as [e He].
  rewrite Heq, Hindex in Hnone. congruence.
Qed.

Section Waiting.
Variable config : Config.t.
Variable serialize : Z -> NodeDetail.t.

(** The traversal emits every node with [flag=true], and with [category=1]
    unless the node carries the index of the leak point. *)
Lemma traverse_waiting leak n :
  n ∈ Traversal.nodes (traverse config serialize leak) ->
  GraphNode.flag n = true
  /\ (GraphNode.category n = 1 \/ GraphNode.index n = LeakPoint.index leak).
Proof.
  revert n. unfold traverse.
  apply (whileLoop_invariant config serialize
           (fun st =>
              forall n, n ∈ Traversal.nodes st ->
                GraphNode.flag n = true
                /\ (GraphNode.category n = 1
                    \/ GraphNode.index n = LeakPoint.index leak))).
  - done.
  - intros st index Hst _ n. simpl.
    rewrite elem_of_app, list_elem_of_singleton. intros [Hn| ->]; [auto|].
    unfold parentNode. simpl. split; [done|]. case_bool_decide; auto.
  - intros dd index st child _ Hst n. unfold childStep.
    destruct (_ =? _); [destruct (isRecordedGet _ _)|]; simpl; auto.
    rewrite elem_of_app, list_elem_of_singleton. intros [Hn| ->]; [auto|].
    simpl. auto.
  - simpl. intros n Hn. by apply elem_of_nil in Hn.
Qed.

(** The key of the leak point is never removed from the table. *)
Lemma traverse_leak_key leak :
  is_Some (bl_get (Traversal.biggestList (traverse config serialize leak))
             (LeakPoint.index leak)).
Proof.
  unfold traverse.
  apply (whileLoop_invariant config serialize
           (fun st => is_Some (bl_get (Traversal.biggestList st)
                                 (LeakPoint.index leak)))).
  - done.
  - done.
  - intros dd index st child _ Hst. rewrite childStep_biggestList.
    destruct (isBiggest _ _ _ _ _); [|done].
    rewrite bl_get_set. by destruct (_ =? _).
  - simpl. rewrite Z.eqb_refl. by eexists.
Qed.

(** In the returned graph a node whose index is not a key of the final
    table has not been expanded. *)
Lemma leakGraph_waiting leak n :
  n ∈ ForceGraph.nodes (leakGraph config serialize leak) ->
  bl_get (Traversal.biggestList (traverse config serialize leak))
    (GraphNode.index n) = None ->
  GraphNode.flag n = true /\ GraphNode.category n = 1.
Proof.
  unfold leakGraph. simpl. intros Hn Hnone.
  apply elem_of_map in Hn as (m & -> & Hm). simpl in *.
  revert m Hm Hnone. apply preExpand_waiting; simpl.
  - apply traverse_ids.
  - intros m Hm Hnone. destruct (traverse_waiting leak m Hm) as [Hflag [Hcat|Hleak]].
    + done.
    + destruct (traverse_leak_key leak) as [e He]. rewrite Hleak in Hnone. congruence.
Qed.
End Waiting.

(** C5, as the code has it.  A visit of a child writes the child to
    [biggestList] if and only if the child lies within the leak window,
    its parent is in the table at that moment, and the binary64 quotient of
    the child's retained size by the retained size recorded for the parent
    exceeds the binary64 value of [1 / childrenLimit]; otherwise the visit
    leaves the table alone.  On sizes and a limit below [2^53] the size
    test passes only if the child's size times the limit exceeds the
    recorded size, and it passes whenever it does so by the factor
    [1 + 2^-51].  Every key of the final table, the leak point apart, is a
    retained child that passed the test at a parent of the table.  A node
    of the returned graph whose index is not a key of the final table has
    not been pre-expanded: it still has [flag=true] and [category=1].  In
    particular an index whose size times the limit is at most the size
    recorded for its parent, at every parent that retains it, is not a key
    of the final table and its nodes are not pre-expanded. *)
Theorem biggest_retainers_rule config serialize leak :
  let rootDistance := NodeDetail.distance (serialize (LeakPoint.index leak)) in
  let final := Traversal.biggestList (traverse config serialize leak) in
  let sizeOf := fun k => NodeDetail.retainedSize (serialize k) in
  (forall distanceDisplay nodeDetail st child,
     let childDetail := serialize (Child.index child) in
     let st' := childStep config serialize rootDistance distanceDisplay
                  nodeDetail st child in
     (biggestRule config rootDistance (Traversal.biggestList st) nodeDetail
        childDetail ->
      exists e,
        bl_get (Traversal.biggestList st') (Child.index child) = Some e
        /\ Biggest.source e = Some (NodeDetail.index nodeDetail)
        /\ Biggest.retainedSize e = NodeDetail.retainedSize childDetail)
     /\ (~ biggestRule config rootDistance (Traversal.biggestList st) nodeDetail
           childDetail ->
         Traversal.biggestList st' = Traversal.biggestList st))
  /\ (forall c p,
        0 <= c < 2 ^ 53 -> 0 <= p < 2 ^ 53 ->
        0 < Config.node_limit config < 2 ^ 53 ->
        (js_gt (js_div c p) (js_div 1 (Config.node_limit config)) = true ->
         p < c * Config.node_limit config)
        /\ (0 < c ->
            p * (2 ^ 51 + 1) <= c * Config.node_limit config * 2 ^ 51 ->
            js_gt (js_div c p) (js_div 1 (Config.node_limit config)) = true))
  /\ (forall k e,
        bl_get final k = Some e -> k <> LeakPoint.index leak ->
        exists parent child pe,
          child ∈ retainedChildren serialize (serialize parent)
          /\ Child.index child = k
          /\ Z.abs (rootDistance - NodeDetail.distance (serialize k))
             < Config.leak_limit config
          /\ bl_get final (NodeDetail.index (serialize parent)) = Some pe
          /\ Biggest.retainedSize pe
             = sizeOf (NodeDetail.index (serialize parent))
          /\ js_gt (js_div (sizeOf k) (Biggest.retainedSize pe))
                   (js_div 1 (Config.node_limit config)) = true)
  /\ (forall n,
        n ∈ ForceGraph.nodes (leakGraph config serialize leak) ->
        bl_get final (GraphNode.index n) = None ->
        GraphNode.flag n = true /\ GraphNode.category n = 1)
  /\ (forall k,
        k <> LeakPoint.index leak ->
        0 <= sizeOf k < 2 ^ 53 ->
        0 < Config.node_limit config < 2 ^ 53 ->
        (forall parent child,
           child ∈ retainedChildren serialize (serialize parent) ->
           Child.index child = k ->
           0 <= sizeOf (NodeDetail.index (serialize parent)) < 2 ^ 53
           /\ sizeOf k * Config.node_limit config
              <= sizeOf (NodeDetail.index (serialize parent))) ->
        bl_get final k = None
        /\ forall n,
             n ∈ ForceGraph.nodes (leakGraph config serialize leak) ->
             GraphNode.index n = k ->
             GraphNode.flag n = true /\ GraphNode.category n = 1).
Proof.
  intros rootDistance final sizeOf.
  assert (forall k e,
    bl_get final k = Some e -> k <> LeakPoint.index leak ->
    exists parent child pe,
      child ∈ retainedChildren serialize (serialize parent)
      /\ Child.index child = k
      /\ Z.abs (rootDistance - NodeDetail.distance (serialize k))
         < Config.leak_limit config
      /\ bl_get final (NodeDetail.index (serialize parent)) = Some pe
      /\ Biggest.retainedSize pe = sizeOf (NodeDetail.index (serialize parent))
      /\ js_gt (js_div (sizeOf k) (Biggest.retainedSize pe))
               (js_div 1 (Config.node_limit config)) = true) as Hkeys.
  { intros k e Hk Hne.
    destruct (traverse_biggestList config serialize leak k e Hk)
      as [_ [?|Hjust]]; [done|].
    destruct Hjust as (parent & child & Hc & Hci & Hd & [pe Hpe] & Hr).
    exists parent, child, pe. repeat (split; [done|]).
    destruct (traverse_biggestList config serialize leak _ pe Hpe) as [Hsize _].
    split; [done|]. by rewrite Hsize. }
  split; [|split; [|split; [|split]]].
  - intros dd nodeDetail st child childDetail st'. subst st'.
    rewrite childStep_biggestList. fold childDetail. split.
    + intros Hrule. apply isBiggest_rule in Hrule. rewrite Hrule.
      eexists. rewrite bl_get_set, Z.eqb_refl. by split.
    + intros Hrule. destruct (isBiggest _ _ _ _ _) eqn:Hbig; [|done].
      by apply isBiggest_rule in Hbig.
  - intros c p Hc Hp HL. split.
    + by apply js_ratio_exceeds.
    + intros Hpos. apply js_ratio_clear; [lia|done..].
  - exact Hkeys.
  - intros n. apply leakGraph_waiting.
  - intros k Hne Hsize HL Hsmall.
    assert (bl_get final k = None) as Hnone.
    { destruct (bl_get final k) as [e|] eqn:Hk; [exfalso|done].
      destruct (Hkeys k e Hk Hne) as (parent & child & pe & Hc & Hci & _ & _ & Hpe & Hr).
      destruct (Hsmall parent child Hc Hci) as [Hrange Hle].
      rewrite Hpe in Hr. apply js_ratio_exceeds in Hr; [lia|done..]. }
    split; [done|]. intros n Hn Hi. apply (leakGraph_waiting config serialize leak n Hn).
    by rewrite Hi.
Qed.

Lemma biggest_retainers_rule_witness :
  let final := Traversal.biggestList
                 (traverse Sample.config2 Sample.smallMiddle Sample.leak5) in
  let g := leakGraph Sample.config2 Sample.smallMiddle Sample.leak5 in
  6 <> LeakPoint.index Sample.leak5
  /\ NodeDetail.retainedSize (Sample.smallMiddle 6) * 10
     <= NodeDetail.retainedSize (Sample.smallMiddle 5)
  /\ GraphNode.mk 6 "@6" (Some false) "@6" 30 1 false true (Some "@6") (Some 30)
     ∈ ForceGraph.nodes g
  /\ bl_get final 6 = None
  /\ forall n,
       n ∈ ForceGraph.nodes g -> GraphNode.index n = 6 ->
       GraphNode.flag n = true /\ GraphNode.category n = 1.
Proof.
  intros final g.
  split; [discriminate|]. split; [vm_compute; discriminate|].
  split; [vm_compute; right; left|].
  destruct (biggest_retainers_rule Sample.config2 Sample.smallMiddle Sample.leak5)
    as (_ & _ & _ & _ & Hsmall).
  apply (Hsmall 6).
  - discriminate.
  - vm_compute. split; [discriminate|reflexivity].
  - vm_compute. split; reflexivity.
  - intros parent child Hc Hci. unfold Sample.smallMiddle, Sample.chain in *.
    destruct (Z.eqb_spec parent 5) as [->|H5].
    + vm_compute. repeat split; discriminate.
    + exfalso. destruct (Z.eqb_spec parent 6) as [->|H6].
      * vm_compute in Hc. apply list_elem_of_singleton in Hc. by subst child.
      * unfold retainedChildren in Hc. simpl in Hc. by apply elem_of_nil in Hc.
Defined.

(** C5 as stated fails: node 7 is visited as the retained child of node 6,
    lies within the leak window and is as large as its parent, and yet is
    not written to the table, because node 6 is not in it. *)
Lemma biggest_parent_missing_counterexample :
  let st := traverse Sample.config2 Sample.smallMiddle Sample.leak5 in
  GraphLink.mk "@6" "@7" 6 7 "b" ∈ Traversal.links st
  /\ Child.mk 7 "b" ∈ retainedChildren Sample.smallMiddle (Sample.smallMiddle 6)
  /\ Z.abs (NodeDetail.distance (Sample.smallMiddle 5)
            - NodeDetail.distance (Sample.smallMiddle 7))
     < Config.leak_limit Sample.config2
  /\ js_gt (js_div (NodeDetail.retainedSize (Sample.smallMiddle 7))
                   (NodeDetail.retainedSize (Sample.smallMiddle 6)))
           (js_div 1 (Config.node_limit Sample.config2)) = true
  /\ bl_get (Traversal.biggestList st) 6 = None
  /\ bl_get (Traversal.biggestList st) 7 = None.
Proof.
  intros st. split; [vm_compute; right; left|]. split; [vm_compute; left|].
  split; [done|]. split; [vm_compute; reflexivity|].
  split; vm_compute; reflexivity.
Qed.

(** ** A leak point with one retained child, one hop *)

Lemma isRecordedGet_fresh (isRecorded : gset string) id :
  plainId id -> id ∉ isRecorded -> isRecordedGet isRecorded id = false.
Proof.
  intros Hplain Hfresh. unfold isRecordedGet. rewrite Hplain. simpl.
  by apply bool_decide_eq_false.
Qed.

Section OneHop.
Variable config : Config.t.
Variable serialize : Z -> NodeDetail.t.
Variable leak : LeakPoint.t.
Variable child : Child.t.
Hypothesis Hlimit : Config.distance_limit config = 1.
Hypothesis Hleak : LeakPoint.index leak = 5.
Hypothesis Hchildren : retainedChildren serialize (serialize 5) = [child].
Hypothesis Hchild : Child.index child = 6.
Hypothesis Hindex5 : NodeDetail.index (serialize 5) = 5.
Hypothesis Hindex6 : NodeDetail.index (serialize 6) = 6.
Hypothesis Hids : NodeDetail.id (serialize 5) <> NodeDetail.id (serialize 6).
Hypothesis Hplain5 : plainId (NodeDetail.id (serialize 5)).
Hypothesis Hplain6 : plainId (NodeDetail.id (serialize 6)).

Lemma traverse_one_hop :
  traverse config serialize leak
  = Traversal.mk
      [GraphNode.mk 5 (NodeDetail.id (serialize 5)) (Some true)
         (NodeDetail.id (serialize 5)) 40 0 false true None None;
       GraphNode.mk 6 (NodeDetail.id (serialize 6)) None
         (NodeDetail.id (serialize 6)) 30 1 true true None None]
      [GraphLink.mk (NodeDetail.id (serialize 5)) (NodeDetail.id (serialize 6))
         5 6 (Child.name_or_index child)]
      (if isBiggest config (NodeDetail.distance (serialize 5))
            [(5, Biggest.mk (NodeDetail.id (serialize 5)) None None None
                   (NodeDetail.retainedSize (serialize 5)))]
            (serialize 5) (serialize 6)
       then [(5, Biggest.mk (NodeDetail.id (serialize 5)) None None None
                   (NodeDetail.retainedSize (serialize 5)));
             (6, Biggest.mk (NodeDetail.id (serialize 6)) (Some 5)
                   (Some (NodeDetail.id (serialize 5)))
                   (Some (NodeDetail.distance (serialize 6)))
                   (NodeDetail.retainedSize (serialize 6)))]
       else [(5, Biggest.mk (NodeDetail.id (serialize 5)) None None None
                   (NodeDetail.retainedSize (serialize 5)))])
      ({[NodeDetail.id (serialize 6)]} ∪ ({[NodeDetail.id (serialize 5)]} ∪ ∅))
      [6].
Proof.
  unfold traverse, hops. rewrite Hlimit, Hleak.
  change (Z.to_nat 1) with 1%nat. unfold whileLoop. rewrite Hlimit.
  change (negb (Nat.eqb (length [5]) 0) && (1 <=? 1)) with true. cbv iota.
  unfold hopStep, parentStep.
  cbn [fold_left Traversal.nodes Traversal.links Traversal.biggestList
       Traversal.isRecorded Traversal.tmpIndexArr].
  rewrite (isRecordedGet_fresh ∅ _ Hplain5) by apply not_elem_of_empty.
  rewrite Hchildren. cbn [fold_left].
  unfold childStep.
  cbn [Traversal.nodes Traversal.links Traversal.biggestList
       Traversal.isRecorded Traversal.tmpIndexArr].
  rewrite Hchild, Hlimit. change (1 =? 1) with true. cbv iota.
  rewrite (isRecordedGet_fresh _ _ Hplain6).
  2:{ rewrite elem_of_union, elem_of_singleton. intros [Heq|Hin]; [congruence|].
      by apply not_elem_of_empty in Hin. }
  unfold parentNode, boundaryNode, makeLink. rewrite Hindex5, Hindex6, Hleak.
  change (bool_decide (5 = 5)) with true. change (1 =? 2) with false. cbv iota.
  simpl app. simpl bl_set.
  reflexivity.
Qed.

Lemma leakGraph_one_hop :
  leakGraph config serialize leak
  = let big := isBiggest config (NodeDetail.distance (serialize 5))
            [(5, Biggest.mk (NodeDetail.id (serialize 5)) None None None
                   (NodeDetail.retainedSize (serialize 5)))]
            (serialize 5) (serialize 6) in
    ForceGraph.mk
      [GraphNode.mk 5 (NodeDetail.id (serialize 5)) (Some true)
         (NodeDetail.id (serialize 5)) 40 0 false false
         (Some (NodeDetail.id (serialize 5))) (Some 40);
       GraphNode.mk 6 (NodeDetail.id (serialize 6)) None
         (NodeDetail.id (serialize 6)) 30 (if big then 0 else 1) false (negb big)
         (Some (NodeDetail.id (serialize 6))) (Some 30)]
      [GraphLink.mk (NodeDetail.id (serialize 5)) (NodeDetail.id (serialize 6))
         5 6 (Child.name_or_index child)]
      (Some 5).
Proof.
  unfold leakGraph. rewrite traverse_one_hop, Hleak.
  cbn [Traversal.nodes Traversal.links Traversal.biggestList].
  assert (String.eqb (NodeDetail.id (serialize 6)) (NodeDetail.id (serialize 5))
          = false) as H65 by (apply String.eqb_neq; congruence).
  assert (String.eqb (NodeDetail.id (serialize 5)) (NodeDetail.id (serialize 6))
          = false) as H56 by (by apply String.eqb_neq).
  destruct (isBiggest _ _ _ _ _); unfold preExpand;
    [change (objectKeys _) with [5; 6]|change (objectKeys _) with [5]];
    revert H65 H56;
    generalize (NodeDetail.id (serialize 5)) (NodeDetail.id (serialize 6))
               (Child.name_or_index child);
    intros id5 id6 edge H65 H56;
    repeat (cbv -[String.eqb]; rewrite ?String.eqb_refl, ?H65, ?H56);
    reflexivity.
Qed.

End OneHop.

(** C6, as the code has it.  With [distanceLimit = 1] and a leak point at
    index 5 whose only retained child is index 6 (the two details carrying
    their own index and two different ids, neither the name of an inherited
    property), the traversal emits two nodes, 5 and 6, and node 6, a
    boundary node of hop 1, is emitted with [ignore=true]; the graph that is
    returned has these two nodes and the one link from 5 to 6, and in it
    node 6 has [ignore=false], because the leak point is pre-expanded, which
    reveals its direct children.  Node 6 is itself pre-expanded
    ([flag=false], [category=0]) exactly when it passes the size test
    against the leak point; otherwise it has [flag=true], [category=1]. *)
Theorem one_hop_graph config serialize leak child heapUsed :
  Config.distance_limit config = 1 ->
  LeakPoint.index leak = 5 ->
  retainedChildren serialize (serialize 5) = [child] ->
  Child.index child = 6 ->
  NodeDetail.index (serialize 5) = 5 ->
  NodeDetail.index (serialize 6) = 6 ->
  NodeDetail.id (serialize 5) <> NodeDetail.id (serialize 6) ->
  plainId (NodeDetail.id (serialize 5)) ->
  plainId (NodeDetail.id (serialize 6)) ->
  let id5 := NodeDetail.id (serialize 5) in
  let id6 := NodeDetail.id (serialize 6) in
  let big := isBiggest config (NodeDetail.distance (serialize 5))
               [(5, Biggest.mk id5 None None None
                      (NodeDetail.retainedSize (serialize 5)))]
               (serialize 5) (serialize 6) in
  Traversal.nodes (traverse config serialize leak)
  = [GraphNode.mk 5 id5 (Some true) id5 40 0 false true None None;
     GraphNode.mk 6 id6 None id6 30 1 true true None None]
  /\ snd (createForceGraph config serialize heapUsed [leak])
     = {[ leakKey serialize leak :=
            ForceGraph.mk
              [GraphNode.mk 5 id5 (Some true) id5 40 0 false false
                 (Some id5) (Some 40);
               GraphNode.mk 6 id6 None id6 30 (if big then 0 else 1) false
                 (negb big) (Some id6) (Some 30)]
              [GraphLink.mk id5 id6 5 6 (Child.name_or_index child)]
              (Some 5) ]}.
Proof.
  intros Hlimit Hleak Hchildren Hchild Hindex5 Hindex6 Hids Hplain5 Hplain6
    id5 id6 big.
  split.
  - by rewrite (traverse_one_hop config serialize leak child).
  - unfold createForceGraph. cbn [fold_left snd].
    by rewrite (leakGraph_one_hop config serialize leak child), insert_empty.
Qed.

Lemma one_hop_graph_witness :
  Traversal.nodes (traverse Sample.config1 Sample.heap Sample.leak5)
  = [GraphNode.mk 5 "@5" (Some true) "@5" 40 0 false true None None;
     GraphNode.mk 6 "@6" None "@6" 30 1 true true None None]
  /\ snd (createForceGraph Sample.config1 Sample.heap ∅ [Sample.leak5])
     = {[ "Leak::@5" :=
            ForceGraph.mk
              [GraphNode.mk 5 "@5" (Some true) "@5" 40 0 false false
                 (Some "@5") (Some 40);
               GraphNode.mk 6 "@6" None "@6" 30 0 false false
                 (Some "@6") (Some 30)]
              [GraphLink.mk "@5" "@6" 5 6 "a"]
              (Some 5) ]}.
Proof.
  apply (one_hop_graph Sample.config1 Sample.heap Sample.leak5 (Child.mk 6 "a"));
    try reflexivity.
  discriminate.
Defined.

(** C6 as stated fails: node 6 is not a biggest retainer here, and still
    the returned graph has it with [ignore=false]. *)
Lemma one_hop_counterexample :
  Config.distance_limit Sample.config1 = 1
  /\ retainedChildren Sample.smallMiddle (Sample.smallMiddle 5) = [Child.mk 6 "a"]
  /\ ForceGraph.nodes
       <$> snd (createForceGraph Sample.config1 Sample.smallMiddle ∅ [Sample.leak5])
           !! "Leak::@5"
     = Some [GraphNode.mk 5 "@5" (Some true) "@5" 40 0 false false
               (Some "@5") (Some 40);
             GraphNode.mk 6 "@6" None "@6" 30 1 false true
               (Some "@6") (Some 30)].
Proof. split; [done|]. split; vm_compute; reflexivity. Qed.

(** The size test decides on the rounded quotient: here the child's size
    times ten exceeds the size of the leak point, the quotient rounds to the
    number that [1 / 10] rounds to, and node 6 is not pre-expanded. *)
Lemma one_hop_rounded_sizes :
  ForceGraph.nodes
    <$> snd (createForceGraph Sample.config1
               (Sample.chain 8499999999999999 850000000000000 1) ∅ [Sample.leak5])
        !! "Leak::@5"
  = Some [GraphNode.mk 5 "@5" (Some true) "@5" 40 0 false false
            (Some "@5") (Some 40);
          GraphNode.mk 6 "@6" None "@6" 30 1 false true
            (Some "@6") (Some 30)].
Proof. vm_compute. reflexivity. Qed.

(** ** The order of the links of a built graph *)

Section LinkOrder.
Variable config : Config.t.
Variable serialize : Z -> NodeDetail.t.

Lemma levelled_weaken links bound bound' :
  levelled serialize links bound -> bound <= bound' ->
  levelled serialize links bound'.
Proof.
  intros H Hle. destruct H as [b|links l d b Hlinks Hl Hd].
  - apply levelled_nil.
  - eapply levelled_snoc; [done..|lia].
Qed.

(** In a levelled list, a link and all the links after it are at or above
    one level of that link. *)
Lemma levelled_split links bound :
  levelled serialize links bound ->
  forall pre l post,
    links = pre ++ l :: post ->
    exists d,
      linkLevel serialize l d /\ d <= bound
      /\ forall m, m ∈ l :: post -> exists dm, linkLevel serialize m dm /\ d <= dm.
Proof.
  induction 1 as [b|links x dx b Hlinks IH Hx Hdx]; intros pre l post Hsplit.
  - by destruct pre.
  - destruct post as [|y post _] using rev_ind.
    + apply app_inj_tail in Hsplit as [_ ->].
      exists dx. split; [done|]. split; [done|].
      intros m Hm. apply list_elem_of_singleton in Hm as ->. by exists dx.
    + rewrite app_comm_cons, app_assoc in Hsplit.
      apply app_inj_tail in Hsplit as [Hlinks' ->].
      destruct (IH pre l post Hlinks') as (d & Hl & Hd & Hrest).
      exists d. split; [done|]. split; [lia|].
      intros m Hm. rewrite app_comm_cons in Hm.
      apply elem_of_app in Hm as [Hm|Hm]; [by apply Hrest|].
      apply list_elem_of_singleton in Hm as ->. by exists dx.
Qed.

(** When an id fixes the distance of its node, a levelled list is in
    forward order. *)
Lemma levelled_forwardOrdered links bound :
  (forall i j,
     NodeDetail.id (serialize i) = NodeDetail.id (serialize j) ->
     NodeDetail.distance (serialize i) = NodeDetail.distance (serialize j)) ->
  levelled serialize links bound -> forwardOrdered links.
Proof.
  intros Hid Hlev pre l post l' Hsplit Hl' Htgt.
  rewrite Hsplit in Hl'. apply elem_of_app in Hl' as [Hl'|Hl']; [done|].
  destruct (levelled_split links bound Hlev pre l post Hsplit)
    as (d & (p & c & Hsrc & _ & Hdp & _) & _ & Hrest).
  destruct (Hrest l' Hl') as (d' & (p' & c' & _ & Htgt' & Hdp' & Hdc') & Hle).
  assert (NodeDetail.distance (serialize c') = NodeDetail.distance (serialize p))
    as Heq by (apply Hid; congruence).
  lia.
Qed.

Lemma childStep_levelled rootDistance distanceDisplay index st child level :
  NodeDetail.distance (serialize index) = level ->
  child ∈ retainedChildren serialize (serialize index) ->
  levelled serialize (Traversal.links st) level
  /\ (forall i, i ∈ Traversal.tmpIndexArr st ->
                NodeDetail.distance (serialize i) = level + 1) ->
  levelled serialize
    (Traversal.links
       (childStep config serialize rootDistance distanceDisplay
          (serialize index) st child)) level
  /\ (forall i,
        i ∈ Traversal.tmpIndexArr
              (childStep config serialize rootDistance distanceDisplay
                 (serialize index) st child) ->
        NodeDetail.distance (serialize i) = level + 1).
Proof.
  intros Hlevel Hchild [Hlinks Htmp].
  apply retainedChildren_elem_of in Hchild as [Hdist _].
  assert (levelled serialize
            (Traversal.links st
             ++ [makeLink (serialize index) (serialize (Child.index child)) child])
            level) as Hpush.
  { apply (levelled_snoc _ _ _ level); [done| |lia].
    exists index, (Child.index child). simpl. repeat split; lia. }
  assert (forall i, i ∈ Traversal.tmpIndexArr st ++ [Child.index child] ->
                    NodeDetail.distance (serialize i) = level + 1) as Htmp'.
  { intros i Hi. apply elem_of_app in Hi as [Hi|Hi]; [auto|].
    apply list_elem_of_singleton in Hi as ->. lia. }
  unfold childStep.
  destruct (_ =? _); destruct (isRecordedGet _ _); simpl; auto.
Qed.

Lemma whileLoop_levelled leak rootDistance fuel distanceDisplay leakIndexList st :
  (forall i, i ∈ leakIndexList ->
             NodeDetail.distance (serialize i) = rootDistance + distanceDisplay - 1) ->
  levelled serialize (Traversal.links st) (rootDistance + distanceDisplay - 1) ->
  exists bound,
    levelled serialize
      (Traversal.links
         (whileLoop config serialize fuel leak rootDistance distanceDisplay
            leakIndexList st)) bound.
Proof.
  revert distanceDisplay leakIndexList st.
  induction fuel as [|fuel IH]; intros dd frontier st Hfrontier Hlinks; simpl;
    [by eexists|].
  destruct (_ && _); [|by eexists].
  assert (levelled serialize
            (Traversal.links
               (hopStep config serialize leak rootDistance dd frontier st))
            (rootDistance + dd - 1)
          /\ forall i,
               i ∈ Traversal.tmpIndexArr
                     (hopStep config serialize leak rootDistance dd frontier st) ->
               NodeDetail.distance (serialize i) = rootDistance + dd - 1 + 1)
    as [Hlinks' Htmp'].
  { unfold hopStep. apply fold_left_invariant.
    - simpl. split; [done|]. intros i Hi. by apply elem_of_nil in Hi.
    - intros st1 index Hindex Hst1. unfold parentStep.
      destruct (isRecordedGet _ _); [done|].
      apply fold_left_invariant; [done|].
      intros st2 child Hchild Hst2.
      apply childStep_levelled; auto. }
  apply IH.
  - intros i Hi. rewrite (Htmp' i Hi). lia.
  - eapply levelled_weaken; [done|lia].
Qed.

(** The links of a built graph are in forward order, provided an id fixes
    the distance of its node: the toggle's single pass over them reaches
    every descendant. *)
Lemma leakGraph_forwardOrdered leak :
  (forall i j,
     NodeDetail.id (serialize i) = NodeDetail.id (serialize j) ->
     NodeDetail.distance (serialize i) = NodeDetail.distance (serialize j)) ->
  forwardOrdered (ForceGraph.links (leakGraph config serialize leak)).
Proof.
  intros Hid.
  destruct (leakGraph_shape config serialize leak) as (f & _ & _ & ->).
  unfold traverse.
  destruct (whileLoop_levelled leak
              (NodeDetail.distance (serialize (LeakPoint.index leak)))
              (hops config) 1 [LeakPoint.index leak]
              (Traversal.mk [] []
                 [(LeakPoint.index leak,
                   Biggest.mk (NodeDetail.id (serialize (LeakPoint.index leak)))
                     None None None
                     (NodeDetail.retainedSize (serialize (LeakPoint.index leak))))]
                 ∅ [])) as [bound Hlev].
  - intros i Hi. apply list_elem_of_singleton in Hi as ->. lia.
  - apply levelled_nil.
  - by eapply levelled_forwardOrdered.
Qed.
End LinkOrder.

(** X21.  On a graph that [createForceGraph] has built from details whose
    id fixes their distance, collapsing a node hides every other node that
    is reachable from it along the links, and leaves the nodes that are not
    reachable as they were. *)
Theorem collapse_on_built_graph config serialize leak data :
  (forall i j,
     NodeDetail.id (serialize i) = NodeDetail.id (serialize j) ->
     NodeDetail.distance (serialize i) = NodeDetail.distance (serialize j)) ->
  GraphNode.flag data = false ->
  let g := leakGraph config serialize leak in
  forall i n,
    ForceGraph.nodes g !! i = Some n ->
    GraphNode.id n <> GraphNode.id data ->
    (reach (ForceGraph.links g) (GraphNode.id data) (GraphNode.id n) ->
     ForceGraph.nodes (setExpandOff g data) !! i = Some (hidden n))
    /\ (~ reach (ForceGraph.links g) (GraphNode.id data) (GraphNode.id n) ->
        ForceGraph.nodes (setExpandOff g data) !! i = Some n).
Proof.
  intros Hids Hflag g.
  pose proof (leakGraph_forwardOrdered config serialize leak Hids) as Hord.
  fold g in Hord. clearbody g. intros i n Hn Hne.
  rewrite setExpandOff_collapse by done. simpl.
  rewrite lookup_map, Hn. simpl.
  destruct (String.eqb_spec (GraphNode.id n) (GraphNode.id data)) as [?|_]; [done|].
  destruct (inb _ _) eqn:Hin.
  - apply inb_elem_of, collapseTargets_sound in Hin. split; [done|]. by intros [].
  - apply inb_not_elem_of in Hin. split; [|done].
    intros Hreach. destruct Hin. by apply collapseTargets_complete.
Qed.

Lemma sample_heap_ids i j :
  NodeDetail.id (Sample.heap i) = NodeDetail.id (Sample.heap j) ->
  NodeDetail.distance (Sample.heap i) = NodeDetail.distance (Sample.heap j).
Proof.
  unfold Sample.heap, Sample.chain.
  destruct (i =? 5), (i =? 6), (j =? 5), (j =? 6); simpl; congruence.
Qed.

Lemma collapse_on_built_graph_witness :
  let g := leakGraph Sample.config2 Sample.heap Sample.leak5 in
  let data := GraphNode.mk 5 "@5" (Some true) "@5" 40 0 false false
                (Some "@5") (Some 40) in
  let n := GraphNode.mk 7 "@7" None "@7" 30 1 false true (Some "@7") (Some 30) in
  ForceGraph.nodes g !! 0%nat = Some data
  /\ ForceGraph.nodes g !! 2%nat = Some n
  /\ reach (ForceGraph.links g) "@5" "@7"
  /\ ForceGraph.nodes (setExpandOff g data) !! 2%nat = Some (hidden n).
Proof.
  intros g data n.
  assert (ForceGraph.nodes g !! 2%nat = Some n) as Hn by (vm_compute; reflexivity).
  assert (reach (ForceGraph.links g) "@5" "@7") as Hreach.
  { apply (reach_chain _ _ (GraphLink.mk "@6" "@7" 6 7 "b")).
    - vm_compute. right. left.
    - apply (reach_direct _ _ (GraphLink.mk "@5" "@6" 5 6 "a")); [|reflexivity].
      vm_compute. left.
    - discriminate. }
  split; [vm_compute; reflexivity|]. split; [exact Hn|]. split; [exact Hreach|].
  apply (collapse_on_built_graph Sample.config2 Sample.heap Sample.leak5 data
           sample_heap_ids eq_refl 2%nat n Hn).
  - discriminate.
  - exact Hreach.
Defined.

(** * Further properties of the accessor *)

Section SerializeNodeMore.
Context {Snapshot : Type}.
Variable analysisSerialize : Snapshot -> Z -> Z -> NodeDetail.t.
Variable jsHeapSnapShot : Snapshot.
Variable limit : Z.

Abbreviation accessor' := (serializeNode analysisSerialize jsHeapSnapShot limit).
Abbreviation run' := (serializeAll analysisSerialize jsHeapSnapShot limit).

Lemma serializeNode_stores index st :
  is_Some (NodeCache.cache (snd (accessor' index st)) !! index).
Proof.
  unfold serializeNode. destruct (NodeCache.cache st !! index) eqn:Hc; simpl.
  - by rewrite Hc.
  - by rewrite lookup_insert_eq.
Qed.

Lemma serializeAll_stores indices st i :
  i ∈ indices -> is_Some (NodeCache.cache (run' indices st) !! i).
Proof.
  revert st. induction indices as [|j indices IH]; intros st Hi; simpl.
  - by apply elem_of_nil in Hi.
  - apply elem_of_cons in Hi as [->|Hi]; [|by apply IH].
    destruct (serializeNode_stores j st) as [v Hv].
    rewrite (serializeAll_keeps analysisSerialize jsHeapSnapShot limit _ _ _ _ Hv).
    by eexists.
Qed.

(** X1.  Whatever calls an accessor has served, its cache holds exactly
    the indices that were asked for, each with the value of the primitive,
    and a call returns the value of the primitive at its index. *)
Theorem serializeNode_transparent (indices : list Z) (i : Z) :
  NodeCache.cache (run' indices NodeCache.empty) !! i
  = (if decide (i ∈ indices)
     then Some (analysisSerialize jsHeapSnapShot i limit) else None)
  /\ fst (accessor' i (run' indices NodeCache.empty))
     = analysisSerialize jsHeapSnapShot i limit.
Proof.
  split.
  - destruct (decide (i ∈ indices)) as [Hin|Hout].
    + destruct (serializeAll_stores indices NodeCache.empty i Hin) as [v Hv].
      rewrite Hv. f_equal. by eapply serializeAll_sound.
    + apply serializeAll_fresh; [|done]. simpl. apply lookup_empty.
  - unfold serializeNode.
    destruct (NodeCache.cache (run' indices NodeCache.empty) !! i) eqn:Hc;
      simpl; [|done].
    by eapply serializeAll_sound.
Qed.

Lemma serializeAll_log indices st :
  (NoDup (NodeCache.calls st)
   /\ forall i, i ∈ NodeCache.calls st <-> is_Some (NodeCache.cache st !! i)) ->
  NoDup (NodeCache.calls (run' indices st))
  /\ forall i, i ∈ NodeCache.calls (run' indices st)
               <-> is_Some (NodeCache.cache (run' indices st) !! i).
Proof.
  revert st. induction indices as [|j indices IH]; intros st [Hnodup Hkeys];
    simpl; [done|].
  apply IH. unfold serializeNode.
  destruct (NodeCache.cache st !! j) eqn:Hj; simpl; [done|]. split.
  - apply NoDup_app. split; [done|]. split; [|apply NoDup_singleton].
    intros x Hx Hx'. apply list_elem_of_singleton in Hx' as ->.
    apply Hkeys in Hx as [v Hv]. congruence.
  - intros i. rewrite elem_of_app, list_elem_of_singleton, Hkeys.
    destruct (decide (j = i)) as [->|Hne].
    + rewrite lookup_insert_eq. split; [by eexists|by right].
    + rewrite lookup_insert_ne by done. split; [|by left].
      intros [H|H]; [done|congruence].
Qed.

(** X2.  An accessor hands every index to the primitive at most once: the
    log of its calls to the primitive has no repetition, and lists exactly
    the indices that were asked for. *)
Theorem primitive_called_once (indices : list Z) :
  NoDup (NodeCache.calls (run' indices NodeCache.empty))
  /\ forall i, i ∈ NodeCache.calls (run' indices NodeCache.empty) <-> i ∈ indices.
Proof.
  destruct (serializeAll_log indices NodeCache.empty) as [Hnodup Hkeys].
  { simpl. split; [apply NoDup_nil_2|]. intros i. rewrite lookup_empty. split.
    - intros H. by apply elem_of_nil in H.
    - by intros [? ?]. }
  split; [done|]. intros i. rewrite Hkeys. split.
  - intros [v Hv]. destruct (decide (i ∈ indices)) as [?|Hout]; [done|].
    rewrite serializeAll_fresh in Hv; [done|apply lookup_empty|done].
  - apply serializeAll_stores.
Qed.
End SerializeNodeMore.

(** * Further properties of the toggle *)

Lemma Forall2_map_pointwise {A : Type} (R : A -> A -> Prop) (f : A -> A) l :
  (forall x, R x (f x)) -> Forall2 R l (map f l).
Proof. intros HR. induction l; simpl; constructor; auto. Qed.

(** X3.  A toggle changes visibility only: the links and the graph's index
    stay as they are, no node is added, removed or moved, and every node
    keeps its index, name, id, attributes, size, label and symbolSize. *)
Theorem toggle_keeps_identity g data :
  ForceGraph.links (setExpandOff g data) = ForceGraph.links g
  /\ ForceGraph.index (setExpandOff g data) = ForceGraph.index g
  /\ Forall2 sameIdentity (ForceGraph.nodes g)
       (ForceGraph.nodes (setExpandOff g data)).
Proof.
  destruct (GraphNode.flag data) eqn:Hflag.
  - rewrite setExpandOff_expand by done. do 2 (split; [done|]). simpl.
    apply Forall2_map_pointwise. intros n.
    destruct (String.eqb _ _); [by repeat split|].
    destruct (inb _ _); by repeat split.
  - rewrite setExpandOff_collapse by done. do 2 (split; [done|]). simpl.
    apply Forall2_map_pointwise. intros n.
    destruct (String.eqb _ _); [by repeat split|].
    destruct (inb _ _); by repeat split.
Qed.

Lemma expandTargets_collapseTargets links root x :
  x ∈ expandTargets links root -> x ∈ collapseTargets links root.
Proof.
  intros Hx. apply expandTargets_elem_of in Hx as (l & Hl & Hs & <-).
  by apply collapse_fold_direct.
Qed.

(** X4.  Expanding a node and then toggling it again gives the graph that
    collapsing it straight away gives: the second toggle undoes all the
    first one did and hides the collected descendants. *)
Theorem expand_then_collapse g data data' :
  GraphNode.flag data = true ->
  GraphNode.id data' = GraphNode.id data ->
  GraphNode.flag data' = false ->
  setExpandOff (setExpandOff g data) data' = setExpandOff g data'.
Proof.
  intros Hflag Hid Hflag'.
  rewrite (setExpandOff_collapse (setExpandOff g data)) by done.
  rewrite (setExpandOff_collapse g data') by done.
  rewrite setExpandOff_expand by done.
  unfold ForceGraph.withNodes. simpl. rewrite map_map, Hid. f_equal.
  apply map_ext. intros n.
  destruct (String.eqb (GraphNode.id n) (GraphNode.id data)) eqn:Hself.
  - simpl. rewrite Hself. by destruct n.
  - destruct (inb (GraphNode.id n) (expandTargets _ _)) eqn:Hdirect; simpl;
      rewrite Hself; [|done].
    apply inb_elem_of, expandTargets_collapseTargets, inb_elem_of in Hdirect.
    rewrite Hdirect. by destruct n.
Qed.

Lemma expand_then_collapse_witness :
  GraphNode.flag (Sample.node "b" false true 1) = true
  /\ setExpandOff
       (setExpandOff Sample.chainGraph (Sample.node "b" false true 1))
       (Sample.node "b" false false 0)
     = setExpandOff Sample.chainGraph (Sample.node "b" false false 0).
Proof.
  split; [reflexivity|].
  by apply (expand_then_collapse Sample.chainGraph
              (Sample.node "b" false true 1) (Sample.node "b" false false 0)).
Defined.

(** X5.  In whatever order the links are listed, collapsing a node hides
    every other node that a link leaving the toggled node points at, and
    leaves alone every other node that is not reachable from it. *)
Theorem collapse_any_order g data i n :
  GraphNode.flag data = false ->
  ForceGraph.nodes g !! i = Some n ->
  GraphNode.id n <> GraphNode.id data ->
  ((exists l, l ∈ ForceGraph.links g
              /\ GraphLink.source l = GraphNode.id data
              /\ GraphLink.target l = GraphNode.id n) ->
   ForceGraph.nodes (setExpandOff g data) !! i = Some (hidden n))
  /\ (~ reach (ForceGraph.links g) (GraphNode.id data) (GraphNode.id n) ->
      ForceGraph.nodes (setExpandOff g data) !! i = Some n).
Proof.
  intros Hflag Hn Hne. rewrite setExpandOff_collapse by done. simpl.
  rewrite lookup_map, Hn. simpl.
  destruct (String.eqb_spec (GraphNode.id n) (GraphNode.id data)); [done|].
  split.
  - intros (l & Hl & Hs & Ht).
    assert (inb (GraphNode.id n)
              (collapseTargets (ForceGraph.links g) (GraphNode.id data)) = true)
      as ->; [|done].
    apply inb_elem_of. rewrite <- Ht. by apply collapse_fold_direct.
  - intros Hnot. destruct (inb _ _) eqn:Hin; [|done].
    apply inb_elem_of, collapseTargets_sound in Hin. by destruct Hnot.
Qed.

Lemma collapse_any_order_witness :
  ForceGraph.nodes
    (setExpandOff Sample.reversedGraph (Sample.node "a" false false 0)) !! 1%nat
  = Some (hidden (Sample.node "b" false false 0)).
Proof.
  apply (collapse_any_order Sample.reversedGraph (Sample.node "a" false false 0)
           1%nat (Sample.node "b" false false 0)); [reflexivity..|discriminate|].
  exists (Sample.link "a" "b"). split; [right; left|by split].
Defined.

(** X6.  [catchNode] finds nothing exactly when no node has the index;
    what it finds is the first node of the list with that index. *)
Theorem catchNode_first (nodes : list GraphNode.t) (value : Z) :
  (catchNode nodes value = None
   <-> forall n, n ∈ nodes -> GraphNode.index n <> value)
  /\ forall n,
       catchNode nodes value = Some n ->
       exists pre post,
         nodes = pre ++ n :: post /\ GraphNode.index n = value
         /\ forall m, m ∈ pre -> GraphNode.index m <> value.
Proof.
  unfold catchNode. induction nodes as [|x nodes [IHnone IHsome]].
  - split; [split; [intros _ n Hn; by apply elem_of_nil in Hn|done]|done].
  - destruct (decide (GraphNode.index x = value)) as [Hx|Hx].
    + rewrite filter_cons_True by done. simpl. split.
      * split; [done|]. intros H. destruct (H x); [left|done].
      * intros n [= <-]. exists [], nodes. split; [done|]. split; [done|].
        intros m Hm. by apply elem_of_nil in Hm.
    + rewrite filter_cons_False by done. split.
      * rewrite IHnone. split.
        -- intros H n Hn. apply elem_of_cons in Hn as [->|Hn]; auto.
        -- intros H n Hn. apply H. by right.
      * intros n Hn. destruct (IHsome n Hn) as (pre & post & -> & Hi & Hpre).
        exists (x :: pre), post. split; [done|]. split; [done|].
        intros m Hm. apply elem_of_cons in Hm as [->|Hm]; auto.
Qed.

Lemma toggleState_steps n :
  toggleState n ->
  toggleState (expanded n) /\ toggleState (collapsed n)
  /\ toggleState (revealed n) /\ toggleState (hidden n).
Proof.
  intros [Hcat Hflag]. unfold toggleState. simpl.
  repeat split; auto; discriminate.
Qed.

Lemma setExpandOff_toggleState g data :
  Forall toggleState (ForceGraph.nodes g) ->
  Forall toggleState (ForceGraph.nodes (setExpandOff g data)).
Proof.
  rewrite !Forall_forall. intros Hg n' Hn'.
  assert (exists n, n ∈ ForceGraph.nodes g
                    /\ (n' = expanded n \/ n' = collapsed n \/ n' = revealed n
                        \/ n' = hidden n \/ n' = n)) as (n & Hn & Hcase).
  { destruct (GraphNode.flag data) eqn:Hflag.
    - rewrite setExpandOff_expand in Hn' by done. simpl in Hn'.
      apply elem_of_map in Hn' as (n & -> & Hn). exists n. split; [done|].
      destruct (String.eqb _ _); [by left|]. destruct (inb _ _); auto.
    - rewrite setExpandOff_collapse in Hn' by done. simpl in Hn'.
      apply elem_of_map in Hn' as (n & -> & Hn). exists n. split; [done|].
      destruct (String.eqb _ _); [auto|]. destruct (inb _ _); auto 6. }
  destruct (toggleState_steps n (Hg n Hn)) as (He & Hc & Hr & Hh).
  destruct Hcase as [->|[->|[->|[->| ->]]]]; auto.
Qed.

(** X7.  A toggle keeps the nodes in the states of the state machine: when
    every node has category 0 or 1 and every node with a cleared flag is
    shown and of category 0, the same holds after the toggle. *)
Theorem toggle_keeps_states g data :
  Forall toggleState (ForceGraph.nodes g) ->
  Forall toggleState (ForceGraph.nodes (setExpandOff g data)).
Proof. apply setExpandOff_toggleState. Qed.

Lemma toggle_keeps_states_witness :
  Forall toggleState (ForceGraph.nodes Sample.leafGraph)
  /\ Forall toggleState
       (ForceGraph.nodes
          (setExpandOff Sample.leafGraph (Sample.node "b" false false 0))).
Proof.
  assert (Forall toggleState (ForceGraph.nodes Sample.leafGraph)) as Hg.
  { repeat constructor; simpl; auto; discriminate. }
  split; [exact Hg|].
  exact (toggle_keeps_states Sample.leafGraph (Sample.node "b" false false 0) Hg).
Defined.

(** * Further properties of the graph builder *)

Section BuilderMore.
Variable config : Config.t.
Variable serialize : Z -> NodeDetail.t.

Abbreviation build := (createForceGraph config serialize).
Abbreviation graphOf := (leakGraph config serialize).
Abbreviation walk := (traverse config serialize).

(** The two results of [createForceGraph] are built independently of each
    other. *)
Lemma createForceGraph_split heapUsed leakPoint :
  build heapUsed leakPoint
  = (fold_left (fun h leak => recordHeapUsed serialize (Traversal.nodes (walk leak)) h)
       leakPoint heapUsed,
     fold_left (fun m leak => <[leakKey serialize leak := graphOf leak]> m)
       leakPoint ∅).
Proof.
  unfold createForceGraph.
  generalize (∅ : gmap string ForceGraph.t) as table. revert heapUsed.
  induction leakPoint as [|leak leakPoint IH]; intros h table; simpl; [done|].
  apply IH.
Qed.

Lemma table_lookup (leakPoint : list LeakPoint.t) (table : gmap string ForceGraph.t) key :
  fold_left (fun m leak => <[leakKey serialize leak := graphOf leak]> m)
    leakPoint table !! key
  = match last (filter (fun leak => leakKey serialize leak = key) leakPoint) with
    | Some leak => Some (graphOf leak)
    | None => table !! key
    end.
Proof.
  revert table. induction leakPoint as [|leak leakPoint IH]; intros table; simpl;
    [done|].
  rewrite IH. destruct (decide (leakKey serialize leak = key)) as [Hk|Hk].
  - rewrite filter_cons_True by done.
    destruct (filter _ leakPoint) as [|x rest] eqn:Hf; simpl.
    + by rewrite <- Hk, lookup_insert_eq.
    + destruct (last (x :: rest)) eqn:Hl; [done|]. by apply last_None in Hl.
  - rewrite filter_cons_False by done.
    destruct (last _); [done|]. by rewrite lookup_insert_ne.
Qed.

(** X8.  The table is keyed by the [name::id] of the leak points: an entry
    is the graph of a leak point with that key and carries that leak
    point's index, and every leak point has an entry under its key. *)
Theorem table_keyed_by_leak heapUsed leakPoint :
  (forall key g,
     snd (build heapUsed leakPoint) !! key = Some g ->
     exists leak,
       leak ∈ leakPoint /\ key = leakKey serialize leak /\ g = graphOf leak
       /\ ForceGraph.index g = Some (LeakPoint.index leak))
  /\ forall leak,
       leak ∈ leakPoint ->
       is_Some (snd (build heapUsed leakPoint) !! leakKey serialize leak).
Proof.
  rewrite createForceGraph_split. simpl. split.
  - intros key g. rewrite table_lookup, lookup_empty.
    destruct (last _) as [leak|] eqn:Hlast; [|done]. intros [= <-].
    apply last_Some in Hlast as [pre Hpre].
    assert (leak ∈ filter (fun leak => leakKey serialize leak = key) leakPoint)
      as Hin by (rewrite Hpre; apply elem_of_app; right; left).
    apply list_elem_of_filter in Hin as [Hkey Hin]. by exists leak.
  - intros leak Hleak. rewrite table_lookup.
    destruct (last _) as [leak'|] eqn:Hlast; [by eexists|].
    apply last_None in Hlast.
    assert (leak ∈ filter (fun l => leakKey serialize l = leakKey serialize leak)
                     leakPoint) as Hin by (by apply list_elem_of_filter).
    rewrite Hlast in Hin. by apply elem_of_nil in Hin.
Qed.

(** X9.  When two leak points have the same [name::id], the later one
    replaces the graph of the earlier one: the entry under a key is the
    graph of the last leak point with that key. *)
Theorem table_last_wins heapUsed before leak after :
  (forall other, other ∈ after ->
                 leakKey serialize other <> leakKey serialize leak) ->
  snd (build heapUsed (before ++ leak :: after)) !! leakKey serialize leak
  = Some (graphOf leak).
Proof.
  intros Hafter. rewrite createForceGraph_split. simpl.
  rewrite table_lookup, filter_app, filter_cons_True by done.
  assert (filter (fun l => leakKey serialize l = leakKey serialize leak) after = [])
    as ->.
  { induction after as [|x after IH]; [done|].
    rewrite filter_cons_False by (apply Hafter; left).
    apply IH. intros other Hother. apply Hafter. by right. }
  by rewrite last_snoc.
Qed.
End BuilderMore.

Lemma table_last_wins_witness :
  (forall other, other ∈ [Sample.leak5] ->
                 leakKey Sample.heap other
                 <> leakKey Sample.heap (LeakPoint.mk 8 None))
  /\ snd (createForceGraph Sample.config2 Sample.heap ∅
            ([LeakPoint.mk 7 None] ++ LeakPoint.mk 8 None :: [Sample.leak5]))
     !! "Leaf::@7"
     = Some (leakGraph Sample.config2 Sample.heap (LeakPoint.mk 8 None)).
Proof.
  assert (forall other, other ∈ [Sample.leak5] ->
                        leakKey Sample.heap other
                        <> leakKey Sample.heap (LeakPoint.mk 8 None)) as Hafter.
  { intros other Hother. apply list_elem_of_singleton in Hother as ->.
    discriminate. }
  split; [exact Hafter|].
  exact (table_last_wins Sample.config2 Sample.heap ∅ [LeakPoint.mk 7 None]
           (LeakPoint.mk 8 None) [Sample.leak5] Hafter).
Defined.

Section HeapUsedFacts.
Variable config : Config.t.
Variable serialize : Z -> NodeDetail.t.

Lemma recordHeapUsed_lookup nodes (heapUsed : gmap Z NodeDetail.t) k :
  recordHeapUsed serialize nodes heapUsed !! k
  = if decide (k ∈ map GraphNode.index nodes) then Some (serialize k)
    else heapUsed !! k.
Proof.
  unfold recordHeapUsed. revert heapUsed.
  induction nodes as [|n nodes IH]; intros h; cbn [fold_left map].
  - destruct (decide (k ∈ [])) as [Hin|_]; [by apply elem_of_nil in Hin|done].
  - rewrite IH.
    destruct (decide (k ∈ map GraphNode.index nodes)) as [Hin|Hout];
      destruct (decide (k ∈ GraphNode.index n :: map GraphNode.index nodes))
        as [Hin'|Hout'].
    + done.
    + destruct Hout'. by right.
    + apply elem_of_cons in Hin' as [->|Hin']; [|done]. apply lookup_insert_eq.
    + apply lookup_insert_ne. intros Heq. destruct Hout'. rewrite Heq. left.
Qed.

Lemma leakGraph_indices leak :
  map GraphNode.index (ForceGraph.nodes (leakGraph config serialize leak))
  = map GraphNode.index (Traversal.nodes (traverse config serialize leak)).
Proof.
  destruct (leakGraph_shape config serialize leak) as (f & -> & Hf & _).
  rewrite map_map. apply map_ext. intros n. apply Hf.
Qed.

Lemma heapUsed_fold_written leakPoint (heapUsed : gmap Z NodeDetail.t) k :
  heapUsed !! k = Some (serialize k)
  \/ (exists leak,
        leak ∈ leakPoint
        /\ k ∈ map GraphNode.index
                 (Traversal.nodes (traverse config serialize leak))) ->
  fold_left
    (fun h leak =>
       recordHeapUsed serialize (Traversal.nodes (traverse config serialize leak)) h)
    leakPoint heapUsed !! k
  = Some (serialize k).
Proof.
  revert heapUsed. induction leakPoint as [|leak leakPoint IH]; intros h H; simpl.
  - destruct H as [H|(leak & Hleak & _)]; [done|]. by apply elem_of_nil in Hleak.
  - apply IH. rewrite recordHeapUsed_lookup.
    case_decide as Hin; [by left|].
    destruct H as [H|(leak' & Hleak' & Hk)]; [by left|].
    apply elem_of_cons in Hleak' as [->|Hleak']; [done|].
    right. by exists leak'.
Qed.

Lemma heapUsed_fold_frame leakPoint (heapUsed : gmap Z NodeDetail.t) k :
  (forall leak,
     leak ∈ leakPoint ->
     k ∉ map GraphNode.index (Traversal.nodes (traverse config serialize leak))) ->
  fold_left
    (fun h leak =>
       recordHeapUsed serialize (Traversal.nodes (traverse config serialize leak)) h)
    leakPoint heapUsed !! k
  = heapUsed !! k.
Proof.
  revert heapUsed. induction leakPoint as [|leak leakPoint IH]; intros h H; simpl;
    [done|].
  rewrite IH by (intros leak' Hleak'; apply H; by right).
  rewrite recordHeapUsed_lookup, decide_False; [done|]. apply H. left.
Qed.

(** X10.  After [createForceGraph], [heapUsed] holds the materialized
    detail of every node of every leak point's graph, under that node's
    index, whatever it held there before. *)
Theorem heapUsed_holds_graph_nodes heapUsed leakPoint leak n :
  leak ∈ leakPoint ->
  n ∈ ForceGraph.nodes (leakGraph config serialize leak) ->
  fst (createForceGraph config serialize heapUsed leakPoint) !! GraphNode.index n
  = Some (serialize (GraphNode.index n)).
Proof.
  intros Hleak Hn. rewrite createForceGraph_split. simpl.
  apply heapUsed_fold_written. right. exists leak. split; [done|].
  rewrite <- leakGraph_indices. apply elem_of_map. by exists n.
Qed.

(** X11.  [createForceGraph] writes to [heapUsed] at the indices of graph
    nodes only: an index that no node of any leak point's graph carries
    keeps its entry, or stays absent. *)
Theorem heapUsed_frame heapUsed leakPoint k :
  (forall leak n,
     leak ∈ leakPoint ->
     n ∈ ForceGraph.nodes (leakGraph config serialize leak) ->
     GraphNode.index n <> k) ->
  fst (createForceGraph config serialize heapUsed leakPoint) !! k = heapUsed !! k.
Proof.
  intros H. rewrite createForceGraph_split. simpl.
  apply heapUsed_fold_frame. intros leak Hleak.
  rewrite <- leakGraph_indices. intros Hk.
  apply elem_of_map in Hk as (n & -> & Hn). by destruct (H leak n Hleak Hn).
Qed.

(** Entries that are the detail of their key stay so. *)
Lemma heapUsed_fold_consistent leakPoint (heapUsed : gmap Z NodeDetail.t) :
  (forall k v, heapUsed !! k = Some v -> v = serialize k) ->
  forall k v,
    fold_left
      (fun h leak =>
         recordHeapUsed serialize (Traversal.nodes (traverse config serialize leak)) h)
      leakPoint heapUsed !! k = Some v ->
    v = serialize k.
Proof.
  revert heapUsed. induction leakPoint as [|leak leakPoint IH]; intros h Hh; simpl;
    [done|].
  apply IH. intros k v. rewrite recordHeapUsed_lookup.
  case_decide; [congruence|apply Hh].
Qed.

Lemma heapUsed_fold_keeps leakPoint (heapUsed : gmap Z NodeDetail.t) k :
  is_Some (heapUsed !! k) ->
  is_Some
    (fold_left
       (fun h leak =>
          recordHeapUsed serialize (Traversal.nodes (traverse config serialize leak)) h)
       leakPoint heapUsed !! k).
Proof.
  revert heapUsed. induction leakPoint as [|leak leakPoint IH]; intros h Hh; simpl;
    [done|].
  apply IH. rewrite recordHeapUsed_lookup. by case_decide.
Qed.
End HeapUsedFacts.

Lemma heapUsed_holds_graph_nodes_witness :
  fst (createForceGraph Sample.config2 Sample.heap ∅ [Sample.leak5]) !! 7
  = Some (Sample.heap 7).
Proof.
  apply (heapUsed_holds_graph_nodes Sample.config2 Sample.heap ∅ [Sample.leak5]
           Sample.leak5
           (GraphNode.mk 7 "@7" None "@7" 30 1 false true (Some "@7") (Some 30))).
  - left.
  - vm_compute. right. right. left.
Defined.

Lemma heapUsed_frame_witness :
  fst (createForceGraph Sample.config1 Sample.heap {[7 := Sample.heap 5]}
         [Sample.leak5]) !! 7
  = Some (Sample.heap 5).
Proof.
  rewrite (heapUsed_frame Sample.config1 Sample.heap {[7 := Sample.heap 5]}
             [Sample.leak5] 7).
  - reflexivity.
  - intros leak n Hleak Hn. apply list_elem_of_singleton in Hleak as ->.
    vm_compute in Hn.
    repeat (apply elem_of_cons in Hn as [->|Hn]); try discriminate.
    by apply elem_of_nil in Hn.
Defined.

Section BuiltGraphs.
Variable config : Config.t.
Variable serialize : Z -> NodeDetail.t.

Lemma preExpand_no_nodes biggestList links index :
  preExpand biggestList (ForceGraph.mk [] links index)
  = ForceGraph.mk [] links index.
Proof.
  unfold preExpand.
  by apply (fold_left_invariant (fun g => g = ForceGraph.mk [] links index));
    [|intros g k _ ->].
Qed.

(** X12.  With a [distance_limit] of 0 or less the loop never runs: every
    leak point gets a graph without nodes and without links, and
    [heapUsed] is returned as it was passed. *)
Theorem nonpositive_limit_gives_empty_graphs heapUsed leakPoint leak :
  Config.distance_limit config <= 0 ->
  fst (createForceGraph config serialize heapUsed leakPoint) = heapUsed
  /\ leakGraph config serialize leak
     = ForceGraph.mk [] [] (Some (LeakPoint.index leak)).
Proof.
  intros Hlimit.
  assert (forall l, Traversal.nodes (traverse config serialize l) = []
                    /\ Traversal.links (traverse config serialize l) = [])
    as Hwalk.
  { intros l. unfold traverse.
    replace (hops config) with 0%nat by (unfold hops; lia). done. }
  split.
  - rewrite createForceGraph_split. simpl. revert heapUsed.
    induction leakPoint as [|l leakPoint IH]; intros h; simpl; [done|].
    rewrite IH. by destruct (Hwalk l) as [-> _].
  - unfold leakGraph. destruct (Hwalk leak) as [-> ->].
    by rewrite preExpand_no_nodes.
Qed.

Lemma traverse_plain leak n :
  n ∈ Traversal.nodes (traverse config serialize leak) -> plainId (GraphNode.id n).
Proof.
  revert n. unfold traverse.
  apply (whileLoop_invariant config serialize
           (fun st => forall n, n ∈ Traversal.nodes st -> plainId (GraphNode.id n))).
  - done.
  - intros st index Hst Hfresh n. simpl.
    rewrite elem_of_app, list_elem_of_singleton. intros [Hn| ->]; [auto|].
    unfold isRecordedGet in Hfresh. by apply orb_false_iff in Hfresh as [? _].
  - intros dd index st child _ Hst n. unfold childStep.
    destruct (_ =? _); [destruct (isRecordedGet _ _) eqn:Hfresh|]; simpl; auto.
    rewrite elem_of_app, list_elem_of_singleton. intros [Hn| ->]; [auto|].
    unfold isRecordedGet in Hfresh. by apply orb_false_iff in Hfresh as [? _].
  - simpl. intros n Hn. by apply elem_of_nil in Hn.
Qed.

(** X13.  A detail whose id is the name of a property that every object
    inherits ([constructor], [toString], [__proto__], ...) never becomes a
    node: the id of every node of every returned graph is none of these
    names. *)
Theorem node_ids_not_inherited heapUsed leakPoint key g n :
  snd (createForceGraph config serialize heapUsed leakPoint) !! key = Some g ->
  n ∈ ForceGraph.nodes g ->
  plainId (GraphNode.id n).
Proof.
  intros Hg Hn. apply createForceGraph_graphs in Hg as (leak & _ & ->).
  destruct (leakGraph_shape config serialize leak) as (f & Hnodes & Hid & _).
  rewrite Hnodes in Hn. apply elem_of_map in Hn as (m & -> & Hm).
  destruct (Hid m) as (_ & _ & -> & _). by eapply traverse_plain.
Qed.

Lemma leakGraph_identity leak :
  exists f,
    ForceGraph.nodes (leakGraph config serialize leak)
    = map (fun n => GraphNode.setAliases (f n))
        (Traversal.nodes (traverse config serialize leak))
    /\ forall n, sameIdentity n (f n).
Proof.
  unfold leakGraph.
  destruct (preExpand_shape
              (Traversal.biggestList (traverse config serialize leak))
              (ForceGraph.mk (Traversal.nodes (traverse config serialize leak))
                 (Traversal.links (traverse config serialize leak)) None))
    as (f & Hn & Hid & _).
  exists f. simpl. split; [by rewrite Hn, map_map|done].
Qed.

Lemma traverse_sizes leak n :
  n ∈ Traversal.nodes (traverse config serialize leak) ->
  (GraphNode.size n = 40 /\ GraphNode.isMain n = Some true
   /\ GraphNode.index n = LeakPoint.index leak)
  \/ (GraphNode.size n = 30 /\ GraphNode.isMain n <> Some true).
Proof.
  revert n. unfold traverse.
  apply (whileLoop_invariant config serialize
           (fun st =>
              forall n, n ∈ Traversal.nodes st ->
                (GraphNode.size n = 40 /\ GraphNode.isMain n = Some true
                 /\ GraphNode.index n = LeakPoint.index leak)
                \/ (GraphNode.size n = 30 /\ GraphNode.isMain n <> Some true))).
  - done.
  - intros st index Hst _ n. simpl.
    rewrite elem_of_app, list_elem_of_singleton. intros [Hn| ->]; [auto|].
    unfold parentNode. simpl. case_bool_decide as Hmain; [left|right]; done.
  - intros dd index st child _ Hst n. unfold childStep.
    destruct (_ =? _); [destruct (isRecordedGet _ _)|]; simpl; auto.
    rewrite elem_of_app, list_elem_of_singleton. intros [Hn| ->]; [auto|].
    by right.
  - simpl. intros n Hn. by apply elem_of_nil in Hn.
Qed.

(** X14.  In every returned graph a node's [symbolSize] is its [size]; the
    size is 40 for a node marked as main, which then carries the index of
    the graph's leak point, and 30 for every other node. *)
Theorem node_sizes heapUsed leakPoint key g n :
  snd (createForceGraph config serialize heapUsed leakPoint) !! key = Some g ->
  n ∈ ForceGraph.nodes g ->
  GraphNode.symbolSize n = Some (GraphNode.size n)
  /\ ((GraphNode.size n = 40 /\ GraphNode.isMain n = Some true
       /\ ForceGraph.index g = Some (GraphNode.index n))
      \/ (GraphNode.size n = 30 /\ GraphNode.isMain n <> Some true)).
Proof.
  intros Hg Hn. apply createForceGraph_graphs in Hg as (leak & _ & ->).
  destruct (leakGraph_identity leak) as (f & Hnodes & Hid).
  rewrite Hnodes in Hn. apply elem_of_map in Hn as (m & -> & Hm).
  destruct (Hid m) as (Hi & _ & _ & Hmain & Hsize & _).
  split; [done|]. simpl. rewrite Hi, Hmain, Hsize.
  destruct (traverse_sizes leak m Hm) as [(? & ? & ->)|?]; auto.
Qed.

(** X15.  The leak point is always a key of [biggestList], with its own
    materialized retained size, so it is always handed to the
    pre-expansion. *)
Theorem leak_is_biggest leak :
  (exists e,
     bl_get (Traversal.biggestList (traverse config serialize leak))
       (LeakPoint.index leak) = Some e
     /\ Biggest.retainedSize e
        = NodeDetail.retainedSize (serialize (LeakPoint.index leak)))
  /\ LeakPoint.index leak
     ∈ objectKeys (Traversal.biggestList (traverse config serialize leak)).
Proof.
  assert (is_Some (bl_get (Traversal.biggestList (traverse config serialize leak))
                     (LeakPoint.index leak))) as [e He].
  { unfold traverse.
    apply (whileLoop_invariant config serialize
             (fun st => is_Some (bl_get (Traversal.biggestList st)
                                   (LeakPoint.index leak)))).
    - done.
    - done.
    - intros dd index st child _ Hst. rewrite childStep_biggestList.
      destruct (isBiggest _ _ _ _ _); [|done].
      rewrite bl_get_set. by destruct (_ =? _).
    - simpl. rewrite Z.eqb_refl. by eexists. }
  split.
  - exists e. split; [done|].
    by destruct (traverse_biggestList config serialize leak _ e He) as [-> _].
  - apply objectKeys_elem_of. by eexists.
Qed.

Lemma preExpand_toggleState biggestList g :
  Forall toggleState (ForceGraph.nodes g) ->
  Forall toggleState (ForceGraph.nodes (preExpand biggestList g)).
Proof.
  intros Hg. unfold preExpand.
  apply (fold_left_invariant
           (fun g => Forall toggleState (ForceGraph.nodes g))); [done|].
  intros g' k _ Hg'. destruct (catchNode _ _); [|done].
  by apply setExpandOff_toggleState.
Qed.

Lemma traverse_toggleState leak :
  Forall toggleState (Traversal.nodes (traverse config serialize leak)).
Proof.
  unfold traverse.
  apply (whileLoop_invariant config serialize
           (fun st => Forall toggleState (Traversal.nodes st))).
  - done.
  - intros st index Hst _. simpl. apply Forall_app. split; [done|].
    constructor; [|done]. unfold toggleState, parentNode. simpl.
    split; [case_bool_decide; auto|discriminate].
  - intros dd index st child _ Hst. unfold childStep.
    destruct (_ =? _); [destruct (isRecordedGet _ _)|]; simpl; auto.
    apply Forall_app. split; [done|]. constructor; [|done].
    unfold toggleState. simpl. split; [auto|discriminate].
  - simpl. constructor.
Qed.

(** X16.  Every node of every returned graph is in a state of the state
    machine: its category is 0 or 1, and a node whose flag is cleared (an
    expanded node) is shown and has category 0. *)
Theorem built_nodes_in_toggle_states heapUsed leakPoint key g :
  snd (createForceGraph config serialize heapUsed leakPoint) !! key = Some g ->
  Forall toggleState (ForceGraph.nodes g).
Proof.
  intros Hg. apply createForceGraph_graphs in Hg as (leak & _ & ->).
  unfold leakGraph. simpl. rewrite Forall_forall. intros n Hn.
  apply elem_of_map in Hn as (m & -> & Hm).
  assert (toggleState m) as Hstate; [|done].
  revert m Hm. rewrite <- Forall_forall.
  apply preExpand_toggleState. simpl. apply traverse_toggleState.
Qed.
End BuiltGraphs.

(** ** The pre-expansion only expands *)

Lemma bl_set_NoDup k v bl :
  NoDup (map fst bl) -> NoDup (map fst (bl_set k v bl)).
Proof.
  induction bl as [|[k0 v0] bl IH]; simpl; intros Hnodup.
  - apply NoDup_singleton.
  - apply NoDup_cons in Hnodup as [Hk0 Hnodup].
    destruct (Z.eqb_spec k0 k) as [->|Hne]; simpl.
    + by apply NoDup_cons.
    + apply NoDup_cons. split; [|by apply IH].
      rewrite <- bl_get_elem_of, bl_get_set.
      destruct (Z.eqb_spec k k0) as [?|_]; [congruence|].
      by rewrite bl_get_elem_of.
Qed.

Lemma objectKeys_NoDup bl : NoDup (map fst bl) -> NoDup (objectKeys bl).
Proof.
  intros Hnodup. unfold objectKeys. apply NoDup_app. split; [|split].
  - rewrite merge_sort_Permutation. by apply NoDup_filter.
  - intros k. rewrite merge_sort_Permutation, !list_elem_of_filter.
    intros [Hk _] [Hk' _]. congruence.
  - by apply NoDup_filter.
Qed.

Lemma traverse_keys_NoDup config serialize leak :
  NoDup (map fst (Traversal.biggestList (traverse config serialize leak))).
Proof.
  unfold traverse.
  apply (whileLoop_invariant config serialize
           (fun st => NoDup (map fst (Traversal.biggestList st)))).
  - done.
  - done.
  - intros dd index st child _ Hst. rewrite childStep_biggestList.
    destruct (isBiggest _ _ _ _ _); [|done]. by apply bl_set_NoDup.
  - simpl. apply NoDup_singleton.
Qed.

(** After the rounds for the keys [keys], each of them once, the nodes whose
    flag is cleared carry one of these keys as their index. *)
Lemma preExpandStep_flags keys g :
  NoDup keys ->
  NoDup (map GraphNode.id (ForceGraph.nodes g)) ->
  (forall n, n ∈ ForceGraph.nodes g -> GraphNode.flag n = true) ->
  NoDup (map GraphNode.id (ForceGraph.nodes (fold_left preExpandStep keys g)))
  /\ forall n,
       n ∈ ForceGraph.nodes (fold_left preExpandStep keys g) ->
       GraphNode.flag n = false -> GraphNode.index n ∈ keys.
Proof.
  intros Hkeys Hnodup Hflags.
  induction keys as [|k keys IH] using rev_ind; simpl.
  - split; [done|]. intros n Hn Hflag. rewrite (Hflags n Hn) in Hflag. done.
  - apply NoDup_app in Hkeys as (Hkeys & Hfresh & _).
    destruct (IH Hkeys) as [Hnodup' Hdone].
    rewrite fold_left_app. simpl. unfold preExpandStep at 1 3.
    destruct (catchNode _ k) as [data|] eqn:Hcatch.
    2:{ split; [done|]. intros n Hn Hflag. apply elem_of_app. left. by apply Hdone. }
    apply catchNode_Some in Hcatch as [Hdata Hindex].
    assert (GraphNode.flag data = true) as Hflag.
    { destruct (GraphNode.flag data) eqn:Hflag; [done|].
      destruct (Hfresh k); [|left]. rewrite <- Hindex. by apply Hdone. }
    rewrite setExpandOff_expand by done. simpl. split.
    + rewrite map_map. erewrite map_ext; [exact Hnodup'|].
      intros n. simpl. destruct (String.eqb _ _); [done|]. by destruct (inb _ _).
    + intros n' Hn' Hflag'. apply elem_of_map in Hn' as (n & -> & Hn).
      apply elem_of_app.
      destruct (String.eqb_spec (GraphNode.id n) (GraphNode.id data)) as [Heq|Hne].
      * right. rewrite (NoDup_ids_inj _ n data Hnodup' Hn Hdata Heq). simpl.
        rewrite Hindex. left.
      * destruct (inb _ _); [done|]. left. by apply Hdone.
Qed.

(** X22.  The pre-expansion is the loop of [preExpandStep] over the keys of
    [biggestList], and every node it hands to [setExpandOff] has
    [flag=true]: during the construction of a graph the toggle only ever
    takes its Expand branch. *)
Theorem preExpand_expands_only config serialize leak :
  let st := traverse config serialize leak in
  let g := ForceGraph.mk (Traversal.nodes st) (Traversal.links st) None in
  preExpand (Traversal.biggestList st) g
  = fold_left preExpandStep (objectKeys (Traversal.biggestList st)) g
  /\ forall before k after data,
       objectKeys (Traversal.biggestList st) = before ++ k :: after ->
       catchNode (ForceGraph.nodes (fold_left preExpandStep before g)) k
       = Some data ->
       GraphNode.flag data = true.
Proof.
  intros st g. split; [done|]. intros before k after data Hkeys Hcatch.
  pose proof (objectKeys_NoDup _ (traverse_keys_NoDup config serialize leak))
    as Hnodup.
  fold st in Hnodup. rewrite Hkeys in Hnodup.
  apply NoDup_app in Hnodup as (Hbefore & Hfresh & _).
  destruct (preExpandStep_flags before g Hbefore) as [_ Hdone].
  - apply traverse_ids.
  - intros n Hn. by destruct (traverse_waiting config serialize leak n Hn).
  - apply catchNode_Some in Hcatch as [Hdata Hindex].
    destruct (GraphNode.flag data) eqn:Hflag; [done|].
    destruct (Hfresh k); [|left]. rewrite <- Hindex. by apply Hdone.
Qed.

Lemma preExpand_expands_only_witness :
  let st := traverse Sample.config2 Sample.heap Sample.leak5 in
  let g := ForceGraph.mk (Traversal.nodes st) (Traversal.links st) None in
  let data := GraphNode.mk 6 "@6" (Some false) "@6" 30 1 false true None None in
  objectKeys (Traversal.biggestList st) = [5] ++ 6 :: []
  /\ catchNode (ForceGraph.nodes (fold_left preExpandStep [5] g)) 6 = Some data
  /\ GraphNode.flag data = true.
Proof.
  intros st g data.
  assert (objectKeys (Traversal.biggestList st) = [5] ++ 6 :: []) as Hkeys
    by (vm_compute; reflexivity).
  assert (catchNode (ForceGraph.nodes (fold_left preExpandStep [5] g)) 6 = Some data)
    as Hcatch by (vm_compute; reflexivity).
  split; [exact Hkeys|]. split; [exact Hcatch|].
  destruct (preExpand_expands_only Sample.config2 Sample.heap Sample.leak5)
    as [_ Hexpand].
  exact (Hexpand [5] 6 [] data Hkeys Hcatch).
Defined.

(** ** Hop by hop *)

Section Hops.
Variable config : Config.t.
Variable serialize : Z -> NodeDetail.t.
Variable leak : LeakPoint.t.
Variable rootDistance : Z.

(** Induction over the loop with the hop count and the frontier in view: a
    property of the loop head that one hop carries over holds when the loop
    ends, and then the frontier is empty or the hop count is past the
    limit. *)
Lemma whileLoop_exit (I : Z -> list Z -> Traversal.t -> Prop) :
  (forall dd frontier st,
     frontier <> [] -> dd <= Config.distance_limit config -> I dd frontier st ->
     I (dd + 1)
       (Traversal.tmpIndexArr
          (hopStep config serialize leak rootDistance dd frontier st))
       (hopStep config serialize leak rootDistance dd frontier st)) ->
  forall fuel dd frontier st,
    (Z.to_nat (Config.distance_limit config + 1 - dd) <= fuel)%nat ->
    I dd frontier st ->
    exists dd' frontier',
      I dd' frontier'
        (whileLoop config serialize fuel leak rootDistance dd frontier st)
      /\ (frontier' = [] \/ Config.distance_limit config < dd').
Proof.
  intros Hhop. induction fuel as [|fuel IH]; intros dd frontier st Hfuel HI.
  - exists dd, frontier. split; [done|]. right. lia.
  - simpl. destruct (Z.leb_spec dd (Config.distance_limit config)) as [Hle|Hgt].
    + destruct frontier as [|i frontier].
      * exists dd, []. split; [done|by left].
      * simpl. apply IH; [lia|]. by apply Hhop.
    + rewrite andb_false_r. exists dd, frontier. split; [done|]. right. lia.
Qed.

Lemma childStep_nodes_incl dd nodeDetail st child n :
  n ∈ Traversal.nodes st ->
  n ∈ Traversal.nodes
        (childStep config serialize rootDistance dd nodeDetail st child).
Proof.
  intros Hn. unfold childStep.
  destruct (_ =? _); [destruct (isRecordedGet _ _)|]; simpl; auto.
  apply elem_of_app. by left.
Qed.

Lemma parentStep_nodes_incl dd st index n :
  n ∈ Traversal.nodes st ->
  n ∈ Traversal.nodes (parentStep config serialize leak rootDistance dd st index).
Proof.
  intros Hn. unfold parentStep. destruct (isRecordedGet _ _); [done|].
  apply (fold_left_invariant (fun st' => n ∈ Traversal.nodes st')).
  - simpl. apply elem_of_app. by left.
  - intros st' child _. apply childStep_nodes_incl.
Qed.

Lemma hasNode_incl (nodes nodes' : list GraphNode.t) id :
  (forall n, n ∈ nodes -> n ∈ nodes') -> hasNode nodes id -> hasNode nodes' id.
Proof. intros Hincl (n & Hn & Hid). exists n. auto. Qed.

Lemma pendingIn_snoc indices i id :
  pendingIn serialize indices id -> pendingIn serialize (indices ++ [i]) id.
Proof. intros (j & Hj & Hid). exists j. split; [|done]. apply elem_of_app. by left. Qed.
End Hops.

Section DistanceBound.
Variable config : Config.t.
Variable serialize : Z -> NodeDetail.t.
Variable leak : LeakPoint.t.
Variable rootDistance : Z.

Lemma childStep_withinLimit dd index st child :
  dd <= Config.distance_limit config ->
  NodeDetail.distance (serialize index) = rootDistance + dd - 1 ->
  child ∈ retainedChildren serialize (serialize index) ->
  withinLimit config serialize rootDistance (dd + 1) (Traversal.tmpIndexArr st) st ->
  withinLimit config serialize rootDistance (dd + 1)
    (Traversal.tmpIndexArr
       (childStep config serialize rootDistance dd (serialize index) st child))
    (childStep config serialize rootDistance dd (serialize index) st child).
Proof.
  intros Hle Hparent Hchild (Hdd & Htmp & Hnodes).
  apply retainedChildren_elem_of in Hchild as [Hdist _].
  assert (forall i, i ∈ Traversal.tmpIndexArr st ++ [Child.index child] ->
                    NodeDetail.distance (serialize i)
                    = rootDistance + (dd + 1) - 1) as Htmp'.
  { intros i Hi. apply elem_of_app in Hi as [Hi|Hi]; [auto|].
    apply list_elem_of_singleton in Hi as ->. lia. }
  assert (forall n,
            n ∈ Traversal.nodes st
                ++ [boundaryNode dd (serialize (Child.index child))] ->
            exists i,
              GraphNode.id n = NodeDetail.id (serialize i)
              /\ GraphNode.index n = NodeDetail.index (serialize i)
              /\ rootDistance <= NodeDetail.distance (serialize i)
                 <= rootDistance + Config.distance_limit config) as Hnodes'.
  { intros n Hn. apply elem_of_app in Hn as [Hn|Hn]; [auto|].
    apply list_elem_of_singleton in Hn as ->.
    exists (Child.index child). simpl. repeat split; lia. }
  unfold childStep, withinLimit.
  destruct (_ =? _); destruct (isRecordedGet _ _); simpl; auto.
Qed.

Lemma hopStep_withinLimit dd frontier st :
  frontier <> [] -> dd <= Config.distance_limit config ->
  withinLimit config serialize rootDistance dd frontier st ->
  withinLimit config serialize rootDistance (dd + 1)
    (Traversal.tmpIndexArr
       (hopStep config serialize leak rootDistance dd frontier st))
    (hopStep config serialize leak rootDistance dd frontier st).
Proof.
  intros _ Hle (Hdd & Hfrontier & Hnodes). unfold hopStep.
  apply (fold_left_invariant
           (fun st' =>
              withinLimit config serialize rootDistance (dd + 1)
                (Traversal.tmpIndexArr st') st')).
  - unfold withinLimit. simpl. split; [lia|]. split; [|done].
    intros i Hi. by apply elem_of_nil in Hi.
  - intros st1 index Hindex Hst1. unfold parentStep.
    destruct (isRecordedGet _ _); [done|].
    apply fold_left_invariant.
    + destruct Hst1 as (Hdd1 & Htmp1 & Hnodes1). unfold withinLimit. simpl.
      split; [done|]. split; [done|]. intros n Hn.
      apply elem_of_app in Hn as [Hn|Hn]; [auto|].
      apply list_elem_of_singleton in Hn as ->.
      exists index. simpl. rewrite (Hfrontier index Hindex). repeat split; lia.
    + intros st2 child Hchild Hst2.
      apply childStep_withinLimit; auto.
Qed.

Lemma whileLoop_withinLimit n :
  rootDistance = NodeDetail.distance (serialize (LeakPoint.index leak)) ->
  n ∈ Traversal.nodes (traverse config serialize leak) ->
  exists i,
    GraphNode.id n = NodeDetail.id (serialize i)
    /\ GraphNode.index n = NodeDetail.index (serialize i)
    /\ rootDistance <= NodeDetail.distance (serialize i)
       <= rootDistance + Config.distance_limit config.
Proof.
  intros Hroot. unfold traverse. rewrite <- Hroot.
  destruct (whileLoop_exit config serialize leak rootDistance
              (withinLimit config serialize rootDistance)
              hopStep_withinLimit (hops config) 1 [LeakPoint.index leak]
              (Traversal.mk [] []
                 [(LeakPoint.index leak,
                   Biggest.mk (NodeDetail.id (serialize (LeakPoint.index leak)))
                     None None None
                     (NodeDetail.retainedSize (serialize (LeakPoint.index leak))))]
                 ∅ []))
    as (dd' & frontier' & (_ & _ & Hnodes) & _).
  - unfold hops. lia.
  - unfold withinLimit. simpl. split; [lia|]. split.
    + intros i Hi. apply list_elem_of_singleton in Hi as ->. lia.
    + intros m Hm. by apply elem_of_nil in Hm.
  - apply Hnodes.
Qed.
End DistanceBound.

(** X17.  Every node of a returned graph is the node of a materialized
    detail whose distance lies between the distance of the graph's leak
    point and that distance plus [distance_limit]: the traversal never goes
    further than the limit. *)
Theorem nodes_within_distance_limit config serialize heapUsed leakPoint key g n :
  snd (createForceGraph config serialize heapUsed leakPoint) !! key = Some g ->
  n ∈ ForceGraph.nodes g ->
  exists leak i,
    leak ∈ leakPoint
    /\ ForceGraph.index g = Some (LeakPoint.index leak)
    /\ GraphNode.id n = NodeDetail.id (serialize i)
    /\ GraphNode.index n = NodeDetail.index (serialize i)
    /\ NodeDetail.distance (serialize (LeakPoint.index leak))
       <= NodeDetail.distance (serialize i)
       <= NodeDetail.distance (serialize (LeakPoint.index leak))
          + Config.distance_limit config.
Proof.
  intros Hg Hn. apply createForceGraph_graphs in Hg as (leak & Hleak & ->).
  destruct (leakGraph_shape config serialize leak) as (f & Hnodes & Hid & _).
  rewrite Hnodes in Hn. apply elem_of_map in Hn as (m & -> & Hm).
  destruct (whileLoop_withinLimit config serialize leak _ m eq_refl Hm)
    as (i & Hmid & Hmidx & Hdist).
  destruct (Hid m) as (Hi & _ & Hident & _).
  exists leak, i. split; [done|]. split; [done|]. rewrite Hi, Hident. auto.
Qed.

Lemma isRecordedGet_plain (isRecorded : gset string) id :
  plainId id -> isRecordedGet isRecorded id = true -> id ∈ isRecorded.
Proof.
  unfold isRecordedGet, plainId. intros -> H. simpl in H.
  by apply bool_decide_eq_true in H.
Qed.

Section Anchors.
Variable config : Config.t.
Variable serialize : Z -> NodeDetail.t.
Variable leak : LeakPoint.t.
Variable rootDistance : Z.

Lemma childStep_anchored dd frontier index st child :
  dd <= Config.distance_limit config ->
  hasNode (Traversal.nodes st) (NodeDetail.id (serialize index)) ->
  anchored config serialize dd frontier (Traversal.tmpIndexArr st) st ->
  anchored config serialize dd frontier
    (Traversal.tmpIndexArr
       (childStep config serialize rootDistance dd (serialize index) st child))
    (childStep config serialize rootDistance dd (serialize index) st child)
  /\ hasNode
       (Traversal.nodes
          (childStep config serialize rootDistance dd (serialize index) st child))
       (NodeDetail.id (serialize index)).
Proof.
  intros Hle Hparent [Hsrc Hplain].
  split; [|eapply hasNode_incl; [|exact Hparent];
           intros n; apply childStep_nodes_incl].
  unfold childStep, anchored.
  destruct (Z.eqb_spec dd (Config.distance_limit config)) as [Heq|Hne];
    destruct (isRecordedGet _ _) eqn:Hrec; simpl.
  - done.
  - assert (forall n, n ∈ Traversal.nodes st ->
                      n ∈ Traversal.nodes st
                          ++ [boundaryNode dd (serialize (Child.index child))])
      as Hincl by (intros n Hn; apply elem_of_app; by left).
    assert (hasNode
              (Traversal.nodes st
               ++ [boundaryNode dd (serialize (Child.index child))])
              (NodeDetail.id (serialize (Child.index child)))) as Hnew.
    { eexists. split; [apply elem_of_app; right; left|done]. }
    split.
    + intros l Hl. apply elem_of_app in Hl as [Hl|Hl].
      * eapply hasNode_incl; eauto.
      * apply list_elem_of_singleton in Hl as ->. simpl.
        eapply hasNode_incl; eauto.
    + intros Hall. destruct (Hplain Hall) as [Hrecd Htgt]. split.
      * intros x Hx. apply elem_of_union in Hx as [Hx|Hx].
        -- by apply elem_of_singleton in Hx as ->.
        -- eapply hasNode_incl; eauto.
      * intros l Hl. apply elem_of_app in Hl as [Hl|Hl].
        -- destruct (Htgt l Hl) as [H|[H|[Hlt H]]].
           ++ left. eapply hasNode_incl; eauto.
           ++ right. by left.
           ++ right. right. split; [done|]. by apply pendingIn_snoc.
        -- apply list_elem_of_singleton in Hl as ->. by left.
  - split.
    + intros l Hl. apply elem_of_app in Hl as [Hl|Hl]; [auto|].
      by apply list_elem_of_singleton in Hl as ->.
    + intros Hall. destruct (Hplain Hall) as [Hrecd Htgt]. split; [done|].
      intros l Hl. apply elem_of_app in Hl as [Hl|Hl]; [auto|].
      apply list_elem_of_singleton in Hl as ->. simpl. left.
      apply Hrecd. by apply isRecordedGet_plain.
  - split.
    + intros l Hl. apply elem_of_app in Hl as [Hl|Hl]; [auto|].
      by apply list_elem_of_singleton in Hl as ->.
    + intros Hall. destruct (Hplain Hall) as [Hrecd Htgt]. split; [done|].
      intros l Hl. apply elem_of_app in Hl as [Hl|Hl].
      * destruct (Htgt l Hl) as [H|[H|[Hlt H]]]; auto.
        right. right. split; [done|]. by apply pendingIn_snoc.
      * apply list_elem_of_singleton in Hl as ->. simpl. right. right.
        split; [lia|]. exists (Child.index child).
        split; [apply elem_of_app; right; left|done].
Qed.

Lemma parentStep_anchored dd frontier st index :
  dd <= Config.distance_limit config ->
  anchored config serialize dd frontier (Traversal.tmpIndexArr st) st ->
  anchored config serialize dd frontier
    (Traversal.tmpIndexArr
       (parentStep config serialize leak rootDistance dd st index))
    (parentStep config serialize leak rootDistance dd st index)
  /\ ((forall i, plainId (NodeDetail.id (serialize i))) ->
      hasNode
        (Traversal.nodes
           (parentStep config serialize leak rootDistance dd st index))
        (NodeDetail.id (serialize index))).
Proof.
  intros Hle Hst. unfold parentStep.
  destruct (isRecordedGet _ _) eqn:Hrec.
  - split; [done|]. intros Hall. destruct Hst as [_ Hplain].
    destruct (Hplain Hall) as [Hrecd _]. apply Hrecd.
    by apply isRecordedGet_plain.
  - match goal with
    | |- context [fold_left ?f ?l ?a] =>
        assert (anchored config serialize dd frontier
                  (Traversal.tmpIndexArr (fold_left f l a)) (fold_left f l a)
                /\ hasNode (Traversal.nodes (fold_left f l a))
                     (NodeDetail.id (serialize index))) as [H1 H2];
          [|by split]
    end.
    apply (fold_left_invariant
             (fun st' =>
                anchored config serialize dd frontier
                  (Traversal.tmpIndexArr st') st'
                /\ hasNode (Traversal.nodes st')
                     (NodeDetail.id (serialize index)))).
    + assert (forall n, n ∈ Traversal.nodes st ->
                        n ∈ Traversal.nodes st
                            ++ [parentNode leak (serialize index)])
        as Hincl by (intros n Hn; apply elem_of_app; by left).
      assert (hasNode
                (Traversal.nodes st ++ [parentNode leak (serialize index)])
                (NodeDetail.id (serialize index))) as Hnew.
      { eexists. split; [apply elem_of_app; right; left|done]. }
      split; [|done]. destruct Hst as [Hsrc Hplain]. unfold anchored. simpl.
      split.
      * intros l Hl. eapply hasNode_incl; eauto.
      * intros Hall. destruct (Hplain Hall) as [Hrecd Htgt]. split.
        -- intros x Hx. apply elem_of_union in Hx as [Hx|Hx].
           ++ by apply elem_of_singleton in Hx as ->.
           ++ eapply hasNode_incl; eauto.
        -- intros l Hl. destruct (Htgt l Hl) as [H|[H|H]]; auto.
           left. eapply hasNode_incl; eauto.
    + intros st' child _ [Hst' Hparent]. by apply childStep_anchored.
Qed.

Lemma frontier_anchored dd frontier indices st :
  dd <= Config.distance_limit config ->
  anchored config serialize dd frontier (Traversal.tmpIndexArr st) st ->
  anchored config serialize dd frontier
    (Traversal.tmpIndexArr
       (fold_left (parentStep config serialize leak rootDistance dd) indices st))
    (fold_left (parentStep config serialize leak rootDistance dd) indices st)
  /\ ((forall i, plainId (NodeDetail.id (serialize i))) ->
      forall i, i ∈ indices ->
        hasNode
          (Traversal.nodes
             (fold_left (parentStep config serialize leak rootDistance dd)
                indices st))
          (NodeDetail.id (serialize i))).
Proof.
  intros Hle. revert st. induction indices as [|j indices IH]; intros st Hst;
    simpl.
  - split; [done|]. intros _ i Hi. by apply elem_of_nil in Hi.
  - destruct (parentStep_anchored dd frontier st j Hle Hst) as [Hst1 Hj].
    destruct (IH _ Hst1) as [Hfinal Hrest]. split; [done|].
    intros Hall i Hi. apply elem_of_cons in Hi as [->|Hi]; [|by apply Hrest].
    eapply hasNode_incl; [|exact (Hj Hall)]. intros n Hn.
    apply (fold_left_invariant (fun st' => n ∈ Traversal.nodes st')); [done|].
    intros st' k _. apply parentStep_nodes_incl.
Qed.

Lemma hopStep_anchored dd frontier st :
  frontier <> [] -> dd <= Config.distance_limit config ->
  anchored config serialize dd frontier [] st ->
  anchored config serialize (dd + 1)
    (Traversal.tmpIndexArr
       (hopStep config serialize leak rootDistance dd frontier st)) []
    (hopStep config serialize leak rootDistance dd frontier st).
Proof.
  intros _ Hle Hst. unfold hopStep.
  match goal with
  | |- context [fold_left ?f frontier ?a] =>
      destruct (frontier_anchored dd frontier frontier a Hle Hst)
        as [[Hsrc Hplain] Hdone]
  end.
  split; [done|]. intros Hall. destruct (Hplain Hall) as [Hrecd Htgt].
  split; [done|]. intros l Hl.
  destruct (Htgt l Hl) as [H|[[_ (i & Hi & <-)]|[Hlt H]]].
  - by left.
  - left. by apply Hdone.
  - right. left. split; [lia|done].
Qed.

End Anchors.

Lemma traverse_anchored config serialize leak l :
  l ∈ Traversal.links (traverse config serialize leak) ->
  hasNode (Traversal.nodes (traverse config serialize leak)) (GraphLink.source l)
  /\ ((forall i, plainId (NodeDetail.id (serialize i))) ->
      hasNode (Traversal.nodes (traverse config serialize leak))
        (GraphLink.target l)).
Proof.
  unfold traverse.
  destruct (whileLoop_exit config serialize leak
              (NodeDetail.distance (serialize (LeakPoint.index leak)))
              (fun dd frontier st => anchored config serialize dd frontier [] st)
              (hopStep_anchored config serialize leak
                 (NodeDetail.distance (serialize (LeakPoint.index leak))))
              (hops config) 1 [LeakPoint.index leak]
              (Traversal.mk [] []
                 [(LeakPoint.index leak,
                   Biggest.mk (NodeDetail.id (serialize (LeakPoint.index leak)))
                     None None None
                     (NodeDetail.retainedSize (serialize (LeakPoint.index leak))))]
                 ∅ []))
    as (dd' & frontier' & [Hsrc Hplain] & Hexit).
  - unfold hops. lia.
  - split.
    + intros m Hm. by apply elem_of_nil in Hm.
    + intros _. split.
      * intros x Hx. by apply not_elem_of_empty in Hx.
      * intros m Hm. by apply elem_of_nil in Hm.
  - intros Hl. split; [by apply Hsrc|]. intros Hall.
    destruct (Hplain Hall) as [_ Htgt].
    destruct (Htgt l Hl) as [H|[[Hle (i & Hi & _)]|[_ (i & Hi & _)]]].
    + done.
    + destruct Hexit as [->|Hgt]; [by apply elem_of_nil in Hi|lia].
    + by apply elem_of_nil in Hi.
Qed.

(** X18.  No link of a returned graph hangs loose at its source: the source
    of every link is the id of a node of the graph.  When no detail has an
    id that is the name of an inherited property, the target of every link
    is the id of a node of the graph as well. *)
Theorem links_join_nodes config serialize heapUsed leakPoint key g l :
  snd (createForceGraph config serialize heapUsed leakPoint) !! key = Some g ->
  l ∈ ForceGraph.links g ->
  hasNode (ForceGraph.nodes g) (GraphLink.source l)
  /\ ((forall i, plainId (NodeDetail.id (serialize i))) ->
      hasNode (ForceGraph.nodes g) (GraphLink.target l)).
Proof.
  intros Hg Hl. apply createForceGraph_graphs in Hg as (leak & _ & ->).
  destruct (leakGraph_shape config serialize leak) as (f & Hnodes & Hid & Hlinks).
  rewrite Hlinks in Hl. rewrite Hnodes.
  assert (forall x,
            hasNode (Traversal.nodes (traverse config serialize leak)) x ->
            hasNode (map f (Traversal.nodes (traverse config serialize leak))) x)
    as Hmap.
  { intros x (n & Hn & <-). exists (f n). split.
    - apply elem_of_map. by exists n.
    - apply Hid. }
  destruct (traverse_anchored config serialize leak l Hl) as [Hsrc Htgt].
  split; [by apply Hmap|]. intros Hall. by apply Hmap, Htgt.
Qed.

(** * Further properties of the memory result *)

Lemma initial_heapUsed (serialize : Z -> NodeDetail.t)
    (leakPoint : list LeakPoint.t) (start : gmap Z NodeDetail.t) :
  let filled :=
    fold_left
      (fun pre next =>
         <[LeakPoint.index next := serialize (LeakPoint.index next)]> pre)
      leakPoint start in
  ((forall k v, start !! k = Some v -> v = serialize k) ->
   forall k v, filled !! k = Some v -> v = serialize k)
  /\ (forall k, is_Some (start !! k) -> is_Some (filled !! k))
  /\ forall leak, leak ∈ leakPoint -> is_Some (filled !! LeakPoint.index leak).
Proof.
  revert start. induction leakPoint as [|leak leakPoint IH]; intros start; simpl.
  - split; [done|]. split; [done|]. intros leak Hleak.
    by apply elem_of_nil in Hleak.
  - destruct (IH (<[LeakPoint.index leak := serialize (LeakPoint.index leak)]>
                    start)) as (Hcons & Hkeep & Hall).
    split; [|split].
    + intros Hstart. apply Hcons. intros k v.
      destruct (decide (LeakPoint.index leak = k)) as [<-|Hne].
      * rewrite lookup_insert_eq. congruence.
      * rewrite lookup_insert_ne by done. apply Hstart.
    + intros k Hk. apply Hkeep.
      destruct (decide (LeakPoint.index leak = k)) as [<-|Hne].
      * rewrite lookup_insert_eq. by eexists.
      * by rewrite lookup_insert_ne.
    + intros leak' Hleak'. apply elem_of_cons in Hleak' as [->|Hleak'].
      * apply Hkeep. rewrite lookup_insert_eq. by eexists.
      * by apply Hall.
Qed.

(** X19.  In the memory result every entry of [heapUsed] is the detail the
    snapshot analyzer gives for its key (with the configured node limit),
    and the root and every leak point have an entry. *)
Theorem result_heapUsed
    (Snapshot Statistics Aggregates : Type)
    (analysisSerialize : Snapshot -> Z -> Z -> NodeDetail.t)
    (statisticsOf : Snapshot -> Statistics) (allObjectsOf : Snapshot -> Aggregates)
    (config : Config.t) (memAnalytics : MemAnalytics Snapshot) :
  let result :=
    analyticsMem analysisSerialize statisticsOf allObjectsOf config memAnalytics in
  let detail := fun k =>
    analysisSerialize (ma_jsHeapSnapShot memAnalytics) k (Config.node_limit config) in
  (forall k v, heapUsed result !! k = Some v -> v = detail k)
  /\ is_Some (heapUsed result !! ma_rootIndex memAnalytics)
  /\ forall leak,
       leak ∈ ma_leakPoint memAnalytics ->
       is_Some (heapUsed result !! LeakPoint.index leak).
Proof.
  intros result detail. subst result. unfold analyticsMem, memCalculator.
  rewrite createForceGraph_split. simpl. fold detail.
  destruct (initial_heapUsed detail (ma_leakPoint memAnalytics) ∅)
    as (Hcons & Hkeep & Hall).
  split; [|split].
  - apply heapUsed_fold_consistent. intros k v.
    destruct (decide (ma_rootIndex memAnalytics = k)) as [<-|Hne].
    + rewrite lookup_insert_eq. by intros [= <-].
    + rewrite lookup_insert_ne by done. apply Hcons. intros k' v'.
      by rewrite lookup_empty.
  - apply heapUsed_fold_keeps. rewrite lookup_insert_eq. by eexists.
  - intros leak Hleak. apply heapUsed_fold_keeps.
    destruct (decide (ma_rootIndex memAnalytics = LeakPoint.index leak))
      as [<-|Hne].
    + rewrite lookup_insert_eq. by eexists.
    + rewrite lookup_insert_ne by done. by apply Hall.
Qed.

(** * The further properties on the sample heap *)

Lemma nonpositive_limit_gives_empty_graphs_witness :
  Config.distance_limit (Config.mk 0 10 5) <= 0
  /\ fst (createForceGraph (Config.mk 0 10 5) Sample.heap ∅ [Sample.leak5]) = ∅
  /\ leakGraph (Config.mk 0 10 5) Sample.heap Sample.leak5
     = ForceGraph.mk [] [] (Some 5).
Proof.
  assert (Config.distance_limit (Config.mk 0 10 5) <= 0) as Hlimit by done.
  split; [exact Hlimit|].
  exact (nonpositive_limit_gives_empty_graphs (Config.mk 0 10 5) Sample.heap ∅
           [Sample.leak5] Sample.leak5 Hlimit).
Defined.

Lemma sample_node6 :
  GraphNode.mk 6 "@6" (Some false) "@6" 30 0 false false (Some "@6") (Some 30)
    ∈ ForceGraph.nodes (leakGraph Sample.config2 Sample.heap Sample.leak5).
Proof. vm_compute. right. left. Qed.

Lemma sample_link67 :
  GraphLink.mk "@6" "@7" 6 7 "b"
    ∈ ForceGraph.links (leakGraph Sample.config2 Sample.heap Sample.leak5).
Proof. vm_compute. right. left. Qed.

Lemma node_ids_not_inherited_witness : plainId "@6".
Proof.
  exact (node_ids_not_inherited Sample.config2 Sample.heap ∅ [Sample.leak5]
           "Leak::@5" _ _ sample_graph_built sample_node6).
Defined.

Lemma node_sizes_witness :
  let n := GraphNode.mk 6 "@6" (Some false) "@6" 30 0 false false
             (Some "@6") (Some 30) in
  GraphNode.symbolSize n = Some (GraphNode.size n)
  /\ ((GraphNode.size n = 40 /\ GraphNode.isMain n = Some true
       /\ ForceGraph.index (leakGraph Sample.config2 Sample.heap Sample.leak5)
          = Some (GraphNode.index n))
      \/ (GraphNode.size n = 30 /\ GraphNode.isMain n <> Some true)).
Proof.
  exact (node_sizes Sample.config2 Sample.heap ∅ [Sample.leak5]
           "Leak::@5" _ _ sample_graph_built sample_node6).
Defined.

Lemma built_nodes_in_toggle_states_witness :
  Forall toggleState
    (ForceGraph.nodes (leakGraph Sample.config2 Sample.heap Sample.leak5)).
Proof.
  exact (built_nodes_in_toggle_states Sample.config2 Sample.heap ∅
           [Sample.leak5] "Leak::@5" _ sample_graph_built).
Defined.

Lemma nodes_within_distance_limit_witness :
  exists leak i,
    leak ∈ [Sample.leak5]
    /\ ForceGraph.index (leakGraph Sample.config2 Sample.heap Sample.leak5)
       = Some (LeakPoint.index leak)
    /\ "@6" = NodeDetail.id (Sample.heap i)
    /\ 6 = NodeDetail.index (Sample.heap i)
    /\ NodeDetail.distance (Sample.heap (LeakPoint.index leak))
       <= NodeDetail.distance (Sample.heap i)
       <= NodeDetail.distance (Sample.heap (LeakPoint.index leak)) + 2.
Proof.
  exact (nodes_within_distance_limit Sample.config2 Sample.heap ∅
           [Sample.leak5] "Leak::@5" _ _ sample_graph_built sample_node6).
Defined.

Lemma sample_heap_plain i : plainId (NodeDetail.id (Sample.heap i)).
Proof.
  unfold Sample.heap, Sample.chain.
  destruct (i =? 5); [done|]. by destruct (i =? 6).
Qed.

Lemma links_join_nodes_witness :
  hasNode (ForceGraph.nodes (leakGraph Sample.config2 Sample.heap Sample.leak5))
    "@6"
  /\ hasNode (ForceGraph.nodes (leakGraph Sample.config2 Sample.heap Sample.leak5))
       "@7".
Proof.
  destruct (links_join_nodes Sample.config2 Sample.heap ∅ [Sample.leak5]
              "Leak::@5" _ _ sample_graph_built sample_link67) as [Hsrc Htgt].
  split; [exact Hsrc|]. apply Htgt, sample_heap_plain.
Defined.
